(** * day14-doc-assistant: the retrieval-and-memory pipeline

    A shallow embedding of
      - [src/lib/chunker.ts]           (hierarchical chunker, legacy
                                        chunker),
      - [src/app/api/chat/route.ts]    (memory management, reformulation,
                                        context assembly, stream trailer),
      - [src/components/ChatView.tsx]  ([extractSentinels],
                                        [handleSubmit]),
      - [src/lib/embeddings.ts], [src/lib/pinecone.ts] ([upsertChunks]),
        [src/lib/parsers.ts] ([parseDocument]) and
        [src/app/api/upload/route.ts]  (the ingestion path),
      - [src/components/UploadView.tsx] ([processFiles]),
    and the properties of the specification that concern them.

    Texts are lists of code units; a code unit is one below 256 or one
    of the two separators U+2028 and U+2029 ([codeUnit]).  Sizes and
    lengths are natural numbers, the index kept in the memory state is
    an integer. *)

From Stdlib Require Import Ascii String DecimalString DecimalNat.
From Stdlib Require Import List Arith ZArith Lia Bool.
Open Scope nat_scope.
Import ListNotations.

(* ================================================================== *)
(** * JavaScript strings *)
(* ================================================================== *)

Module JsString.

(** The code units of the texts: those below 256, and LINE SEPARATOR
    (U+2028) and PARAGRAPH SEPARATOR (U+2029), which [trim] and the
    regular expressions of the language treat as white space and as line
    terminators, and which [JSON.stringify] leaves as they are. *)
Inductive codeUnit :=
| Latin (a : ascii)
| LS
| PS.

Definition jsstring := list codeUnit.

(** A literal. *)
Definition str (s : string) : jsstring := map Latin (list_ascii_of_string s).
Arguments str : simpl never.

(** Truthiness of a string: [if (s)] holds exactly for a non-empty one. *)
Definition truthy (s : jsstring) : bool :=
  match s with [] => false | _ :: _ => true end.

Definition char_eqb (a b : codeUnit) : bool :=
  match a, b with
  | Latin x, Latin y => Ascii.eqb x y
  | LS, LS => true
  | PS, PS => true
  | _, _ => false
  end.

Fixpoint string_eqb (a b : jsstring) : bool :=
  match a, b with
  | [], [] => true
  | x :: a', y :: b' => char_eqb x y && string_eqb a' b'
  | _, _ => false
  end.

(** White space as [String.prototype.trim] and the regular expression
    class [\s] see it, among these code units: TAB, LF, VT, FF, CR,
    SPACE, NBSP, and the two separators. *)
Definition isWhitespace (c : codeUnit) : bool :=
  match c with
  | Latin a =>
      let n := nat_of_ascii a in
      (n =? 9) || (n =? 10) || (n =? 11) || (n =? 12) || (n =? 13)
      || (n =? 32) || (n =? 160)
  | LS | PS => true
  end.

(** Line terminators, which [.] of a regular expression does not match:
    LF, CR and the two separators. *)
Definition isLineTerminator (c : codeUnit) : bool :=
  match c with
  | Latin a => let n := nat_of_ascii a in (n =? 10) || (n =? 13)
  | LS | PS => true
  end.

Fixpoint dropWhile (p : codeUnit -> bool) (s : jsstring) : jsstring :=
  match s with
  | [] => []
  | c :: s' => if p c then dropWhile p s' else s
  end.

(** [s.trim()] *)
Definition trim (s : jsstring) : jsstring :=
  rev (dropWhile isWhitespace (rev (dropWhile isWhitespace s))).

(** [s.startsWith(p)] *)
Fixpoint startsWith (p s : jsstring) : bool :=
  match p, s with
  | [], _ => true
  | _ :: _, [] => false
  | a :: p', b :: s' => char_eqb a b && startsWith p' s'
  end.

(** [s.slice(i, j)] for [0 <= i], [0 <= j]. *)
Definition slice (s : jsstring) (i j : nat) : jsstring :=
  firstn (j - i) (skipn i s).

(** [s.slice(-n)] for [0 < n]: the last [n] characters, all of [s] when
    it is shorter. *)
Definition sliceLast (s : jsstring) (n : nat) : jsstring :=
  skipn (length s - n) s.

(** [text.split(sep)] for a non-empty separator: the pieces between the
    occurrences of [sep], found from left to right without overlap.
    [skip] counts the characters of a separator just recognised that are
    still to be passed over; [cur] is the piece being read. *)
Fixpoint splitFrom (sep : jsstring) (skip : nat) (cur : jsstring)
         (s : jsstring) : list jsstring :=
  match s with
  | [] => [cur]
  | c :: s' =>
      match skip with
      | S k => splitFrom sep k cur s'
      | O =>
          if startsWith sep s
          then cur :: splitFrom sep (length sep - 1) [] s'
          else splitFrom sep 0 (cur ++ [c]) s'
      end
  end.

Definition split (text sep : jsstring) : list jsstring :=
  splitFrom sep 0 [] text.

(** [pieces.join(sep)] *)
Fixpoint join (sep : jsstring) (pieces : list jsstring) : jsstring :=
  match pieces with
  | [] => []
  | [p] => p
  | p :: rest => p ++ sep ++ join sep rest
  end.

(** Decimal rendering of a non-negative integer, as in [`${i}`]. *)
Definition ofNat (n : nat) : jsstring :=
  str (NilEmpty.string_of_uint (Nat.to_uint n)).

Definition tab : codeUnit := Latin "009".
Definition lf : codeUnit := Latin "010".

End JsString.
Import JsString.

(* ================================================================== *)
(** * src/lib/chunker.ts *)
(* ================================================================== *)

Module Chunker.

Record ParentChunk := mkParent {
  p_id : jsstring;
  p_text : jsstring;
  p_index : nat
}.

Record ChildChunk := mkChild {
  c_text : jsstring;
  c_index : nat;
  c_parentId : jsstring;
  c_childIndex : nat
}.

Definition SEPARATORS : list jsstring :=
  [str (String "010" (String "010" EmptyString));
   str (String "010" EmptyString);
   str ". "; str " "; str ""].

(** The fixed-width loop of [splitRecursive]
    [for (let i = 0; i < text.length; i += chunkSize) parts.push(...)].
    When [chunkSize] is positive the loop runs at most [text.length]
    times, the fuel it is given.  When [chunkSize] is 0 and the text is
    not empty the index never advances: the loop pushes empty strings
    until [parts.push] throws a [RangeError] (Invalid array length),
    which nothing in the chunker catches.  [None] stands for that
    thrown error. *)
Fixpoint fixedWidthLoop (fuel i : nat) (text : jsstring) (chunkSize : nat)
         (parts : list jsstring) : option (list jsstring) :=
  if i <? length text then
    match fuel with
    | O => None
    | S f =>
        fixedWidthLoop f (i + chunkSize) text chunkSize
                       (parts ++ [slice text i (i + chunkSize)])
    end
  else Some parts.

Definition fixedWidth (text : jsstring) (chunkSize : nat)
  : option (list jsstring) :=
  fixedWidthLoop (length text) 0 text chunkSize [].

(** The loop [for (const piece of splits)] of [splitRecursive]; [recur]
    is the call on the remaining separators; the result is the final
    [(results, current)]. *)
Fixpoint packPieces (recur : jsstring -> option (list jsstring))
         (sep : jsstring) (chunkSize : nat) (pieces : list jsstring)
         (results : list jsstring) (current : jsstring)
  : option (list jsstring * jsstring) :=
  match pieces with
  | [] => Some (results, current)
  | piece :: more =>
      let candidate :=
        if truthy current then current ++ sep ++ piece else piece in
      if length candidate <=? chunkSize
      then packPieces recur sep chunkSize more results candidate
      else
        let results1 :=
          if truthy current then results ++ [current] else results in
        if chunkSize <? length piece
        then match recur piece with
             | None => None
             | Some sub =>
                 packPieces recur sep chunkSize more (results1 ++ sub) []
             end
        else packPieces recur sep chunkSize more results1 piece
  end.

Fixpoint splitRecursive (text : jsstring) (separators : list jsstring)
         (chunkSize : nat) {struct separators} : option (list jsstring) :=
  if length text <=? chunkSize then Some [text]
  else
    match separators with
    | [] => fixedWidth text chunkSize
    | sep :: rest =>
        let splits :=
          if string_eqb sep (str "") then [text] else split text sep in
        match packPieces (fun piece => splitRecursive piece rest chunkSize)
                         sep chunkSize splits [] [] with
        | None => None
        | Some (results, current) =>
            Some (if truthy current then results ++ [current] else results)
        end
    end.

(** [if (chunk) result.push(chunk)] *)
Definition pushIfTruthy (chunk : jsstring) : list jsstring :=
  if truthy chunk then [chunk] else [].

(** The two nested [while] loops of [mergeChunks], read as one pass:
    [chunk] is the chunk under construction (it starts as
    [splits[i].trim()]), [rest] the splits after index [i].  The inner
    loop takes the next split while
    [chunk.length + splits[i+1].length + 1 <= chunkSize]; otherwise the
    chunk is pushed when it is not empty and the outer loop starts again
    from the next split. *)
Fixpoint mergeFrom (chunk : jsstring) (rest : list jsstring)
         (chunkSize : nat) : list jsstring :=
  match rest with
  | [] => pushIfTruthy chunk
  | next :: rest' =>
      if length chunk + length next + 1 <=? chunkSize
      then mergeFrom (chunk ++ str " " ++ trim next) rest' chunkSize
      else pushIfTruthy chunk ++ mergeFrom (trim next) rest' chunkSize
  end.

(** [overlapped.push(result[j-1].slice(-overlap) + " " + result[j])] for
    [j = 1, 2, ...]; [prev] is [result[j-1]]. *)
Fixpoint addOverlap (overlap : nat) (prev : jsstring)
         (rest : list jsstring) : list jsstring :=
  match rest with
  | [] => []
  | r :: rest' =>
      (sliceLast prev overlap ++ str " " ++ r) :: addOverlap overlap r rest'
  end.

(** The chunks before the overlap is injected ([result]). *)
Definition mergeCore (splits : list jsstring) (chunkSize : nat)
  : list jsstring :=
  match splits with
  | [] => []
  | s :: rest => mergeFrom (trim s) rest chunkSize
  end.

Definition mergeChunks (splits : list jsstring) (chunkSize overlap : nat)
  : list jsstring :=
  if length splits <=? 1
  then filter truthy (map trim splits)
  else
    let result := mergeCore splits chunkSize in
    if (0 <? overlap) && (1 <? length result)
    then match result with
         | [] => []
         | r0 :: rest => r0 :: addOverlap overlap r0 rest
         end
    else result.

Definition splitAndMerge (text : jsstring) (chunkSize overlap : nat)
  : option (list jsstring) :=
  match splitRecursive text SEPARATORS chunkSize with
  | None => None
  | Some rawChunks => Some (mergeChunks rawChunks chunkSize overlap)
  end.

(** [parentTexts.map((t, i) => ({ id: `p-${i}`, text: t, index: i }))] *)
Fixpoint mkParents (i : nat) (texts : list jsstring) : list ParentChunk :=
  match texts with
  | [] => []
  | t :: more => mkParent (str "p-" ++ ofNat i) t i :: mkParents (S i) more
  end.

(** The inner loop [for (let ci = 0; ci < childTexts.length; ci++)];
    [children] is the array so far. *)
Fixpoint pushChildren (parentId : jsstring) (ci : nat)
         (childTexts : list jsstring) (children : list ChildChunk)
  : list ChildChunk :=
  match childTexts with
  | [] => children
  | t :: more =>
      pushChildren parentId (S ci) more
        (children ++ [mkChild t (length children) parentId ci])
  end.

(** The loop [for (const parent of parents)]. *)
Fixpoint childrenOf (parents : list ParentChunk) (childSize childOverlap : nat)
         (children : list ChildChunk) : option (list ChildChunk) :=
  match parents with
  | [] => Some children
  | parent :: more =>
      match splitAndMerge (p_text parent) childSize childOverlap with
      | None => None
      | Some childTexts =>
          childrenOf more childSize childOverlap
                     (pushChildren (p_id parent) 0 childTexts children)
      end
  end.

Definition parentChildChunk (text : jsstring)
           (parentSize parentOverlap childSize childOverlap : nat)
  : option (list ParentChunk * list ChildChunk) :=
  match splitAndMerge text parentSize parentOverlap with
  | None => None
  | Some parentTexts =>
      let parents := mkParents 0 parentTexts in
      match childrenOf parents childSize childOverlap [] with
      | None => None
      | Some children => Some (parents, children)
      end
  end.

(** ** Legacy single-level chunking *)

Record Chunk := mkChunk {
  ch_text : jsstring;
  ch_index : nat
}.

(** [merged.map((t, i) => ({ text: t, index: i }))] *)
Fixpoint mkChunks (i : nat) (texts : list jsstring) : list Chunk :=
  match texts with
  | [] => []
  | t :: more => mkChunk t i :: mkChunks (S i) more
  end.

Definition chunkText (text : jsstring) (chunkSize chunkOverlap : nat)
  : option (list Chunk) :=
  match splitAndMerge text chunkSize chunkOverlap with
  | None => None
  | Some merged => Some (mkChunks 0 merged)
  end.

End Chunker.
Import Chunker.

(* ================================================================== *)
(** * src/app/api/chat/route.ts *)
(* ================================================================== *)

Module Chat.

Open Scope Z_scope.

(** ** Values *)

Record Message := mkMessage { role : jsstring; content : jsstring }.

Record Tokens := mkTokens { prompt : nat; completion : nat }.

(** What a failing call throws: an [Error] with its message, or a value
    that is not an [Error]. *)
Inductive Thrown :=
| ErrorObject (message : jsstring)
| OtherValue.

Inductive Result (A : Type) :=
| Ok (a : A)
| Throw (e : Thrown).
Arguments Ok {A} a.
Arguments Throw {A} e.

(** ** The collaborators *)

Record ChatMessage := mkChatMessage {
  cm_role : jsstring;
  cm_content : jsstring
}.

Record ChatRequest := mkChatRequest {
  cr_model : jsstring;
  cr_messages : list ChatMessage;
  cr_max_tokens : option nat;
  cr_temperature : option nat;
  cr_stream : bool
}.

(** A completion as the code reads it: [res.choices[0]?.message?.content]
    ([None] when a link of the chain is missing) and [res.usage]. *)
Record ChatCompletion := mkChatCompletion {
  cc_content : option jsstring;
  cc_usage : option Tokens
}.

(** A chunk of a streamed completion: [chunk.usage] and
    [chunk.choices[0]?.delta?.content]. *)
Record StreamChunk := mkStreamChunk {
  sc_usage : option Tokens;
  sc_delta : option jsstring
}.

(** A streamed completion: the chunks it yields and, when the iteration
    throws after them, what it throws. *)
Record StreamedCompletion := mkStreamed {
  st_chunks : list StreamChunk;
  st_failure : option Thrown
}.

(** A value of the metadata record, [string | number]; numbers are
    integers here. *)
Inductive MetaValue :=
| MString (s : jsstring)
| MNumber (n : Z).

(** A match of [queryChunks]; of the metadata the fields that the route
    reads.  The embedding and the score are not inspected by the code. *)
Record SearchResult := mkResult {
  r_id : jsstring;
  r_score : Z;
  r_parentId : option MetaValue;
  r_parentText : option MetaValue;
  r_text : option MetaValue
}.

Definition Vector := list Z.

Record Services := mkServices {
  apiKeySet : bool;                      (* process.env.OPENAI_API_KEY *)
  chatCreate : ChatRequest -> Result ChatCompletion;
  chatCreateStream : ChatRequest -> Result StreamedCompletion;
  embedText : jsstring -> Result Vector;
  queryChunks : jsstring -> Vector -> nat -> option (list jsstring)
                -> Result (list SearchResult)
}.

(** [JSON.stringify] and [JSON.parse] of the platform, on the two
    payloads of the trailer; [None] is a [JSON.parse] that throws. *)
Record TokenUsage := mkUsage {
  u_prompt : nat; u_completion : nat; u_total : nat
}.

Record SummaryUpdate := mkSummaryUpdate { su_text : jsstring; su_msgCount : Z }.

Record Json := mkJson {
  stringify_usage : TokenUsage -> jsstring;
  stringify_summary : SummaryUpdate -> jsstring;
  parse_usage : jsstring -> option TokenUsage;
  parse_summary : jsstring -> option SummaryUpdate
}.

(** ** Calls and their record *)

Inductive Call :=
| CallChat (req : ChatRequest)
| CallChatStream (req : ChatRequest)
| CallEmbed (text : jsstring)
| CallQuery (namespace : jsstring) (vector : Vector) (topK : nat)
            (filter : option (list jsstring)).

(** A computation reads the collaborators, appends to the record of the
    calls made so far, and returns or throws. *)
Definition M (A : Type) : Type :=
  Services -> list Call -> Result A * list Call.

Definition ret {A} (a : A) : M A := fun _ log => (Ok a, log).

Definition throw {A} (e : Thrown) : M A := fun _ log => (Throw e, log).

Definition bind {A B} (m : M A) (k : A -> M B) : M B :=
  fun svc log =>
    match m svc log with
    | (Ok a, log') => k a svc log'
    | (Throw e, log') => (Throw e, log')
    end.

(** [try { m } catch (error) { h error }] *)
Definition tryCatch {A} (m : M A) (h : Thrown -> M A) : M A :=
  fun svc log =>
    match m svc log with
    | (Ok a, log') => (Ok a, log')
    | (Throw e, log') => h e svc log'
    end.

Definition call {A} (c : Call) (f : Services -> Result A) : M A :=
  fun svc log => (f svc, log ++ [c]).

Notation "x <- m ;; k" := (bind m (fun x => k))
  (at level 61, m at next level, right associativity).
Notation "' pat <- m ;; k" := (bind m (fun x => match x with pat => k end))
  (at level 61, pat pattern, m at next level, right associativity).

Definition completionsCreate (req : ChatRequest) : M ChatCompletion :=
  call (CallChat req) (fun svc => chatCreate svc req).

Definition completionsCreateStream (req : ChatRequest) : M StreamedCompletion :=
  call (CallChatStream req) (fun svc => chatCreateStream svc req).

(** ** Helpers of the language *)

Definition nl : jsstring := [lf].
Definition dquote : jsstring := [Latin "034"].

(** [a || b] on strings *)
Definition orElse (a b : jsstring) : jsstring := if truthy a then a else b.

(** An index of [Array.prototype.slice] made absolute. *)
Definition relIndex (len k : Z) : Z :=
  if k <? 0 then Z.max (len + k) 0 else Z.min k len.

(** [l.slice(s, e)] *)
Definition sliceList {A} (l : list A) (s e : Z) : list A :=
  let len := Z.of_nat (length l) in
  let k := relIndex len s in
  let f := relIndex len e in
  firstn (Z.to_nat (f - k)) (skipn (Z.to_nat k) l).

(** [l.slice(s)] *)
Definition sliceFrom {A} (l : list A) (s : Z) : list A :=
  sliceList l s (Z.of_nat (length l)).

Definition MAX_RECENT : Z := 6.

Definition noTokens : Tokens := mkTokens 0 0.

(** [`${m.role === "user" ? "Human" : "AI"}: ${m.content}`], joined by
    line feeds. *)
Definition transcript (msgs : list Message) : jsstring :=
  join nl (map (fun m =>
                  (if string_eqb (role m) (str "user")
                   then str "Human" else str "AI")
                  ++ str ": " ++ content m) msgs).

(** [res.usage?.prompt_tokens ?? 0] and the like *)
Definition usageOf (res : ChatCompletion) : Tokens :=
  match cc_usage res with
  | Some u => u
  | None => noTokens
  end.

(** [res.choices[0]?.message?.content?.trim() || fallback] *)
Definition contentOr (res : ChatCompletion) (fallback : jsstring) : jsstring :=
  match cc_content res with
  | Some c => orElse (trim c) fallback
  | None => fallback
  end.

(** ** [reformulateQuery] *)

Definition reformulateRequest (question summary : jsstring)
           (recentMessages : list Message) : ChatRequest :=
  let recentStr := transcript recentMessages in
  mkChatRequest (str "gpt-4o-mini")
    [mkChatMessage (str "system")
       (str "Rewrite the user's latest message as a standalone question that can be understood WITHOUT any conversation history. Resolve all pronouns (he/she/it/they/that/this). Do NOT answer the question, only rewrite it. If it's already standalone, return it as-is. Return ONLY the rewritten question, nothing else.");
     mkChatMessage (str "user")
       (str "Conversation summary: "
        ++ orElse summary (str "No previous conversation.")
        ++ nl ++ nl ++ str "Recent messages:" ++ nl
        ++ orElse recentStr (str "No recent messages.")
        ++ nl ++ nl ++ str "User's latest message: " ++ question
        ++ nl ++ nl ++ str "Standalone question:")]
    (Some 200%nat) (Some 0%nat) false.

Definition reformulateQuery (question summary : jsstring)
           (recentMessages : list Message) : M (jsstring * Tokens) :=
  if (length recentMessages =? 0)%nat && negb (truthy summary)
  then ret (question, noTokens)
  else
    res <- completionsCreate
             (reformulateRequest question summary recentMessages) ;;
    let reformulated := contentOr res question in
    ret (reformulated, usageOf res).

(** ** [summarizeOverflow] *)

Definition summarizeRequest (existingSummary : jsstring)
           (newMessages : list Message) : ChatRequest :=
  let newStr := transcript newMessages in
  mkChatRequest (str "gpt-4o-mini")
    [mkChatMessage (str "system")
       (str "Summarize this conversation concisely. Capture key topics, facts discussed, and any conclusions. Keep it under 200 words.");
     mkChatMessage (str "user")
       (str "Previous summary: "
        ++ orElse existingSummary (str "No previous summary.")
        ++ nl ++ nl ++ str "New messages:" ++ nl ++ newStr
        ++ nl ++ nl ++ str "Updated summary:")]
    (Some 300%nat) (Some 0%nat) false.

Definition summarizeOverflow (existingSummary : jsstring)
           (newMessages : list Message) : M (jsstring * Tokens) :=
  res <- completionsCreate (summarizeRequest existingSummary newMessages) ;;
  let summary := contentOr res existingSummary in
  ret (summary, usageOf res).

(** ** The memory management of [POST] (lines 113-138) *)

Record Memory := mkMemory {
  currentSummary : jsstring;
  currentSummaryMsgCount : Z;
  summaryTokens : Tokens;
  recentMessages : list Message
}.

(** [previousMessages.slice(currentSummaryMsgCount,
                            previousMessages.length - MAX_RECENT)] *)
Definition newOverflow (previousMessages : list Message)
           (summaryMsgCount : Z) : list Message :=
  sliceList previousMessages summaryMsgCount
            (Z.of_nat (length previousMessages) - MAX_RECENT).

Definition manageMemory (previousMessages : list Message)
           (existingSummary : jsstring) (summaryMsgCount : Z) : M Memory :=
  if MAX_RECENT <? Z.of_nat (length previousMessages)
  then
    let recent := sliceFrom previousMessages (- MAX_RECENT) in
    let overflow := newOverflow previousMessages summaryMsgCount in
    if (0 <? length overflow)%nat
    then
      '(summary, tokens) <- summarizeOverflow existingSummary overflow ;;
      ret (mkMemory summary
                    (Z.of_nat (length previousMessages) - MAX_RECENT)
                    tokens recent)
    else ret (mkMemory existingSummary summaryMsgCount noTokens recent)
  else
    ret (mkMemory existingSummary summaryMsgCount noTokens previousMessages).

(** ** The grounding context of [POST] (lines 159-171) *)

(** Decimal rendering of an integer, as [String(n)] gives it. *)
Definition ofZ (n : Z) : jsstring :=
  str (NilEmpty.string_of_int (Z.to_int n)).

(** [String(v)] *)
Definition String_ (v : MetaValue) : jsstring :=
  match v with
  | MString s => s
  | MNumber n => ofZ n
  end.

(** [String(r.metadata.parentId ?? "")] *)
Definition pidOf (r : SearchResult) : jsstring :=
  match r_parentId r with
  | Some v => String_ v
  | None => str ""
  end.

(** [String(r.metadata.parentText ?? r.metadata.text ?? "")] *)
Definition pTextOf (r : SearchResult) : jsstring :=
  match r_parentText r with
  | Some v => String_ v
  | None => match r_text r with
            | Some v => String_ v
            | None => str ""
            end
  end.

(** [seenParents.has(pid)]; the set is kept as the list of its
    elements. *)
Definition has (seenParents : list jsstring) (pid : jsstring) : bool :=
  existsb (string_eqb pid) seenParents.

(** The loop [for (const r of results)]; the result is [parentTexts]. *)
Fixpoint collectParentTexts (results : list SearchResult)
         (seenParents : list jsstring) (parentTexts : list jsstring)
  : list jsstring :=
  match results with
  | [] => parentTexts
  | r :: more =>
      let pid := pidOf r in
      if truthy pid && has seenParents pid
      then collectParentTexts more seenParents parentTexts
      else
        let seenParents' :=
          if truthy pid then seenParents ++ [pid] else seenParents in
        let pText := pTextOf r in
        collectParentTexts more seenParents'
          (if truthy pText then parentTexts ++ [pText] else parentTexts)
  end.

Definition CONTEXT_DELIMITER : jsstring := nl ++ nl ++ str "---" ++ nl ++ nl.

Definition NO_CONTEXT : jsstring :=
  str "No relevant context found in the uploaded documents.".

Definition buildContext (results : list SearchResult) : jsstring :=
  let parentTexts := collectParentTexts results [] [] in
  if (0 <? length parentTexts)%nat
  then join CONTEXT_DELIMITER parentTexts
  else NO_CONTEXT.

(** ** The answer and its trailer (lines 173-243) *)

Definition answerRequest (context currentSummary : jsstring)
           (recentMessages : list Message) (question : jsstring)
  : ChatRequest :=
  let recentStr := transcript recentMessages in
  mkChatRequest (str "gpt-4o-mini")
    [mkChatMessage (str "system")
       (str "You are a knowledgeable document assistant called DocAssist. Answer questions based ONLY on the provided context from the user's uploaded documents. If the context doesn't contain enough information, say "
        ++ dquote
        ++ str "I couldn't find information about that in your documents."
        ++ dquote
        ++ str " Be conversational but accurate. Do not make things up. Format your responses with markdown when helpful.");
     mkChatMessage (str "user")
       (str "Context from uploaded documents:" ++ nl ++ str "---" ++ nl
        ++ context ++ nl ++ str "---" ++ nl ++ nl
        ++ str "Conversation summary: "
        ++ orElse currentSummary (str "No previous conversation.")
        ++ nl ++ nl ++ str "Recent messages:" ++ nl
        ++ orElse recentStr (str "None.")
        ++ nl ++ nl ++ str "Question: " ++ question)]
    None None true.

Definition USAGE_OPEN : jsstring := nl ++ nl ++ str "<!--USAGE:".
Definition SUMMARY_OPEN : jsstring := str "<!--SUMMARY:".
Definition SENTINEL_CLOSE : jsstring := str "-->".

Definition usageSentinel (J : Json) (u : TokenUsage) : jsstring :=
  USAGE_OPEN ++ stringify_usage J u ++ SENTINEL_CLOSE.

Definition summarySentinel (J : Json) (su : SummaryUpdate) : jsstring :=
  SUMMARY_OPEN ++ stringify_summary J su ++ SENTINEL_CLOSE.

(** How a stream ends: [controller.close()] or [controller.error(e)]. *)
Inductive StreamEnd :=
| Closed
| Errored (e : Thrown).

(** The loop [for await (const chunk of completion)]: the usage of the
    answer seen so far and the texts enqueued so far. *)
Fixpoint pump (chunks : list StreamChunk) (answerTokens : Tokens)
         (enqueued : list jsstring) : Tokens * list jsstring :=
  match chunks with
  | [] => (answerTokens, enqueued)
  | chunk :: more =>
      let answerTokens' :=
        match sc_usage chunk with
        | Some u => u
        | None => answerTokens
        end in
      let enqueued' :=
        match sc_delta chunk with
        | Some text => if truthy text then enqueued ++ [text] else enqueued
        | None => enqueued
        end in
      pump more answerTokens' enqueued'
  end.

Definition totalUsage (answerTokens reformTokens sumTokens : Tokens)
  : TokenUsage :=
  let totalPrompt :=
    (prompt answerTokens + prompt reformTokens + prompt sumTokens)%nat in
  let totalCompletion :=
    (completion answerTokens + completion reformTokens
     + completion sumTokens)%nat in
  mkUsage totalPrompt totalCompletion (totalPrompt + totalCompletion)%nat.

(** [start(controller)]: what is enqueued, and how the stream ends. *)
Definition streamBody (J : Json) (completion_ : StreamedCompletion)
           (reformTokens : Tokens) (mem : Memory)
  : list jsstring * StreamEnd :=
  let '(answerTokens, enqueued) := pump (st_chunks completion_) noTokens [] in
  match st_failure completion_ with
  | Some streamErr => (enqueued, Errored streamErr)
  | None =>
      let usage := totalUsage answerTokens reformTokens (summaryTokens mem) in
      let enqueued1 := enqueued ++ [usageSentinel J usage] in
      let enqueued2 :=
        if truthy (currentSummary mem)
        then enqueued1
               ++ [summarySentinel J
                     (mkSummaryUpdate (currentSummary mem)
                                      (currentSummaryMsgCount mem))]
        else enqueued1 in
      (enqueued2, Closed)
  end.

(** ** [POST] *)

(** The body of the request after the defaults of the destructuring:
    a missing [sessionId] is the empty string, a missing [summary] is
    [""], a missing [summaryMsgCount] is 0. *)
Record Body := mkBody {
  messages : option (list Message);
  sessionId : jsstring;
  selectedDocuments : option (list jsstring);
  summary : jsstring;
  summaryMsgCount : Z
}.

Inductive Response :=
| JsonError (status : nat) (error : jsstring)
| Streaming (chunks : list jsstring) (ending : StreamEnd).

(** [messages?.[messages.length - 1]] *)
Definition lastMessageOf (b : Body) : option Message :=
  match messages b with
  | Some ms => last (map Some ms) None
  | None => None
  end.

(** [error instanceof Error ? error.message : "Chat failed"] *)
Definition messageOf (error : Thrown) : jsstring :=
  match error with
  | ErrorObject m => m
  | OtherValue => str "Chat failed"
  end.

(** The [try] block of [POST]. *)
Definition answer (J : Json) (b : Body) (allMessages : list Message)
           (lastMessage : Message) : M Response :=
  let previousMessages := sliceList allMessages 0 (-1) in
  mem <- manageMemory previousMessages (summary b) (summaryMsgCount b) ;;
  '(searchQuery, reformTokens) <-
     reformulateQuery (content lastMessage) (currentSummary mem)
                      (recentMessages mem) ;;
  queryVector <- call (CallEmbed searchQuery)
                      (fun svc => embedText svc searchQuery) ;;
  let filter :=
    match selectedDocuments b with
    | Some docs => if (0 <? length docs)%nat then Some docs else None
    | None => None
    end in
  results <- call (CallQuery (sessionId b) queryVector 10 filter)
                  (fun svc => queryChunks svc (sessionId b) queryVector
                                          10%nat filter) ;;
  let context := buildContext results in
  completion_ <- completionsCreateStream
                   (answerRequest context (currentSummary mem)
                                  (recentMessages mem)
                                  (content lastMessage)) ;;
  let '(chunks, ending) := streamBody J completion_ reformTokens mem in
  ret (Streaming chunks ending).

(** What [req.json()] makes of the request: it throws ([NotJson]), or
    it gives [null] ([JsonNull]), or it gives a value whose properties
    the destructuring reads ([JsonValue]). *)
Inductive Request :=
| NotJson
| JsonNull
| JsonValue (b : Body).

(** The destructuring of the body stands between the two [try] blocks:
    on [null] it throws a [TypeError], which nothing catches, before any
    check and any call (the message is the one of V8). *)
Definition POST (J : Json) (request : Request) : M Response :=
  match request with
  | NotJson => ret (JsonError 400 (str "Invalid request body"))
  | JsonNull =>
      throw (ErrorObject
               (str "Cannot destructure property 'messages' of 'body' as it is null."))
  | JsonValue b =>
      if negb (truthy (sessionId b))
      then ret (JsonError 400 (str "Missing sessionId"))
      else fun svc =>
        if negb (apiKeySet svc)
        then ret (JsonError 500 (str "OPENAI_API_KEY not configured")) svc
        else
          match lastMessageOf b, messages b with
          | Some lastMessage, Some allMessages =>
              if negb (string_eqb (role lastMessage) (str "user"))
              then ret (JsonError 400 (str "No user message found")) svc
              else
                tryCatch (answer J b allMessages lastMessage)
                         (fun error => ret (JsonError 500 (messageOf error)))
                         svc
          | _, _ => ret (JsonError 400 (str "No user message found")) svc
          end
  end.

End Chat.

(* ================================================================== *)
(** * src/components/ChatView.tsx *)
(* ================================================================== *)

Module ChatView.

Import Chat.

(** The end of both regular expressions, [-->\s*$], tried at the head of
    [s]: the closing mark, then white space up to the end of the text. *)
Definition closesHere (s : jsstring) : bool :=
  startsWith SENTINEL_CLOSE s
  && forallb isWhitespace (skipn (length SENTINEL_CLOSE) s).

(** The lazy group [(.*?)] followed by [-->\s*$], tried at the head of
    [s]: the shortest run of characters other than line terminators
    after which the rest of the expression matches. *)
Fixpoint lazyGroup (s : jsstring) : option jsstring :=
  if closesHere s then Some []
  else
    match s with
    | [] => None
    | c :: s' =>
        if isLineTerminator c then None
        else option_map (cons c) (lazyGroup s')
    end.

(** [/<open>(.*?)-->\s*$/] tried at the head of [s]. *)
Definition matchHere (open : jsstring) (s : jsstring) : option jsstring :=
  if startsWith open s then lazyGroup (skipn (length open) s) else None.

(** [s.match(/<open>(.*?)-->\s*$/)]: the first position, from the left,
    where the expression matches; the result is [match.index] and the
    group [match[1]]. *)
Fixpoint matchSentinel (open : jsstring) (s : jsstring) (index : nat)
  : option (nat * jsstring) :=
  match matchHere open s with
  | Some group => Some (index, group)
  | None =>
      match s with
      | [] => None
      | _ :: s' => matchSentinel open s' (S index)
      end
  end.

Record Sentinels := mkSentinels {
  cleanText : jsstring;
  usage : option TokenUsage;
  summary_ : option SummaryUpdate
}.

Definition extractSentinels (J : Json) (text : jsstring) : Sentinels :=
  let '(cleanText1, summary) :=
    match matchSentinel SUMMARY_OPEN text 0 with
    | Some (index, group) => (firstn index text, parse_summary J group)
    | None => (text, None)
    end in
  let '(cleanText2, usage) :=
    match matchSentinel USAGE_OPEN cleanText1 0 with
    | Some (index, group) => (firstn index cleanText1, parse_usage J group)
    | None => (cleanText1, None)
    end in
  mkSentinels cleanText2 usage summary.

(** The text the reader loop accumulates from the chunks of the stream:
    [fullText += decoder.decode(value, { stream: true })]. *)
Definition fullText (chunks : list jsstring) : jsstring := concat chunks.

(** What the caller keeps of a conversation (unnamed/part_001,
    [Conversation]), as far as [handleSubmit] reads it or writes it
    through [onSetMessages], [onAddTokens] and [onUpdateSummary]: the
    turns, the token usage, the memory state.  The caller's
    [onSetMessages] also derives the title of the conversation from its
    first user turn; the title, like the id, the session, the documents
    and the date, is not part of this record. *)
Record Conversation := mkConversation {
  conv_messages : list Message;
  conv_tokenUsage : TokenUsage;
  conv_summary : jsstring;
  conv_summaryMsgCount : Z
}.

(** What the view shows after a submission. *)
Inductive Shown :=
| Answered
| Failed (message : jsstring)      (* [setError(msg)] of the [catch] *)
| EmptyResponse                    (* [setError("Empty response ...")] *)
| Ignored.                         (* the guard [if (!text || isLoading)] *)

(** The body that [handleSubmit] posts. *)
Definition requestOf (sessionId_ : jsstring) (selectedDocs : list jsstring)
           (c : Conversation) (text : jsstring) : Body :=
  mkBody (Some (conv_messages c ++ [mkMessage (str "user") text]))
         sessionId_ (Some selectedDocs)
         (conv_summary c) (conv_summaryMsgCount c).

(** [handleAddTokens] *)
Definition addTokens (c : Conversation) (u : TokenUsage) : Conversation :=
  mkConversation (conv_messages c)
    (mkUsage (u_prompt (conv_tokenUsage c) + u_prompt u)
             (u_completion (conv_tokenUsage c) + u_completion u)
             (u_total (conv_tokenUsage c) + u_total u))
    (conv_summary c) (conv_summaryMsgCount c).

(** [handleUpdateSummary] *)
Definition updateSummary (c : Conversation) (su : SummaryUpdate)
  : Conversation :=
  mkConversation (conv_messages c) (conv_tokenUsage c)
                 (su_text su) (su_msgCount su).

(** [handleSubmit], with [fetch("/api/chat")] as the call of [POST]:
    the conversation after the submission and what is shown.  A
    response that is not [ok], or a stream that ends in an error, leads
    to the [catch]: the error is shown and the turns are put back as
    they were. *)
Definition handleSubmit (J : Json) (sessionId_ : jsstring)
           (selectedDocs : list jsstring) (c : Conversation)
           (input : jsstring) : M (Conversation * Shown) :=
  let text := trim input in
  if negb (truthy text) then ret (c, Ignored)
  else
    let userMsg := mkMessage (str "user") text in
    res <- POST J (JsonValue (requestOf sessionId_ selectedDocs c text)) ;;
    match res with
    | JsonError status error =>
        ret (c, Failed (orElse error
                               (str "Request failed: " ++ ofNat status)))
    | Streaming chunks (Errored e) =>
        ret (c, Failed (match e with
                        | ErrorObject m => m
                        | OtherValue => str "Unknown error"
                        end))
    | Streaming chunks Closed =>
        let s := extractSentinels J (fullText chunks) in
        if negb (truthy (trim (cleanText s)))
        then ret (c, EmptyResponse)
        else
          let c1 :=
            mkConversation
              (conv_messages c
               ++ [userMsg; mkMessage (str "assistant") (cleanText s)])
              (conv_tokenUsage c) (conv_summary c) (conv_summaryMsgCount c) in
          let c2 := match usage s with
                    | Some u => addTokens c1 u
                    | None => c1
                    end in
          let c3 := match summary_ s with
                    | Some su => updateSummary c2 su
                    | None => c2
                    end in
          ret (c3, Answered)
    end.

End ChatView.

(* ================================================================== *)
(** * The ingestion path: src/lib/embeddings.ts, src/lib/pinecone.ts,
      src/lib/parsers.ts and src/app/api/upload/route.ts *)
(* ================================================================== *)

Module Upload.

Import Chat.

Open Scope nat_scope.

(** ** Values *)

(** The bytes of an uploaded file. *)
Definition Buffer := list ascii.

Record File := mkFile {
  f_name : jsstring;
  f_size : nat;
  f_buffer : Buffer
}.

(** The form of the request: [formData.get("file")] and
    [formData.get("sessionId")], [None] for [null]. *)
Record FormData := mkFormData {
  fd_file : option File;
  fd_sessionId : option jsstring
}.

Record Metadata := mkMetadata {
  md_text : jsstring;
  md_parentText : jsstring;
  md_parentId : jsstring;
  md_childIndex : nat;
  md_source : jsstring;
  md_chunkIndex : nat;
  md_docId : jsstring
}.

(** A record of the vector index; [v_values] is [embeddings[i]], which
    is [undefined] ([None]) past the end of [embeddings]. *)
Record VectorRecord := mkVectorRecord {
  v_id : jsstring;
  v_values : option Vector;
  v_metadata : Metadata
}.

(** ** The collaborators *)

(** The libraries behind the parsers, the embedding endpoint
    ([embeddings.create], read through [res.data] and [item.embedding]),
    the vector index ([index.upsert]) and the generator of identifiers. *)
Record Backend := mkBackend {
  pdfParse : Buffer -> Result jsstring;
  extractRawText : Buffer -> Result jsstring;
  readEPUB : Buffer -> Result jsstring;
  toStringUtf8 : Buffer -> jsstring;
  embeddingsCreate : list jsstring -> Result (list Vector);
  indexUpsert : jsstring -> list VectorRecord -> Result unit;
  uuidv4 : jsstring
}.

(** The calls that leave the process. *)
Inductive NetCall :=
| CallEmbeddings (input : list jsstring)
| CallUpsert (namespace : jsstring) (vectors : list VectorRecord).

(** A computation reads the collaborators, appends to the record of the
    calls made so far, and returns or throws; [None] is a loop that is
    out of fuel, which the loops of this module, advancing by 100 over
    an array, never are. *)
Definition U (A : Type) : Type :=
  Backend -> list NetCall -> option (Result A * list NetCall).

Definition pure {A} (a : A) : U A := fun _ log => Some (Ok a, log).

Definition andThen {A B} (m : U A) (k : A -> U B) : U B :=
  fun svc log =>
    match m svc log with
    | Some (Ok a, log') => k a svc log'
    | Some (Throw e, log') => Some (Throw e, log')
    | None => None
    end.

(** A call of a library of the process. *)
Definition local {A} (f : Backend -> Result A) : U A :=
  fun svc log => Some (f svc, log).

(** A call that leaves the process. *)
Definition remote {A} (c : NetCall) (f : Backend -> Result A) : U A :=
  fun svc log => Some (f svc, log ++ [c]).

(** The result of the chunker, whose [None] is the [RangeError] of
    its fixed-width loop. *)
Definition returned {A} (r : option A) : U A :=
  fun _ log =>
    match r with
    | Some a => Some (Ok a, log)
    | None => Some (Throw (ErrorObject (str "Invalid array length")), log)
    end.

Notation "x <~ m ;; k" := (andThen m (fun x => k))
  (at level 61, m at next level, right associativity).
Notation "' pat <~ m ;; k" :=
  (andThen m (fun x => match x with pat => k end))
  (at level 61, pat pattern, m at next level, right associativity).

(** [array.slice(i, j)] for [0 <= i], [0 <= j]. *)
Definition sliceArray {A} (l : list A) (i j : nat) : list A :=
  firstn (j - i) (skipn i l).

(** ** src/lib/embeddings.ts *)

Definition BATCH_SIZE : nat := 100.

(** The loop [for (let i = 0; i < texts.length; i += BATCH_SIZE)] of
    [embedTexts]; [all] is the array of the embeddings so far. *)
Fixpoint embedLoop (fuel i : nat) (texts : list jsstring)
         (all : list Vector) {struct fuel} : U (list Vector) :=
  if i <? length texts then
    match fuel with
    | O => fun _ _ => None
    | S f =>
        let batch := sliceArray texts i (i + BATCH_SIZE) in
        data <~ remote (CallEmbeddings batch)
                       (fun svc => embeddingsCreate svc batch) ;;
        embedLoop f (i + BATCH_SIZE) texts (all ++ data)
    end
  else pure all.

Definition embedTexts (texts : list jsstring) : U (list Vector) :=
  embedLoop (length texts) 0 texts [].

(** [const [embedding] = await embedTexts([text])]: [None] is
    [undefined]. *)
Definition embedText (text : jsstring) : U (option Vector) :=
  all <~ embedTexts [text] ;;
  pure (nth_error all 0).

(** ** src/lib/pinecone.ts: [upsertChunks] *)

Definition BATCH : nat := 100.

(** The loop [for (let i = 0; i < chunks.length; i += BATCH)]. *)
Fixpoint upsertLoop (fuel i : nat) (namespace : jsstring)
         (chunks : list VectorRecord) {struct fuel} : U unit :=
  if i <? length chunks then
    match fuel with
    | O => fun _ _ => None
    | S f =>
        let batch := sliceArray chunks i (i + BATCH) in
        _ <~ remote (CallUpsert namespace batch)
                    (fun svc => indexUpsert svc namespace batch) ;;
        upsertLoop f (i + BATCH) namespace chunks
    end
  else pure tt.

Definition upsertChunks (namespace : jsstring) (chunks : list VectorRecord)
  : U unit :=
  upsertLoop (length chunks) 0 namespace chunks.

(** ** src/lib/parsers.ts: [parseDocument] *)

(** [c.toLowerCase()] on a code unit: the letters A to Z and the
    capital letters of Latin-1 (192 to 222, the multiplication sign 215
    apart) move up by 32; the two separators have no case. *)
Definition lowerChar (c : codeUnit) : codeUnit :=
  match c with
  | Latin a =>
      let n := nat_of_ascii a in
      if ((65 <=? n) && (n <=? 90))
         || ((192 <=? n) && (n <=? 222) && negb (n =? 215))
      then Latin (ascii_of_nat (n + 32))
      else c
  | LS | PS => c
  end.

Definition toLowerCase (s : jsstring) : jsstring := map lowerChar s.

(** [fileName.split(".").pop()?.toLowerCase() ?? ""] *)
Definition extensionOf (fileName : jsstring) : jsstring :=
  toLowerCase (last (split fileName (str ".")) []).

Definition parseDocument (buffer : Buffer) (fileName : jsstring)
  : U jsstring :=
  let ext := extensionOf fileName in
  if string_eqb ext (str "pdf") then local (fun svc => pdfParse svc buffer)
  else if string_eqb ext (str "docx")
  then local (fun svc => extractRawText svc buffer)
  else if string_eqb ext (str "epub")
  then local (fun svc => readEPUB svc buffer)
  else if string_eqb ext (str "txt") || string_eqb ext (str "md")
  then local (fun svc => Ok (toStringUtf8 svc buffer))
  else local (fun _ => Throw (ErrorObject
                                (str "Unsupported file format: ." ++ ext))).

(** ** src/app/api/upload/route.ts *)

Inductive Response :=
| ErrorResponse (status : nat) (error : jsstring)
| Uploaded (id fileName : jsstring) (chunkCount parentCount fileSize : nat).

(** [parentMap.get(key)] for [parentMap = new Map(entries)]: the value
    of the last entry with this key. *)
Fixpoint mapGet (entries : list (jsstring * jsstring)) (key : jsstring)
  : option jsstring :=
  match entries with
  | [] => None
  | (k, v) :: more =>
      match mapGet more key with
      | Some later => Some later
      | None => if string_eqb k key then Some v else None
      end
  end.

(** [children.map((child, i) => ({ id, values, metadata }))] from
    position [i] on. *)
Fixpoint mkVectors (docId fileName : jsstring)
         (parentMap : list (jsstring * jsstring)) (embeddings : list Vector)
         (i : nat) (children : list ChildChunk) : list VectorRecord :=
  match children with
  | [] => []
  | child :: more =>
      mkVectorRecord
        (docId ++ str "-c" ++ ofNat i)
        (nth_error embeddings i)
        (mkMetadata (c_text child)
                    (match mapGet parentMap (c_parentId child) with
                     | Some parentText => parentText
                     | None => c_text child
                     end)
                    (c_parentId child) (c_childIndex child) fileName
                    (c_index child) docId)
      :: mkVectors docId fileName parentMap embeddings (S i) more
  end.

(** [error instanceof Error ? error.message : "Upload failed"] *)
Definition messageOf (error : Thrown) : jsstring :=
  match error with
  | ErrorObject m => m
  | OtherValue => str "Upload failed"
  end.

(** The [try] block of [POST] once the form is read. *)
Definition ingest (form : FormData) : U Response :=
  match fd_file form with
  | None => pure (ErrorResponse 400 (str "No file provided"))
  | Some file =>
      let sessionId :=
        match fd_sessionId form with Some s => s | None => str "" end in
      if negb (truthy sessionId)
      then pure (ErrorResponse 400 (str "No sessionId provided"))
      else
        let fileName := f_name file in
        text <~ parseDocument (f_buffer file) fileName ;;
        if negb (truthy (trim text))
        then pure (ErrorResponse 400
                     (str "Could not extract text from file"))
        else
          '(parents, children) <~
             returned (parentChildChunk text 2000 200 400 50) ;;
          let parentMap := map (fun p => (p_id p, p_text p)) parents in
          let childTexts := map c_text children in
          embeddings <~ embedTexts childTexts ;;
          docId <~ local (fun svc => Ok (uuidv4 svc)) ;;
          let vectors :=
            mkVectors docId fileName parentMap embeddings 0 children in
          _ <~ upsertChunks sessionId vectors ;;
          pure (Uploaded docId fileName (length children) (length parents)
                         (f_size file))
  end.

(** [request] is [await req.formData()], which may throw. *)
Definition POST (request : Result FormData) (svc : Backend)
           (log : list NetCall) : option (Response * list NetCall) :=
  match (form <~ local (fun _ => request) ;; ingest form) svc log with
  | Some (Ok response, log') => Some (response, log')
  | Some (Throw error, log') =>
      Some (ErrorResponse 500 (messageOf error), log')
  | None => None
  end.

End Upload.

(* ================================================================== *)
(** * src/components/UploadView.tsx *)
(* ================================================================== *)

Module UploadView.

Import Chat.

Open Scope nat_scope.

Record DocumentInfo := mkDocumentInfo {
  d_id : jsstring;
  d_name : jsstring;
  d_chunkCount : nat;
  d_fileSize : nat;
  d_selected : bool
}.

(** What [processFiles] ends with: nothing when no file is kept,
    [onUploadComplete(uploaded)], or [setError(...)]. *)
Inductive Outcome :=
| NoFile
| Reported (uploaded : list DocumentInfo)
| Refused (error : jsstring).

(** The filter of [processFiles]:
    [["pdf", "epub", "docx", "txt", "md"].includes(ext ?? "")] for
    [ext = f.name.split(".").pop()?.toLowerCase()]. *)
Definition accepted (f : Upload.File) : bool :=
  let ext :=
    Upload.toLowerCase (last (split (Upload.f_name f) (str ".")) []) in
  existsb (fun format => string_eqb format ext)
          [str "pdf"; str "epub"; str "docx"; str "txt"; str "md"].

(** The loop [for (let i = 0; i < arr.length; i++)], with
    [fetch("/api/upload")] as the call of [POST] of the upload route on
    the form of the file and the session; [None] when a loop of that
    call is out of fuel. *)
Fixpoint uploadEach (arr : list Upload.File) (sessionId : jsstring)
         (uploaded : list DocumentInfo) (svc : Upload.Backend)
         (log : list Upload.NetCall)
  : option (Outcome * list Upload.NetCall) :=
  match arr with
  | [] => Some (Reported uploaded, log)
  | file :: more =>
      match Upload.POST (Ok (Upload.mkFormData (Some file) (Some sessionId)))
                        svc log with
      | None => None
      | Some (Upload.ErrorResponse status error, log') =>
          Some (Refused (Upload.f_name file ++ str ": "
                         ++ orElse error (str "Upload failed")),
                log')
      | Some (Upload.Uploaded id fileName chunkCount parentCount fileSize,
              log') =>
          uploadEach more sessionId
                     (uploaded
                      ++ [mkDocumentInfo id fileName chunkCount fileSize true])
                     svc log'
      end
  end.

Definition processFiles (files : list Upload.File) (sessionId : jsstring)
           (svc : Upload.Backend) (log : list Upload.NetCall)
  : option (Outcome * list Upload.NetCall) :=
  let arr := filter accepted files in
  if length arr =? 0 then Some (NoFile, log)
  else uploadEach arr sessionId [] svc log.

End UploadView.

(* ================================================================== *)
(** * The vocabulary of the properties *)
(* ================================================================== *)

Open Scope nat_scope.

(** What is left of a text when only the characters selected by [keep]
    are looked at. *)
Definition charsKept (keep : codeUnit -> bool) (s : jsstring) : jsstring :=
  filter keep s.

(** Every text of the list is at most [n] characters long. *)
Definition shortAll (n : nat) (l : list jsstring) : Prop :=
  Forall (fun s => length s <= n) l.

(** What the packing loop needs of the recursive call: on a piece
    longer than the chunk size it returns, its pieces are short, and the
    characters kept are those of the piece. *)
Definition goodSplitter (keep : codeUnit -> bool) (chunkSize : nat)
           (recur : jsstring -> option (list jsstring)) : Prop :=
  forall piece, chunkSize < length piece ->
    exists sub, recur piece = Some sub
                /\ shortAll chunkSize sub
                /\ charsKept keep (concat sub) = charsKept keep piece.

(** The text of a chunk without the prefix [mergeChunks] injected into
    it: the chunk after [prev] loses the last [overlap] characters of
    [prev]'s own text and the space that follows them. *)
Fixpoint stripFrom (overlap : nat) (prev : jsstring) (chunks : list jsstring)
  : list jsstring :=
  match chunks with
  | [] => []
  | c :: more =>
      let own := skipn (Nat.min overlap (length prev) + 1) c in
      own :: stripFrom overlap own more
  end.

Definition stripOverlap (overlap : nat) (chunks : list jsstring)
  : list jsstring :=
  match chunks with
  | [] => []
  | c :: more => c :: (if 0 <? overlap then stripFrom overlap c more else more)
  end.

(** The characters of a text that are not white space. *)
Definition nonWhitespace (s : jsstring) : jsstring :=
  charsKept (fun c => negb (isWhitespace c)) s.

(** The characters of a text that are neither white space nor a full
    stop. *)
Definition keepLetter (c : codeUnit) : bool :=
  negb (isWhitespace c) && negb (char_eqb c (Latin ".")).

Definition letters (s : jsstring) : jsstring := charsKept keepLetter s.

(** The coverage property as the specification words it, at one input:
    the parents' own texts, concatenated, have the non-white-space
    characters of the text. *)
Definition coverageAt (text : jsstring)
           (parentSize parentOverlap childSize childOverlap : nat) : Prop :=
  forall parents children,
    parentChildChunk text parentSize parentOverlap childSize childOverlap
      = Some (parents, children) ->
    nonWhitespace (concat (stripOverlap parentOverlap (map p_text parents)))
    = nonWhitespace text.

(** [dropsFullStops original kept]: [kept] is [original] with some full
    stops left out, and nothing else changed. *)
Inductive dropsFullStops : jsstring -> jsstring -> Prop :=
| dfs_nil : dropsFullStops [] []
| dfs_keep c a b : dropsFullStops a b -> dropsFullStops (c :: a) (c :: b)
| dfs_drop a b : dropsFullStops a b -> dropsFullStops ((Latin ".") :: a) b.

Definition notWhitespace (c : codeUnit) : bool := negb (isWhitespace c).

(** [losesSeparators original kept]: [kept] is [original] without its
    white space and without some of the full stops that a space follows
    at once, the separator [". "]; every other character of [original]
    is in [kept], in its place. *)
Inductive losesSeparators : jsstring -> jsstring -> Prop :=
| ls_nil : losesSeparators [] []
| ls_space c a b :
    isWhitespace c = true -> losesSeparators a b -> losesSeparators (c :: a) b
| ls_keep c a b :
    isWhitespace c = false -> losesSeparators a b ->
    losesSeparators (c :: a) (c :: b)
| ls_stop a b :
    losesSeparators (Latin " " :: a) b ->
    losesSeparators (Latin "." :: Latin " " :: a) b.

(** A separator that may go as a whole. *)
Definition vanishes (sep : jsstring) : Prop := losesSeparators sep [].

(** No full stop of the text has a space after it. *)
Fixpoint noStopSpace (s : jsstring) : bool :=
  match s with
  | [] => true
  | c :: s' => negb (startsWith (str ". ") s) && noStopSpace s'
  end.

(** The size bound as the specification words it, at one input. *)
Definition sizeBoundAt (text : jsstring)
           (parentSize parentOverlap childSize childOverlap : nat) : Prop :=
  forall parents children,
    parentChildChunk text parentSize parentOverlap childSize childOverlap
      = Some (parents, children) ->
    shortAll (parentSize + parentOverlap) (map p_text parents)
    /\ shortAll (childSize + childOverlap) (map c_text children).

Definition hasChild (children : list ChildChunk) (parent : ParentChunk)
  : bool :=
  existsb (fun c => string_eqb (c_parentId c) (p_id parent)) children.

Import Chat.
Import ChatView.
Open Scope Z_scope.

(** A request is well formed for [svc] when [POST] reaches its [try]
    block on it: a session id, an API key, a last message from the
    user. *)
Definition reachesAnswer (svc : Services) (b : Body)
           (allMessages : list Message) (lastMessage : Message) : Prop :=
  truthy (sessionId b) = true
  /\ apiKeySet svc = true
  /\ messages b = Some allMessages
  /\ lastMessageOf b = Some lastMessage
  /\ string_eqb (role lastMessage) (str "user") = true.

(** The reformulation call is made unless there is neither a summary
    nor a recent turn. *)
Definition reformulationCalled (summary : jsstring) (recent : list Message)
  : Prop :=
  (length recent =? 0)%nat && negb (truthy summary) = false.

(** An output that [|| question] replaces: no content, or content that
    is empty once trimmed. *)
Definition emptyOutput (res : ChatCompletion) : Prop :=
  cc_content res = None
  \/ exists c, cc_content res = Some c /\ trim c = [].

(** C6 as the specification words it, for one collaborator and one
    input: when the reformulation call fails or gives an empty output,
    the step returns the original query. *)
Definition reformulationFallsBack (svc : Services) (question summary : jsstring)
           (recent : list Message) : Prop :=
  (forall res, chatCreate svc (reformulateRequest question summary recent)
               = Ok res -> emptyOutput res) ->
  exists tokens log,
    reformulateQuery question summary recent svc []
    = (Ok (question, tokens), log).

(** A completion service that is down: every call throws. *)
Definition serviceDown (e : Thrown) : Services :=
  mkServices true (fun _ => Throw e) (fun _ => Throw e)
             (fun _ => Ok []) (fun _ _ _ _ => Ok []).

Definition oneExchange : list Message :=
  [mkMessage (str "user") (str "Who wrote it?");
   mkMessage (str "assistant") (str "Ada Lovelace.")].

Definition followUp : Message := mkMessage (str "user") (str "When?").

Definition shortConversation : Conversation :=
  mkConversation oneExchange (mkUsage 0 0 0) (str "") 0.

Definition followUpBody : Body :=
  requestOf (str "s1") [] shortConversation (str "When?").

(** A codec for the examples: the usage as [{"prompt":p,...}] and the
    summary as [{"text":"...","msgCount":n}] (the text without
    escapes, which the examples do not need), each parsed back by
    comparison with what is printed. *)
Definition printUsage (u : TokenUsage) : jsstring :=
  str "{" ++ dquote ++ str "prompt" ++ dquote ++ str ":"
  ++ ofNat (u_prompt u)
  ++ str "," ++ dquote ++ str "completion" ++ dquote ++ str ":"
  ++ ofNat (u_completion u)
  ++ str "," ++ dquote ++ str "total" ++ dquote ++ str ":"
  ++ ofNat (u_total u) ++ str "}".

Definition printSummary (su : SummaryUpdate) : jsstring :=
  str "{" ++ dquote ++ str "text" ++ dquote ++ str ":"
  ++ dquote ++ su_text su ++ dquote
  ++ str "," ++ dquote ++ str "msgCount" ++ dquote ++ str ":"
  ++ ofZ (su_msgCount su) ++ str "}".

Definition exampleJson (u : TokenUsage) (su : SummaryUpdate) : Json :=
  mkJson printUsage printSummary
         (fun s => if string_eqb s (printUsage u) then Some u else None)
         (fun s => if string_eqb s (printSummary su) then Some su else None).

Definition someJson : Json :=
  exampleJson (mkUsage 0 0 0) (mkSummaryUpdate (str "") 0).

(** C2 as the specification words it, for one collaborator and one
    request: when the summarization call fails, the request does not
    fail: it is still answered with a stream. *)
Definition summarizationFailureTolerated (J : Json) (svc : Services)
           (b : Body) : Prop :=
  forall previous,
    messages b = Some previous ->
    (exists e, chatCreate svc
                 (summarizeRequest (summary b)
                    (newOverflow (sliceList previous 0 (-1))
                                 (summaryMsgCount b)))
               = Throw e) ->
    exists chunks ending,
      fst (POST J (JsonValue b) svc []) = Ok (Streaming chunks ending).

Definition turn (k : nat) : list Message :=
  [mkMessage (str "user") (str "question " ++ ofNat k);
   mkMessage (str "assistant") (str "answer " ++ ofNat k)].

(** A conversation of eight turns with nothing summarized, and the
    request the consumer posts for the next question. *)
Definition longConversation : Conversation :=
  mkConversation (turn 1 ++ turn 2 ++ turn 3 ++ turn 4)
                 (mkUsage 0 0 0) (str "") 0.

Definition longBody : Body :=
  requestOf (str "s1") [] longConversation (str "question 5").

(** The memory state the caller keeps and sends back. *)
Record MemoryState := mkMemoryState {
  ms_summary : jsstring;
  ms_count : Z
}.

(** One call of the memory management on the state the caller holds;
    [None] when it throws (the caller then keeps its state). *)
Definition memoryStep (svc : Services) (previous : list Message)
           (st : MemoryState) : option MemoryState :=
  match fst (manageMemory previous (ms_summary st) (ms_count st) svc []) with
  | Ok mem => Some (mkMemoryState (currentSummary mem)
                                  (currentSummaryMsgCount mem))
  | Throw _ => None
  end.

(** A conversation growing turn by turn: it starts empty with the state
    of a new conversation; turns are appended; the state returned by a
    call is the one sent with the next. *)
Inductive Threaded : list Message -> MemoryState -> Prop :=
| Threaded_start :
    Threaded [] (mkMemoryState (str "") 0)
| Threaded_grow previous more st :
    Threaded previous st -> Threaded (previous ++ more) st
| Threaded_call previous st svc st' :
    Threaded previous st ->
    memoryStep svc previous st = Some st' ->
    Threaded previous st'.

(** The turns that are out of the recent window and not yet in the
    summary: none while the prior turns fit the window, else the turns
    [newOverflow] of the code. *)
Definition overflowTurns (previous : list Message) (count : Z)
  : list Message :=
  if MAX_RECENT <? Z.of_nat (length previous)
  then newOverflow previous count
  else [].

(** The highest value the index may have for the prior turns. *)
Definition boundary (previous : list Message) : Z :=
  Z.max 0 (Z.of_nat (length previous) - MAX_RECENT).

(** C1 as the specification words it, at one point of a conversation:
    the index does not exceed the number of prior turns minus the size
    of the recent window. *)
Definition indexBoundAt (previous : list Message) (st : MemoryState) : Prop :=
  Threaded previous st ->
  ms_count st <= Z.of_nat (length previous) - MAX_RECENT.

(** The scenario of the specification: 9 prior turns, nothing
    summarized; turns 0 to 2 overflow, the last 6 are the recent window,
    and the index becomes 3. *)
Definition nine : list Message :=
  turn 1 ++ turn 2 ++ turn 3 ++ turn 4
  ++ [mkMessage (str "user") (str "question 5")].

Definition summarizer (text : jsstring) : Services :=
  mkServices true
    (fun _ => Ok (mkChatCompletion (Some text) (Some (mkTokens 40 10))))
    (fun _ => Ok (mkStreamed [] None))
    (fun _ => Ok []) (fun _ _ _ _ => Ok []).

(** The matches that win, in the words of the specification: a match is
    kept when no match before it has the same parent id. *)
Fixpoint firstPerParent (earlier results : list SearchResult)
  : list SearchResult :=
  match results with
  | [] => []
  | r :: more =>
      if existsb (fun e => string_eqb (pidOf e) (pidOf r)) earlier
      then firstPerParent (earlier ++ [r]) more
      else r :: firstPerParent (earlier ++ [r]) more
  end.

(** C5 as the specification words it, for one list of results: the
    context is made of the parent texts of the first match of each
    parent id, in their order. *)
Definition dedupAt (results : list SearchResult) : Prop :=
  collectParentTexts results [] []
  = map pTextOf (firstPerParent [] results).

Definition legacyMatch (id : string) : SearchResult :=
  mkResult (str id) 0 (Some (MString (str ""))) (Some (MString (str "A")))
           None.

Open Scope nat_scope.

Definition noLineTerminator (s : jsstring) : Prop :=
  forallb (fun c => negb (isLineTerminator c)) s = true.

Definition endsOutsideWhitespace (s : jsstring) : Prop :=
  exists s' z, s = s' ++ [z] /\ isWhitespace z = false.

Definition noAngleBracket (s : jsstring) : Prop :=
  forallb (fun c => negb (char_eqb c (Latin "<"))) s = true.

Definition sampleUsage : TokenUsage := mkUsage 120 30 150.
Definition sampleUpdate : SummaryUpdate :=
  mkSummaryUpdate (str "They talked --> about <!--SUMMARY: marks.") 3%Z.
Definition sampleAnswer : jsstring :=
  str "It was Ada." ++ nl ++ nl ++ str "<!--USAGE:" ++ nl.

(** ** Further vocabulary: numbering, calls, batches, records *)

Open Scope nat_scope.

(** The children [pushChildren] appends for one parent: the texts, each
    with its position among the children so far ([offset] on) and its
    position under the parent ([ci] on). *)
Fixpoint numbered (parentId : jsstring) (ci offset : nat)
         (texts : list jsstring) : list ChildChunk :=
  match texts with
  | [] => []
  | t :: more =>
      mkChild t offset parentId ci
      :: numbered parentId (S ci) (S offset) more
  end.

(** The runs of children of a list of parents, one run for each parent
    and its child texts. *)
Fixpoint blocksFrom (offset : nat) (ids : list jsstring)
         (blocks : list (list jsstring)) : list (list ChildChunk) :=
  match ids, blocks with
  | pid :: ids', texts :: blocks' =>
      numbered pid 0 offset texts
      :: blocksFrom (offset + length texts) ids' blocks'
  | _, _ => []
  end.

(** The children that name [parentId], in the order of the list. *)
Definition childrenWith (parentId : jsstring) (children : list ChildChunk)
  : list ChildChunk :=
  filter (fun c => string_eqb (c_parentId c) parentId) children.

Definition nonEmptyAll (l : list jsstring) : Prop :=
  Forall (fun s => truthy s = true) l.

Definition hasLetters (s : jsstring) : Prop := letters s <> [].
Open Scope Z_scope.

(** What a call throws at the collaborator; [None] when it returns. *)
Definition outcome (svc : Services) (c : Call) : option Thrown :=
  match c with
  | CallChat req =>
      match chatCreate svc req with Ok _ => None | Throw e => Some e end
  | CallChatStream req =>
      match chatCreateStream svc req with Ok _ => None | Throw e => Some e end
  | CallEmbed text =>
      match embedText svc text with Ok _ => None | Throw e => Some e end
  | CallQuery namespace vector topK filter =>
      match queryChunks svc namespace vector topK filter with
      | Ok _ => None
      | Throw e => Some e
      end
  end.

(** Every call of the list returned. *)
Definition succeeded (svc : Services) (calls : list Call) : Prop :=
  Forall (fun c => outcome svc c = None) calls.

(** The calls of a run that stopped at a call that threw [e]. *)
Definition stoppedBy (svc : Services) (calls : list Call) (e : Thrown) : Prop :=
  exists before c,
    calls = before ++ [c] /\ succeeded svc before /\ outcome svc c = Some e.

(** A computation that makes its calls one after the other, returns
    when all of them returned and rethrows what the first failing call
    throws, without a call after it. *)
Definition failFast {A} (m : M A) : Prop :=
  forall svc log,
    exists calls,
      snd (m svc log) = log ++ calls
      /\ match fst (m svc log) with
         | Ok _ => succeeded svc calls
         | Throw e => stoppedBy svc calls e
         end.

(** The filter of the search: the selected documents, when there are
    some. *)
Definition filterOf (b : Body) : option (list jsstring) :=
  match selectedDocuments b with
  | Some docs => if (0 <? length docs)%nat then Some docs else None
  | None => None
  end.

(** The call the memory management makes: one summarization when there
    are turns out of the recent window and not yet in the summary. *)
Definition summarizeCalls (previous : list Message) (summary : jsstring)
           (count : Z) : list Call :=
  match overflowTurns previous count with
  | [] => []
  | _ :: _ =>
      [CallChat (summarizeRequest summary (overflowTurns previous count))]
  end.

(** The call the reformulation makes, unless there is no history. *)
Definition reformulateCalls (question : jsstring) (mem : Memory) : list Call :=
  if (length (recentMessages mem) =? 0)%nat && negb (truthy (currentSummary mem))
  then []
  else [CallChat (reformulateRequest question (currentSummary mem)
                                     (recentMessages mem))].

(** A collaborator that answers every call: a summary or a standalone
    question, a streamed answer in two pieces, a vector, no match. *)
Definition answering : Services :=
  mkServices true
    (fun _ => Ok (mkChatCompletion (Some (str "When was it written?"))
                                   (Some (mkTokens 40 10))))
    (fun _ => Ok (mkStreamed
                    [mkStreamChunk None (Some (str "In "));
                     mkStreamChunk None (Some (str "1843."));
                     mkStreamChunk (Some (mkTokens 80 20)) None]
                    None))
    (fun _ => Ok [1; 2; 3]) (fun _ _ _ _ => Ok []).

Open Scope nat_scope.

Open Scope Z_scope.

(** The request of the follow-up question answered by [answering]: the
    calls made and what is streamed. *)
Definition followUpCalls : list Call :=
  [CallChat (reformulateRequest (str "When?") (str "") oneExchange);
   CallEmbed (str "When was it written?");
   CallQuery (str "s1") [1; 2; 3] 10 None;
   CallChatStream (answerRequest NO_CONTEXT (str "") oneExchange
                                 (str "When?"))].

Definition followUpChunks : list jsstring :=
  [str "In "; str "1843."; usageSentinel someJson (mkUsage 120 30 150)].

(** The set [seenParents] after the loop over [results]. *)
Fixpoint seenAfter (results : list SearchResult) (seenParents : list jsstring)
  : list jsstring :=
  match results with
  | [] => seenParents
  | r :: more =>
      let pid := pidOf r in
      if truthy pid && has seenParents pid
      then seenAfter more seenParents
      else seenAfter more
             (if truthy pid then seenParents ++ [pid] else seenParents)
  end.

Definition matchOf (id parentId parentText : string) : SearchResult :=
  mkResult (str id) 0 (Some (MString (str parentId)))
           (Some (MString (str parentText))) None.

Open Scope nat_scope.

(** The text ends, white space apart, with the closing mark of a
    sentinel: some suffix of it is the mark followed by white space
    only. *)
Fixpoint hasClosing (s : jsstring) : bool :=
  closesHere s
  || match s with
     | [] => false
     | _ :: s' => hasClosing s'
     end.

(** A codec that prints as [exampleJson] does and parses nothing. *)
Definition deafJson : Json :=
  mkJson printUsage printSummary (fun _ => None) (fun _ => None).

Definition followUpJson : Json :=
  exampleJson (mkUsage 120 30 150) (mkSummaryUpdate (str "") 0%Z).

Definition followUpCompletion : StreamedCompletion :=
  mkStreamed [mkStreamChunk None (Some (str "In "));
              mkStreamChunk None (Some (str "1843."));
              mkStreamChunk (Some (mkTokens 80 20)) None]
             None.

(** Batches of at most 100 elements, none empty, all full but the
    last. *)
Definition wellBatched {A} (batches : list (list A)) : Prop :=
  Forall (fun b => 1 <= length b <= 100) batches
  /\ Forall (fun b => length b = 100) (removelast batches).

(** Every embedding call on a batch of the list returned. *)
Definition embedded (svc : Upload.Backend) (batches : list (list jsstring))
  : Prop :=
  Forall (fun b => exists data, Upload.embeddingsCreate svc b = Ok data)
         batches.

(** A backend for the examples: every file is read as plain text, each
    byte as the code unit of its value; an embedding is the length of
    the text; every write succeeds. *)
Definition plainBackend : Upload.Backend :=
  Upload.mkBackend
    (fun _ => Throw OtherValue) (fun _ => Throw OtherValue)
    (fun _ => Throw OtherValue) (fun buffer => map Latin buffer)
    (fun input => Ok (map (fun t => [Z.of_nat (length t)]) input))
    (fun _ _ => Ok tt) (str "doc-1").

Definition notesFile : Upload.File :=
  Upload.mkFile (str "notes.v2.TXT") 10 (list_ascii_of_string "aaaa. bbbb").

Definition notesForm : Upload.FormData :=
  Upload.mkFormData (Some notesFile) (Some (str "s1")).

(** What a successful upload has done: the text of the file was split
    into [parents] and [children], the texts of the children were
    embedded in the batches [ebatches], and the records made of the
    children were written in the batches [ubatches]. *)
Definition ingested (svc : Upload.Backend) (form : Upload.FormData)
           (response : Upload.Response)
           (parents : list ParentChunk) (children : list ChildChunk)
           (sid : jsstring)
           (ebatches : list (list jsstring))
           (ubatches : list (list Upload.VectorRecord)) : Prop :=
  exists file text embeddings,
    Upload.fd_file form = Some file
    /\ Upload.fd_sessionId form = Some sid
    /\ (forall l, Upload.parseDocument (Upload.f_buffer file)
                                       (Upload.f_name file) svc l
                  = Some (Ok text, l))
    /\ truthy (trim text) = true
    /\ parentChildChunk text 2000 200 400 50 = Some (parents, children)
    /\ concat ebatches = map c_text children
    /\ concat ubatches
       = Upload.mkVectors (Upload.uuidv4 svc) (Upload.f_name file)
                          (map (fun p => (p_id p, p_text p)) parents)
                          embeddings 0 children
    /\ embedded svc ebatches
    /\ Forall (fun b => Upload.indexUpsert svc sid b = Ok tt) ubatches
    /\ response
       = Upload.Uploaded (Upload.uuidv4 svc) (Upload.f_name file)
                         (length children) (length parents)
                         (Upload.f_size file).

(** The calls of the ingestion: the embedding calls, then the writes. *)
Definition ingestCalls (sid : jsstring) (ebatches : list (list jsstring))
           (ubatches : list (list Upload.VectorRecord))
  : list Upload.NetCall :=
  map Upload.CallEmbeddings ebatches ++ map (Upload.CallUpsert sid) ubatches.

(** The record of a child, as [POST] of the upload route builds it. *)
Definition carriesParent (parents : list ParentChunk) (child : ChildChunk)
           (v : Upload.VectorRecord) : Prop :=
  let m := Upload.v_metadata v in
  Upload.md_text m = c_text child
  /\ Upload.md_parentId m = c_parentId child
  /\ Upload.md_childIndex m = c_childIndex child
  /\ Upload.md_chunkIndex m = c_index child
  /\ exists p, In p parents /\ p_id p = c_parentId child
               /\ Upload.md_parentText m = p_text p.

(** The formats [parseDocument] reads. *)
Definition supported (ext : jsstring) : bool :=
  string_eqb ext (str "pdf") || string_eqb ext (str "docx")
  || string_eqb ext (str "epub") || string_eqb ext (str "txt")
  || string_eqb ext (str "md").

Definition noDot (s : jsstring) : Prop :=
  forallb (fun c => negb (char_eqb (Latin ".") c)) s = true.

(** The record has a text, a parent id and a parent text that are not
    empty, within the sizes of the upload route. *)
Definition wellFormedRecord (v : Upload.VectorRecord) : Prop :=
  let m := Upload.v_metadata v in
  truthy (Upload.md_text m) = true
  /\ truthy (Upload.md_parentId m) = true
  /\ truthy (Upload.md_parentText m) = true
  /\ length (Upload.md_text m) <= 400 + 50 + 1
  /\ length (Upload.md_parentText m) <= 2000 + 200 + 1.

(** The match that the search returns for a record of the index. *)
Definition resultOf (v : Upload.VectorRecord) (score : Z) : SearchResult :=
  mkResult (Upload.v_id v) score
           (Some (MString (Upload.md_parentId (Upload.v_metadata v))))
           (Some (MString (Upload.md_parentText (Upload.v_metadata v))))
           (Some (MString (Upload.md_text (Upload.v_metadata v)))).

(** The records written by the calls of a list. *)
Definition writtenIn (calls : list Upload.NetCall) : list Upload.VectorRecord :=
  flat_map (fun c => match c with
                     | Upload.CallUpsert _ batch => batch
                     | Upload.CallEmbeddings _ => []
                     end) calls.

(** The matches of a search on records: each record with a score. *)
Definition matchesOn (found : list (Upload.VectorRecord * Z))
  : list SearchResult :=
  map (fun m => resultOf (fst m) (snd m)) found.

Definition notesRecord : Upload.VectorRecord :=
  Upload.mkVectorRecord
    (str "doc-1-c0") (Some [10%Z])
    (Upload.mkMetadata (str "aaaa. bbbb") (str "aaaa. bbbb")
                       (str "p-0") 0 (str "notes.v2.TXT") 0 (str "doc-1")).

Definition notesCalls : list Upload.NetCall :=
  [Upload.CallEmbeddings [str "aaaa. bbbb"];
   Upload.CallUpsert (str "s1") [notesRecord]].

(** The document that the view reports for a file: its name and size,
    selected. *)
Definition reports (f : Upload.File) (d : UploadView.DocumentInfo) : Prop :=
  UploadView.d_name d = Upload.f_name f
  /\ UploadView.d_fileSize d = Upload.f_size f
  /\ UploadView.d_selected d = true.

Definition formOf (f : Upload.File) (sessionId : jsstring)
  : Result Upload.FormData :=
  Ok (Upload.mkFormData (Some f) (Some sessionId)).

Definition blankFile : Upload.File :=
  Upload.mkFile (str "blank.md") 3 (list_ascii_of_string "   ").

Definition skippedFile : Upload.File :=
  Upload.mkFile (str "picture.png") 3 (list_ascii_of_string "PNG").

Open Scope nat_scope.

(** ** [JSON.stringify] on the payloads of the trailer *)

Definition backslash : codeUnit := Latin "092".

Definition hexDigit (n : nat) : codeUnit :=
  nth n (str "0123456789abcdef") (Latin "0").

(** One code unit in [QuoteJSONString]: the quotation mark, the reverse
    solidus and the control characters are escaped, the short way where
    there is one; every other code unit stands for itself, the two
    separators too. *)
Definition quoteUnit (c : codeUnit) : jsstring :=
  match c with
  | Latin a =>
      let n := nat_of_ascii a in
      if n =? 8 then [backslash; Latin "b"]
      else if n =? 9 then [backslash; Latin "t"]
      else if n =? 10 then [backslash; Latin "n"]
      else if n =? 12 then [backslash; Latin "f"]
      else if n =? 13 then [backslash; Latin "r"]
      else if n =? 34 then [backslash; c]
      else if n =? 92 then [backslash; c]
      else if n <? 32
           then [backslash; Latin "u"; Latin "0"; Latin "0";
                 hexDigit (n / 16); hexDigit (n mod 16)]
           else [c]
  | LS | PS => [c]
  end.

Definition quoteJSONString (s : jsstring) : jsstring :=
  dquote ++ flat_map quoteUnit s ++ dquote.

(** [JSON.stringify({ text, msgCount })]; [printUsage] is
    [JSON.stringify({ prompt, completion, total })]. *)
Definition stringifySummary (su : SummaryUpdate) : jsstring :=
  str "{" ++ dquote ++ str "text" ++ dquote ++ str ":"
  ++ quoteJSONString (su_text su)
  ++ str "," ++ dquote ++ str "msgCount" ++ dquote ++ str ":"
  ++ ofZ (su_msgCount su) ++ str "}".

(** The codec prints as the platform does. *)
Definition printsAsPlatform (J : Json) : Prop :=
  (forall u, stringify_usage J u = printUsage u)
  /\ (forall su, stringify_summary J su = stringifySummary su).

(** The platform's printer with a parser that inverts it on one usage
    and one memory state. *)
Definition platformJson (u : TokenUsage) (su : SummaryUpdate) : Json :=
  mkJson printUsage stringifySummary
         (fun s => if string_eqb s (printUsage u) then Some u else None)
         (fun s => if string_eqb s (stringifySummary su) then Some su
                   else None).

Definition isSeparator (c : codeUnit) : bool :=
  match c with
  | Latin _ => false
  | LS | PS => true
  end.

(** The text holds neither U+2028 nor U+2029. *)
Definition noSeparator (s : jsstring) : Prop :=
  forallb (fun c => negb (isSeparator c)) s = true.

(** A collaborator as [answering], whose summaries are [summaryText]. *)
Definition summarizing (summaryText : jsstring) : Services :=
  mkServices true
    (fun req =>
       Ok (mkChatCompletion
             (Some (match cr_max_tokens req with
                    | Some n => if n =? 300 then summaryText
                                else str "When was it written?"
                    | None => str "When was it written?"
                    end))
             (Some (mkTokens 40 10))))
    (fun _ => Ok (mkStreamed
                    [mkStreamChunk None (Some (str "In "));
                     mkStreamChunk None (Some (str "1843."));
                     mkStreamChunk (Some (mkTokens 80 20)) None]
                    None))
    (fun _ => Ok [1%Z; 2%Z; 3%Z]) (fun _ _ _ _ => Ok []).

(** A summary in two lines, the line separator U+2028 between them,
    the same with the paragraph separator U+2029, and the same with a
    space. *)
Definition separatedSummary : jsstring :=
  str "They talked about Ada." ++ [LS] ++ str "She wrote the notes.".

Definition paragraphedSummary : jsstring :=
  str "They talked about Ada." ++ [PS] ++ str "She wrote the notes.".

Definition plainSummary : jsstring :=
  str "They talked about Ada. She wrote the notes.".

Definition longUsage : TokenUsage := mkUsage 160 40 200.

(** A code unit that is neither a line terminator nor ["<"]. *)
Definition plainUnit (c : codeUnit) : bool :=
  negb (isLineTerminator c) && negb (char_eqb c (Latin "<")).

Open Scope nat_scope.


(* ================================================================== *)
(** * Facts about strings *)
(* ================================================================== *)

Open Scope nat_scope.

Section StringFacts.

Lemma char_eqb_eq (a b : codeUnit) : char_eqb a b = true <-> a = b.
Proof.
  destruct a as [x| |], b as [y| |]; simpl;
    try (split; [discriminate | congruence]); try tauto.
  rewrite Ascii.eqb_eq. split; congruence.
Qed.

Lemma char_eqb_refl (a : codeUnit) : char_eqb a a = true.
Proof. now apply char_eqb_eq. Qed.

Lemma Latin_inj (l1 l2 : list ascii) : map Latin l1 = map Latin l2 -> l1 = l2.
Proof.
  revert l2. induction l1 as [|a l1 IH]; intros [|b l2] H;
    try discriminate; [reflexivity|].
  simpl in H. injection H as Hab H. f_equal; [exact Hab | now apply IH].
Qed.

Lemma truthy_false (s : jsstring) : truthy s = false -> s = [].
Proof. destruct s; [reflexivity | discriminate]. Qed.

Lemma dropWhile_length p (s : jsstring) :
  length (dropWhile p s) <= length s.
Proof.
  induction s as [|c s IH]; simpl; [lia|].
  destruct (p c); simpl; lia.
Qed.

Lemma trim_length (s : jsstring) : length (trim s) <= length s.
Proof.
  unfold trim. rewrite length_rev.
  etransitivity; [apply dropWhile_length|].
  rewrite length_rev. apply dropWhile_length.
Qed.

Lemma filter_rev_list (f : codeUnit -> bool) (l : jsstring) :
  filter f (rev l) = rev (filter f l).
Proof.
  induction l as [|c l IH]; simpl; [reflexivity|].
  rewrite filter_app, IH. simpl.
  destruct (f c); simpl; [reflexivity | now rewrite app_nil_r].
Qed.

Lemma startsWith_app (p s : jsstring) :
  startsWith p s = true -> s = p ++ skipn (length p) s.
Proof.
  revert s. induction p as [|a p IH]; intros s H; simpl in *.
  - reflexivity.
  - destruct s as [|b s]; [discriminate|].
    apply andb_prop in H. destruct H as [Hab Hp].
    apply char_eqb_eq in Hab. subst b.
    simpl. f_equal. now apply IH.
Qed.

Lemma startsWith_length (p s : jsstring) :
  startsWith p s = true -> length p <= length s.
Proof.
  intros H. rewrite (startsWith_app _ _ H), length_app. lia.
Qed.

Lemma startsWith_self_app (p s : jsstring) : startsWith p (p ++ s) = true.
Proof.
  induction p as [|a p IH]; simpl; [reflexivity|].
  now rewrite char_eqb_refl.
Qed.

(** Agreement of a recognised prefix with the text, position by
    position. *)
Lemma startsWith_nth (p s : jsstring) (d : codeUnit) (k : nat) :
  startsWith p s = true -> k < length p -> nth k s d = nth k p d.
Proof.
  intros H Hk. rewrite (startsWith_app _ _ H).
  now rewrite app_nth1.
Qed.

Lemma splitFrom_nonempty sep skip cur (s : jsstring) :
  splitFrom sep skip cur s <> [].
Proof.
  revert skip cur. induction s as [|c s IH]; intros skip cur; simpl.
  - discriminate.
  - destruct skip; [|apply IH].
    destruct (startsWith sep (c :: s)); [discriminate | apply IH].
Qed.

Lemma join_cons sep (p : jsstring) rest :
  rest <> [] -> join sep (p :: rest) = p ++ sep ++ join sep rest.
Proof. destruct rest; [congruence | reflexivity]. Qed.

(** Joining the pieces of [split] with the separator gives the text
    back. *)
Lemma splitFrom_join sep (s : jsstring) :
  sep <> [] ->
  forall skip cur, skip <= length s ->
    join sep (splitFrom sep skip cur s) = cur ++ skipn skip s.
Proof.
  intros Hsep. induction s as [|c s IH]; intros skip cur Hskip; simpl in *.
  - assert (skip = 0) by lia. subst. simpl. now rewrite app_nil_r.
  - destruct skip as [|k].
    + destruct (startsWith sep (c :: s)) eqn:Hst.
      * rewrite join_cons by apply splitFrom_nonempty.
        pose proof (startsWith_length _ _ Hst) as Hlen. simpl in Hlen.
        rewrite IH by lia. simpl. f_equal.
        pose proof (startsWith_app _ _ Hst) as E.
        destruct sep as [|a sep']; [congruence|].
        simpl in *. rewrite Nat.sub_0_r. symmetry. exact E.
      * rewrite IH by lia. simpl. now rewrite <- app_assoc.
    + rewrite IH by lia. reflexivity.
Qed.

Lemma ofNat_inj (n m : nat) : ofNat n = ofNat m -> n = m.
Proof.
  unfold ofNat, str. intros H. apply Latin_inj in H.
  apply (f_equal string_of_list_ascii) in H.
  rewrite !string_of_list_ascii_of_string in H.
  apply (f_equal NilEmpty.uint_of_string) in H.
  rewrite !NilEmpty.usu in H. injection H as H.
  apply (f_equal Nat.of_uint) in H.
  now rewrite !DecimalNat.Unsigned.of_to in H.
Qed.

Lemma split_join (text sep : jsstring) :
  sep <> [] -> join sep (split text sep) = text.
Proof.
  intros H. unfold split. now rewrite splitFrom_join by (auto; lia).
Qed.

End StringFacts.

(** ** What a filter on characters sees of a text *)

Section Content.

(** [keep] selects the characters that are followed through the chunker;
    it never selects white space. *)
Variable keep : codeUnit -> bool.
Hypothesis keep_ws : forall c, isWhitespace c = true -> keep c = false.

Local Abbreviation kept := (charsKept keep).

Lemma charsKept_app a b : kept (a ++ b) = kept a ++ kept b.
Proof. apply filter_app. Qed.

Lemma charsKept_dropWhile s : kept (dropWhile isWhitespace s) = kept s.
Proof.
  induction s as [|c s IH]; simpl; [reflexivity|].
  destruct (isWhitespace c) eqn:Hc; [|reflexivity].
  now rewrite (keep_ws _ Hc).
Qed.

Lemma charsKept_trim s : kept (trim s) = kept s.
Proof.
  unfold trim, charsKept.
  rewrite filter_rev_list. fold (charsKept keep (dropWhile isWhitespace (rev (dropWhile isWhitespace s)))).
  rewrite charsKept_dropWhile. unfold charsKept.
  rewrite filter_rev_list, rev_involutive.
  apply charsKept_dropWhile.
Qed.

Lemma charsKept_space : kept (str " ") = [].
Proof. unfold charsKept, str. simpl. now rewrite keep_ws. Qed.

Lemma charsKept_join sep pieces :
  kept sep = [] -> kept (join sep pieces) = kept (concat pieces).
Proof.
  intros Hsep. induction pieces as [|p rest IH]; [reflexivity|].
  destruct rest as [|q rest].
  - simpl. now rewrite app_nil_r.
  - rewrite join_cons by discriminate.
    change (concat (p :: q :: rest)) with (p ++ concat (q :: rest)).
    rewrite !charsKept_app, Hsep, IH. reflexivity.
Qed.

End Content.

(* ================================================================== *)
(** * The chunker: termination, size of the pieces, characters kept *)
(* ================================================================== *)

Lemma shortAll_app n a b : shortAll n a -> shortAll n b -> shortAll n (a ++ b).
Proof. intros; apply Forall_app; auto. Qed.

Section ChunkerFacts.

Variable keep : codeUnit -> bool.
Hypothesis keep_ws : forall c, isWhitespace c = true -> keep c = false.

Local Abbreviation cont := (charsKept keep).

Ltac flatten_kept :=
  repeat rewrite charsKept_app; repeat rewrite <- app_assoc; simpl;
  repeat rewrite app_nil_r.

(** *** The fixed-width loop *)

Lemma fixedWidthLoop_spec (text : jsstring) (chunkSize : nat) :
  0 < chunkSize ->
  forall fuel i parts,
    length text - i <= fuel ->
    exists more,
      fixedWidthLoop fuel i text chunkSize parts = Some (parts ++ more)
      /\ shortAll chunkSize more
      /\ concat more = skipn i text.
Proof.
  intros Hpos. induction fuel as [|f IH]; intros i parts Hfuel.
  - exists []. simpl. destruct (i <? length text) eqn:Hi.
    + apply Nat.ltb_lt in Hi. lia.
    + apply Nat.ltb_ge in Hi. rewrite app_nil_r.
      repeat split; [constructor|]. now rewrite skipn_all2.
  - simpl. destruct (i <? length text) eqn:Hi.
    + apply Nat.ltb_lt in Hi.
      destruct (IH (i + chunkSize) (parts ++ [slice text i (i + chunkSize)]))
        as (more & Hrun & Hshort & Hcat); [lia|].
      exists (slice text i (i + chunkSize) :: more).
      rewrite Hrun, <- app_assoc. simpl. repeat split.
      * constructor; [|exact Hshort].
        unfold slice. rewrite length_firstn. lia.
      * rewrite Hcat. unfold slice.
        replace (i + chunkSize - i) with chunkSize by lia.
        rewrite Nat.add_comm, <- skipn_skipn.
        apply firstn_skipn.
    + apply Nat.ltb_ge in Hi. exists []. rewrite app_nil_r.
      repeat split; [constructor|]. now rewrite skipn_all2.
Qed.

Lemma fixedWidth_spec (text : jsstring) (chunkSize : nat) :
  0 < chunkSize ->
  exists parts,
    fixedWidth text chunkSize = Some parts
    /\ shortAll chunkSize parts /\ concat parts = text.
Proof.
  intros Hpos. unfold fixedWidth.
  destruct (fixedWidthLoop_spec text chunkSize Hpos (length text) 0 [])
    as (more & Hrun & Hshort & Hcat); [lia|].
  exists more. simpl in *. auto.
Qed.

(** *** The packing loop *)

Lemma packPieces_spec recur sep chunkSize :
  goodSplitter keep chunkSize recur ->
  cont sep = [] ->
  forall pieces results current,
    shortAll chunkSize results ->
    length current <= chunkSize ->
    exists results' current',
      packPieces recur sep chunkSize pieces results current
        = Some (results', current')
      /\ shortAll chunkSize results'
      /\ length current' <= chunkSize
      /\ cont (concat results' ++ current')
         = cont (concat results ++ current ++ concat pieces).
Proof.
  intros Hrec Hsep.
  induction pieces as [|piece more IH]; intros results current Hres Hcur.
  - exists results, current. simpl. rewrite app_nil_r. auto.
  - simpl.
    set (candidate := if truthy current then current ++ sep ++ piece else piece).
    assert (Hcand : cont candidate = cont current ++ cont piece).
    { unfold candidate. destruct (truthy current) eqn:Ht.
      - rewrite !charsKept_app, Hsep. reflexivity.
      - apply truthy_false in Ht. subst. reflexivity. }
    destruct (length candidate <=? chunkSize) eqn:Hfit.
    + apply Nat.leb_le in Hfit.
      destruct (IH results candidate Hres Hfit)
        as (r' & c' & Hrun & Hr' & Hc' & Hcont).
      exists r', c'. repeat split; auto.
      rewrite Hcont. flatten_kept. rewrite Hcand. now flatten_kept.
    + set (results1 := if truthy current then results ++ [current] else results).
      assert (Hr1 : shortAll chunkSize results1).
      { unfold results1. destruct (truthy current); auto.
        apply shortAll_app; auto. constructor; auto. }
      assert (Hc1 : cont (concat results1)
                    = cont (concat results) ++ cont current).
      { unfold results1. destruct (truthy current) eqn:Ht.
        - rewrite concat_app, charsKept_app. simpl. now rewrite app_nil_r.
        - apply truthy_false in Ht. subst. simpl. now rewrite app_nil_r. }
      destruct (chunkSize <? length piece) eqn:Hbig.
      * apply Nat.ltb_lt in Hbig.
        destruct (Hrec piece Hbig) as (sub & Hsub & Hshort & Hsubc).
        rewrite Hsub.
        destruct (IH (results1 ++ sub) []) as (r' & c' & Hrun & Hr' & Hc' & Hcont);
          [apply shortAll_app; auto | simpl; lia |].
        exists r', c'. repeat split; auto.
        rewrite Hcont, concat_app. flatten_kept.
        rewrite Hc1, Hsubc. now flatten_kept.
      * apply Nat.ltb_ge in Hbig.
        destruct (IH results1 piece Hr1 Hbig)
          as (r' & c' & Hrun & Hr' & Hc' & Hcont).
        exists r', c'. repeat split; auto.
        rewrite Hcont. flatten_kept.
        rewrite Hc1. now flatten_kept.
Qed.

(** *** [splitRecursive] *)

Lemma splitRecursive_cons text sep rest chunkSize :
  splitRecursive text (sep :: rest) chunkSize =
  if length text <=? chunkSize then Some [text]
  else
    match packPieces (fun piece => splitRecursive piece rest chunkSize)
            sep chunkSize
            (if string_eqb sep (str "") then [text] else split text sep)
            [] [] with
    | None => None
    | Some (results, current) =>
        Some (if truthy current then results ++ [current] else results)
    end.
Proof. reflexivity. Qed.

Lemma splitRecursive_spec (chunkSize : nat) :
  0 < chunkSize ->
  forall separators,
    Forall (fun sep => cont sep = []) separators ->
    forall text,
    exists pieces,
      splitRecursive text separators chunkSize = Some pieces
      /\ shortAll chunkSize pieces
      /\ cont (concat pieces) = cont text.
Proof.
  intros Hpos.
  induction separators as [|sep rest IH]; intros Hseps text.
  - simpl. destruct (length text <=? chunkSize) eqn:Hlen.
    + apply Nat.leb_le in Hlen. exists [text]. simpl.
      rewrite app_nil_r. repeat split; auto. constructor; auto.
    + destruct (fixedWidth_spec text chunkSize Hpos) as (parts & Hrun & Hshort & Hcat).
      exists parts. rewrite Hcat. auto.
  - inversion Hseps as [|? ? Hsep Hrest]; subst.
    rewrite splitRecursive_cons.
    destruct (length text <=? chunkSize) eqn:Hlen.
    + apply Nat.leb_le in Hlen. exists [text]. simpl.
      rewrite app_nil_r. repeat split; auto. constructor; auto.
    + set (splits := if string_eqb sep (str "") then [text] else split text sep).
      assert (Hsplits : cont (concat splits) = cont text).
      { unfold splits. destruct sep as [|a sep'].
        - simpl. now rewrite app_nil_r.
        - simpl. rewrite <- (charsKept_join keep _ _ Hsep).
          now rewrite split_join by discriminate. }
      assert (Hgood : goodSplitter keep chunkSize
                        (fun piece => splitRecursive piece rest chunkSize)).
      { intros piece _. apply IH. exact Hrest. }
      destruct (packPieces_spec _ sep chunkSize Hgood Hsep splits [] [])
        as (r' & c' & Hrun & Hr' & Hc' & Hcont);
        [constructor | simpl; lia |].
      rewrite Hrun. simpl in Hcont.
      exists (if truthy c' then r' ++ [c'] else r'). repeat split.
      * destruct (truthy c'); auto.
        apply shortAll_app; auto. constructor; auto.
      * rewrite <- Hsplits, <- Hcont.
        destruct (truthy c') eqn:Ht.
        -- rewrite concat_app. simpl. now rewrite app_nil_r.
        -- apply truthy_false in Ht. subst. now rewrite app_nil_r.
Qed.

(** *** [mergeChunks] *)

Lemma pushIfTruthy_concat chunk : concat (pushIfTruthy chunk) = chunk.
Proof.
  unfold pushIfTruthy. destruct chunk; simpl; [reflexivity|].
  now rewrite app_nil_r.
Qed.

Lemma pushIfTruthy_short n chunk :
  length chunk <= n -> shortAll n (pushIfTruthy chunk).
Proof.
  intros H. unfold pushIfTruthy. destruct (truthy chunk); constructor; auto.
Qed.

Lemma mergeFrom_cons chunk next rest chunkSize :
  mergeFrom chunk (next :: rest) chunkSize =
  if length chunk + length next + 1 <=? chunkSize
  then mergeFrom (chunk ++ str " " ++ trim next) rest chunkSize
  else pushIfTruthy chunk ++ mergeFrom (trim next) rest chunkSize.
Proof. reflexivity. Qed.

Lemma mergeFrom_spec (chunkSize : nat) :
  forall rest chunk,
    length chunk <= chunkSize ->
    shortAll chunkSize rest ->
    shortAll chunkSize (mergeFrom chunk rest chunkSize)
    /\ cont (concat (mergeFrom chunk rest chunkSize))
       = cont chunk ++ cont (concat rest).
Proof.
  induction rest as [|next rest IH]; intros chunk Hchunk Hrest.
  - simpl. split; [now apply pushIfTruthy_short|].
    now rewrite pushIfTruthy_concat, app_nil_r.
  - inversion Hrest as [|? ? Hnext Hrest']; subst.
    pose proof (trim_length next) as Htrim.
    rewrite mergeFrom_cons.
    change (concat (next :: rest)) with (next ++ concat rest).
    destruct (length chunk + length next + 1 <=? chunkSize) eqn:Hfit.
    + apply Nat.leb_le in Hfit.
      destruct (IH (chunk ++ str " " ++ trim next)) as [Hs Hc]; auto.
      { rewrite !length_app. unfold str. simpl. lia. }
      split; [exact Hs|].
      rewrite Hc, !charsKept_app, (charsKept_space keep keep_ws),
        (charsKept_trim keep keep_ws).
      simpl. now rewrite <- app_assoc.
    + destruct (IH (trim next)) as [Hs Hc]; auto; [lia|].
      split.
      * apply shortAll_app; auto. now apply pushIfTruthy_short.
      * rewrite concat_app, charsKept_app, pushIfTruthy_concat, Hc.
        now rewrite (charsKept_trim keep keep_ws), charsKept_app.
Qed.

Lemma mergeCore_spec (splits : list jsstring) (chunkSize : nat) :
  shortAll chunkSize splits ->
  shortAll chunkSize (mergeCore splits chunkSize)
  /\ cont (concat (mergeCore splits chunkSize)) = cont (concat splits).
Proof.
  intros H. destruct splits as [|s rest]; simpl.
  - split; [constructor | reflexivity].
  - inversion H; subst.
    destruct (mergeFrom_spec chunkSize rest (trim s)) as [Hs Hc]; auto.
    { pose proof (trim_length s). lia. }
    split; [exact Hs|].
    now rewrite Hc, (charsKept_trim keep keep_ws), charsKept_app.
Qed.

End ChunkerFacts.

(** ** The overlap *)

Lemma sliceLast_length (s : jsstring) (n : nat) :
  length (sliceLast s n) = Nat.min n (length s).
Proof. unfold sliceLast. rewrite length_skipn. lia. Qed.

Lemma stripFrom_addOverlap overlap :
  forall rest prev, stripFrom overlap prev (addOverlap overlap prev rest) = rest.
Proof.
  induction rest as [|r rest IH]; intros prev;
    cbn [addOverlap stripFrom]; [reflexivity|].
  assert (E : skipn (Nat.min overlap (length prev) + 1)
                    (sliceLast prev overlap ++ str " " ++ r) = r).
  { rewrite skipn_app, sliceLast_length.
    rewrite skipn_all2 by (rewrite sliceLast_length; lia).
    replace (Nat.min overlap (length prev) + 1
             - Nat.min overlap (length prev)) with 1 by lia.
    reflexivity. }
  rewrite E, IH. reflexivity.
Qed.

Lemma addOverlap_short overlap chunkSize :
  forall rest prev,
    shortAll chunkSize rest ->
    shortAll (chunkSize + overlap + 1) (addOverlap overlap prev rest).
Proof.
  induction rest as [|r rest IH]; intros prev H; simpl; [constructor|].
  inversion H; subst. constructor; [|now apply IH].
  rewrite !length_app, sliceLast_length. unfold str. simpl. lia.
Qed.

(** [mergeChunks] injects the overlap into the chunks of [mergeCore]:
    the early return for at most one split gives the same list. *)
Lemma mergeChunks_core splits chunkSize overlap :
  mergeChunks splits chunkSize overlap =
  let result := mergeCore splits chunkSize in
  if (0 <? overlap) && (1 <? length result)
  then match result with
       | [] => []
       | r0 :: rest => r0 :: addOverlap overlap r0 rest
       end
  else result.
Proof.
  unfold mergeChunks.
  destruct splits as [|s [|s' more]]; try reflexivity.
  - simpl. now rewrite andb_false_r.
  - simpl. unfold pushIfTruthy.
    destruct (truthy (trim s)); simpl; now rewrite andb_false_r.
Qed.

Lemma stripOverlap_mergeChunks splits chunkSize overlap :
  stripOverlap overlap (mergeChunks splits chunkSize overlap)
  = mergeCore splits chunkSize.
Proof.
  rewrite mergeChunks_core. cbv zeta.
  destruct (mergeCore splits chunkSize) as [|r0 rest] eqn:E.
  - now rewrite andb_false_r.
  - destruct (0 <? overlap) eqn:Ho; simpl.
    + destruct rest as [|r1 rest']; simpl; [now rewrite Ho|].
      rewrite Ho. f_equal.
      apply (stripFrom_addOverlap overlap (r1 :: rest') r0).
    + now rewrite Ho.
Qed.

Lemma shortAll_weaken n m l : n <= m -> shortAll n l -> shortAll m l.
Proof.
  intros Hnm H. eapply Forall_impl; [|exact H]. simpl. intros; lia.
Qed.

Section SplitAndMerge.

Variable keep : codeUnit -> bool.
Hypothesis keep_ws : forall c, isWhitespace c = true -> keep c = false.
Hypothesis keep_seps : Forall (fun sep => charsKept keep sep = []) SEPARATORS.

Lemma mergeChunks_short splits chunkSize overlap :
  shortAll chunkSize splits ->
  shortAll (chunkSize + overlap + 1) (mergeChunks splits chunkSize overlap).
Proof.
  intros H. rewrite mergeChunks_core. cbv zeta.
  destruct (mergeCore_spec keep keep_ws splits chunkSize H) as [Hs _].
  destruct ((0 <? overlap) && (1 <? length (mergeCore splits chunkSize))).
  - destruct (mergeCore splits chunkSize) as [|r0 rest]; [constructor|].
    inversion Hs; subst. constructor; [lia|].
    now apply addOverlap_short.
  - eapply shortAll_weaken; [|exact Hs]. lia.
Qed.

(** [splitAndMerge] returns for every positive chunk size; its chunks
    are at most [chunkSize + overlap + 1] long; without the injected
    prefixes, the followed characters are those of the text. *)
Lemma splitAndMerge_spec text chunkSize overlap :
  0 < chunkSize ->
  exists chunks,
    splitAndMerge text chunkSize overlap = Some chunks
    /\ shortAll (chunkSize + overlap + 1) chunks
    /\ charsKept keep (concat (stripOverlap overlap chunks)) = charsKept keep text.
Proof.
  intros Hpos. unfold splitAndMerge.
  destruct (splitRecursive_spec keep chunkSize Hpos SEPARATORS keep_seps text)
    as (raw & Hrun & Hshort & Hcont).
  rewrite Hrun. eexists; split; [reflexivity|]. split.
  - now apply mergeChunks_short.
  - rewrite stripOverlap_mergeChunks.
    destruct (mergeCore_spec keep keep_ws raw chunkSize Hshort) as [_ Hc].
    now rewrite Hc.
Qed.

End SplitAndMerge.

Lemma splitAndMerge_short text chunkSize overlap :
  0 < chunkSize ->
  exists chunks,
    splitAndMerge text chunkSize overlap = Some chunks
    /\ shortAll (chunkSize + overlap + 1) chunks.
Proof.
  intros Hpos.
  assert (Hseps : Forall (fun sep => charsKept (fun _ => false) sep = [])
                         SEPARATORS) by (repeat constructor).
  destruct (splitAndMerge_spec (fun _ => false) (fun _ _ => eq_refl) Hseps
              text chunkSize overlap Hpos) as (chunks & Hrun & Hshort & _).
  exists chunks. auto.
Qed.

(** ** Parents and children *)

Lemma mkParents_texts texts : forall i, map p_text (mkParents i texts) = texts.
Proof.
  induction texts as [|t more IH]; intros i; simpl; [reflexivity|].
  now rewrite IH.
Qed.

Lemma pushChildren_texts parentId :
  forall texts ci children,
    map c_text (pushChildren parentId ci texts children)
    = map c_text children ++ texts.
Proof.
  induction texts as [|t more IH]; intros ci children; simpl.
  - now rewrite app_nil_r.
  - rewrite IH, map_app, <- app_assoc. reflexivity.
Qed.

Lemma childrenOf_spec childSize childOverlap :
  0 < childSize ->
  forall parents children,
    shortAll (childSize + childOverlap + 1) (map c_text children) ->
    exists out,
      childrenOf parents childSize childOverlap children = Some out
      /\ shortAll (childSize + childOverlap + 1) (map c_text out).
Proof.
  intros Hpos. induction parents as [|parent more IH]; intros children H.
  - exists children. auto.
  - simpl.
    destruct (splitAndMerge_short (p_text parent) childSize childOverlap Hpos)
      as (texts & Hrun & Hshort).
    rewrite Hrun. apply IH.
    rewrite pushChildren_texts. now apply shortAll_app.
Qed.

(* ================================================================== *)
(** * Properties of the chunker *)
(* ================================================================== *)

Lemma keepLetter_ws c : isWhitespace c = true -> keepLetter c = false.
Proof. unfold keepLetter. now intros ->. Qed.

Lemma keepLetter_separators :
  Forall (fun sep => charsKept keepLetter sep = []) SEPARATORS.
Proof. repeat constructor. Qed.

(** ** Coverage (C3) *)

(** C3, as stated, fails: the chunker is run on ["aaaa. bbbb"] with chunk
    size 5 and overlap 2.  The text is split at [". "] into ["aaaa"] and
    ["bbbb"], which do not fit one chunk together; the separator between
    them is dropped, and with it the full stop. *)
Lemma coverage_loses_full_stop :
  parentChildChunk (str "aaaa. bbbb") 5 2 5 2
  = Some ([mkParent (str "p-0") (str "aaaa") 0;
           mkParent (str "p-1") (str "aa bbbb") 1],
          [mkChild (str "aaaa") 0 (str "p-0") 0;
           mkChild (str "aa") 1 (str "p-1") 0;
           mkChild (str "aa bbbb") 2 (str "p-1") 1])
  /\ stripOverlap 2 [str "aaaa"; str "aa bbbb"] = [str "aaaa"; str "bbbb"]
  /\ nonWhitespace (str "aaaa. bbbb") = str "aaaa.bbbb"
  /\ ~ coverageAt (str "aaaa. bbbb") 5 2 5 2.
Proof.
  repeat split; try reflexivity.
  intros H. specialize (H _ _ eq_refl). vm_compute in H. discriminate.
Qed.

(** ** Coverage, with the full stops (C3) *)

Lemma dfs_refl (s : jsstring) : dropsFullStops s s.
Proof. induction s; constructor; auto. Qed.

Lemma dfs_app a b a' b' :
  dropsFullStops a b -> dropsFullStops a' b' ->
  dropsFullStops (a ++ a') (b ++ b').
Proof. induction 1; intros H'; simpl; try constructor; auto. Qed.

Lemma notWhitespace_ws c : isWhitespace c = true -> notWhitespace c = false.
Proof. unfold notWhitespace. now intros ->. Qed.

Lemma nonWhitespace_app a b :
  nonWhitespace (a ++ b) = nonWhitespace a ++ nonWhitespace b.
Proof. apply charsKept_app. Qed.

Lemma nonWhitespace_cons c s :
  nonWhitespace (c :: s)
  = if isWhitespace c then nonWhitespace s else c :: nonWhitespace s.
Proof. unfold nonWhitespace, charsKept. simpl. now destruct (isWhitespace c). Qed.

Lemma ls_refl (s : jsstring) : losesSeparators s (nonWhitespace s).
Proof.
  induction s as [|c s IH]; [constructor|].
  rewrite nonWhitespace_cons. destruct (isWhitespace c) eqn:Hc.
  - now apply ls_space.
  - now apply ls_keep.
Qed.

Lemma ls_app a b a' b' :
  losesSeparators a b -> losesSeparators a' b' ->
  losesSeparators (a ++ a') (b ++ b').
Proof.
  induction 1; intros H'; simpl.
  - exact H'.
  - apply ls_space; auto.
  - apply ls_keep; auto.
  - apply ls_stop. now apply IHlosesSeparators.
Qed.

Lemma ls_dfs a b :
  losesSeparators a b -> dropsFullStops (nonWhitespace a) b.
Proof.
  induction 1.
  - constructor.
  - rewrite nonWhitespace_cons, H. exact IHlosesSeparators.
  - rewrite nonWhitespace_cons, H. now constructor.
  - rewrite nonWhitespace_cons. change (isWhitespace (Latin ".")) with false.
    cbv iota. now constructor.
Qed.

Lemma ls_exact a b :
  noStopSpace a = true -> losesSeparators a b -> b = nonWhitespace a.
Proof.
  intros Hno H. induction H.
  - reflexivity.
  - rewrite nonWhitespace_cons, H. apply IHlosesSeparators.
    simpl in Hno. now apply andb_prop in Hno.
  - rewrite nonWhitespace_cons, H. f_equal. apply IHlosesSeparators.
    simpl in Hno. now apply andb_prop in Hno.
  - discriminate.
Qed.

Lemma vanishes_separators : Forall vanishes SEPARATORS.
Proof.
  unfold vanishes.
  repeat apply Forall_cons; try apply Forall_nil;
    repeat first [ apply ls_nil
                 | apply ls_stop
                 | apply ls_space; [reflexivity|] ].
Qed.

Lemma ls_around_separator sep orig piece kept keptPiece :
  vanishes sep ->
  losesSeparators orig kept ->
  losesSeparators piece keptPiece ->
  losesSeparators (orig ++ sep ++ piece) (kept ++ keptPiece).
Proof.
  intros Hsep Ho Hp. apply ls_app; [exact Ho|].
  change keptPiece with ([] ++ keptPiece). now apply ls_app.
Qed.

Lemma join_glue sep (p : jsstring) rest :
  join sep (p :: rest) = p ++ concat (map (app sep) rest).
Proof.
  revert p. induction rest as [|q rest IH]; intros p.
  - simpl. now rewrite app_nil_r.
  - rewrite join_cons by discriminate. rewrite IH. simpl.
    now rewrite <- app_assoc.
Qed.

Lemma fixedWidth_concat text chunkSize parts :
  fixedWidth text chunkSize = Some parts -> concat parts = text.
Proof.
  destruct chunkSize as [|n].
  - unfold fixedWidth. destruct text as [|c text]; simpl.
    + intros H. injection H as <-. reflexivity.
    + assert (H : forall fuel parts0,
                 fixedWidthLoop fuel 0 (c :: text) 0 parts0 = None).
      { induction fuel as [|f IH]; intros parts0; simpl; auto. }
      rewrite H. discriminate.
  - intros H.
    destruct (fixedWidth_spec text (S n)) as (parts' & Hrun & _ & Hcat); [lia|].
    congruence.
Qed.

Section Separators.

Variable chunkSize : nat.
Variable recur : jsstring -> option (list jsstring).
Hypothesis recur_loses :
  forall piece sub, recur piece = Some sub ->
    losesSeparators piece (nonWhitespace (concat sub)).

Lemma packPieces_loses sep :
  vanishes sep ->
  forall pieces results current orig out,
    losesSeparators orig (nonWhitespace (concat results ++ current)) ->
    packPieces recur sep chunkSize pieces results current = Some out ->
    losesSeparators
      (orig ++ concat (map (app sep) pieces))
      (nonWhitespace (concat (fst out) ++ snd out)).
Proof.
  intros Hsep.
  induction pieces as [|piece more IH]; intros results current orig out Hinv Hrun.
  - simpl in Hrun. injection Hrun as <-. simpl. now rewrite app_nil_r.
  - cbn [packPieces] in Hrun.
    replace (orig ++ concat (map (app sep) (piece :: more)))
      with ((orig ++ sep ++ piece) ++ concat (map (app sep) more))
      by (simpl; now rewrite <- !app_assoc).
    destruct (length (if truthy current then current ++ sep ++ piece else piece)
              <=? chunkSize).
    + apply (IH results
                (if truthy current then current ++ sep ++ piece else piece));
        [|exact Hrun].
      destruct (truthy current) eqn:Ht.
      * rewrite (app_assoc (concat results)), nonWhitespace_app.
        apply ls_app; [exact Hinv | apply ls_refl].
      * apply truthy_false in Ht. subst current.
        rewrite app_nil_r in Hinv.
        rewrite (nonWhitespace_app (concat results)).
        apply (ls_around_separator sep orig piece _ _ Hsep Hinv).
        apply ls_refl.
    + assert (Hres1 : concat (if truthy current then results ++ [current]
                              else results)
                      = concat results ++ current).
      { destruct (truthy current) eqn:Ht.
        - rewrite concat_app. simpl. now rewrite app_nil_r.
        - apply truthy_false in Ht. subst. now rewrite app_nil_r. }
      destruct (chunkSize <? length piece).
      * destruct (recur piece) as [sub|] eqn:Hsub; [|discriminate].
        apply (IH ((if truthy current then results ++ [current] else results)
                   ++ sub) [] (orig ++ sep ++ piece) out); [|exact Hrun].
        rewrite app_nil_r, concat_app, Hres1.
        rewrite (nonWhitespace_app (concat results ++ current)).
        apply (ls_around_separator sep orig piece _ _ Hsep Hinv).
        now apply recur_loses.
      * apply (IH (if truthy current then results ++ [current] else results)
                  piece (orig ++ sep ++ piece) out); [|exact Hrun].
        rewrite Hres1.
        rewrite (nonWhitespace_app (concat results ++ current)).
        apply (ls_around_separator sep orig piece _ _ Hsep Hinv).
        apply ls_refl.
Qed.

End Separators.

Lemma splitRecursive_loses (chunkSize : nat) :
  forall separators,
    Forall vanishes separators ->
    forall text pieces,
      splitRecursive text separators chunkSize = Some pieces ->
      losesSeparators text (nonWhitespace (concat pieces)).
Proof.
  induction separators as [|sep rest IH]; intros Hseps text pieces Hrun.
  - simpl in Hrun. destruct (length text <=? chunkSize).
    + injection Hrun as <-. simpl. rewrite app_nil_r. apply ls_refl.
    + rewrite (fixedWidth_concat _ _ _ Hrun). apply ls_refl.
  - inversion Hseps as [|? ? Hsep Hrest]; subst.
    rewrite splitRecursive_cons in Hrun.
    destruct (length text <=? chunkSize).
    { injection Hrun as <-. simpl. rewrite app_nil_r. apply ls_refl. }
    set (splits := if string_eqb sep (str "") then [text] else split text sep)
      in Hrun.
    assert (Hjoin : exists p more, splits = p :: more
                                   /\ text = p ++ concat (map (app sep) more)).
    { unfold splits. destruct sep as [|a sep'].
      - exists text, []. simpl. now rewrite app_nil_r.
      - change (string_eqb (a :: sep') (str "")) with false. cbv iota.
        destruct (split text (a :: sep')) as [|p more] eqn:Hsp.
        + exfalso. revert Hsp. apply splitFrom_nonempty.
        + exists p, more. split; [reflexivity|].
          rewrite <- join_glue, <- Hsp. symmetry.
          apply split_join. discriminate. }
    destruct Hjoin as (p & more & Hsplits & Htext).
    destruct (packPieces (fun piece => splitRecursive piece rest chunkSize)
                sep chunkSize splits [] []) as [[results current]|] eqn:Hpack;
      [|discriminate].
    injection Hrun as <-.
    rewrite Hsplits in Hpack.
    match goal with
    | |- context [concat ?out] =>
        assert (Hout : concat out = concat results ++ current)
    end.
    { destruct (truthy current) eqn:Ht.
      - rewrite concat_app. simpl. now rewrite app_nil_r.
      - apply truthy_false in Ht. subst. now rewrite app_nil_r. }
    rewrite Hout. rewrite Htext at 1.
    cbn [packPieces truthy] in Hpack.
    assert (Hrec : forall piece sub,
               splitRecursive piece rest chunkSize = Some sub ->
               losesSeparators piece (nonWhitespace (concat sub)))
      by (intros; now apply (IH Hrest)).
    destruct (length p <=? chunkSize).
    + apply (packPieces_loses chunkSize _ Hrec sep Hsep more [] p p
               (results, current)); [|exact Hpack].
      apply ls_refl.
    + destruct (chunkSize <? length p).
      * destruct (splitRecursive p rest chunkSize) as [sub|] eqn:Hsub;
          [|discriminate].
        apply (packPieces_loses chunkSize _ Hrec sep Hsep more ([] ++ sub) [] p
                 (results, current)); [|exact Hpack].
        simpl. rewrite app_nil_r. now apply Hrec.
      * apply (packPieces_loses chunkSize _ Hrec sep Hsep more [] p p
                 (results, current)); [|exact Hpack].
        apply ls_refl.
Qed.

Lemma splitAndMerge_loses text chunkSize overlap :
  0 < chunkSize ->
  exists chunks,
    splitAndMerge text chunkSize overlap = Some chunks
    /\ losesSeparators text
                       (nonWhitespace (concat (stripOverlap overlap chunks)))
    /\ letters (concat (stripOverlap overlap chunks)) = letters text.
Proof.
  intros Hpos.
  destruct (splitAndMerge_spec keepLetter keepLetter_ws keepLetter_separators
              text chunkSize overlap Hpos) as (chunks & Hrun & _ & Hletters).
  exists chunks. split; [exact Hrun|]. split; [|exact Hletters].
  unfold splitAndMerge in Hrun.
  destruct (splitRecursive text SEPARATORS chunkSize) as [raw|] eqn:Hraw;
    [|discriminate].
  injection Hrun as <-. rewrite stripOverlap_mergeChunks.
  destruct (splitRecursive_spec keepLetter chunkSize Hpos SEPARATORS
              keepLetter_separators text) as (raw' & Hraw' & Hshort & _).
  assert (raw' = raw) by congruence. subst raw'.
  destruct (mergeCore_spec notWhitespace notWhitespace_ws raw chunkSize Hshort)
    as [_ Hcore].
  change (nonWhitespace (concat (mergeCore raw chunkSize)))
    with (charsKept notWhitespace (concat (mergeCore raw chunkSize))).
  rewrite Hcore.
  apply (splitRecursive_loses chunkSize SEPARATORS vanishes_separators
           text raw Hraw).
Qed.

(** [splitAndMerge] and the full stops: what is left out of the
    characters other than white space are full stops only. *)
Lemma splitAndMerge_drops text chunkSize overlap :
  0 < chunkSize ->
  exists chunks,
    splitAndMerge text chunkSize overlap = Some chunks
    /\ dropsFullStops (nonWhitespace text)
                      (nonWhitespace (concat (stripOverlap overlap chunks)))
    /\ letters (concat (stripOverlap overlap chunks)) = letters text.
Proof.
  intros Hpos.
  destruct (splitAndMerge_loses text chunkSize overlap Hpos)
    as (chunks & Hrun & Hloses & Hletters).
  exists chunks. split; [exact Hrun|]. split; [now apply ls_dfs | exact Hletters].
Qed.

(** C3, amended: for positive chunk sizes the chunker returns, and the
    parents' texts without their injected overlap prefixes, concatenated,
    reproduce the input up to white space and up to the full stops of
    the separator [". "]: their characters other than white space are
    those of the input, in the same order, and the only characters of
    the input that may be missing are full stops that a space follows
    at once in the input; hence nothing but full stops is missing, the
    characters that are neither white space nor a full stop are exactly
    those of the input (none is lost, none is duplicated), and a text
    in which no full stop has a space after it is reproduced up to
    white space. *)
Theorem coverage_up_to_full_stops
        (text : jsstring)
        (parentSize parentOverlap childSize childOverlap : nat) :
  0 < parentSize -> 0 < childSize ->
  exists parents children,
    parentChildChunk text parentSize parentOverlap childSize childOverlap
      = Some (parents, children)
    /\ losesSeparators
         text
         (nonWhitespace
            (concat (stripOverlap parentOverlap (map p_text parents))))
    /\ dropsFullStops
         (nonWhitespace text)
         (nonWhitespace
            (concat (stripOverlap parentOverlap (map p_text parents))))
    /\ letters (concat (stripOverlap parentOverlap (map p_text parents)))
       = letters text
    /\ (noStopSpace text = true ->
        nonWhitespace
          (concat (stripOverlap parentOverlap (map p_text parents)))
        = nonWhitespace text).
Proof.
  intros Hp Hc. unfold parentChildChunk.
  destruct (splitAndMerge_loses text parentSize parentOverlap Hp)
    as (texts & Hrun & Hloses & Hletters).
  rewrite Hrun.
  destruct (childrenOf_spec childSize childOverlap Hc
              (mkParents 0 texts) []) as (children & Hkids & _);
    [constructor|].
  rewrite Hkids. eexists; eexists; split; [reflexivity|].
  rewrite mkParents_texts.
  split; [exact Hloses|]. split; [now apply ls_dfs|].
  split; [exact Hletters|].
  intros Hno. now apply ls_exact.
Qed.

Lemma coverage_up_to_full_stops_witness :
  0 < 5 /\ 0 < 5 /\
  exists parents children,
    parentChildChunk (str "aaaa. bbbb") 5 2 5 2 = Some (parents, children)
    /\ losesSeparators
         (str "aaaa. bbbb")
         (nonWhitespace (concat (stripOverlap 2 (map p_text parents))))
    /\ dropsFullStops
         (nonWhitespace (str "aaaa. bbbb"))
         (nonWhitespace (concat (stripOverlap 2 (map p_text parents))))
    /\ letters (concat (stripOverlap 2 (map p_text parents)))
       = letters (str "aaaa. bbbb")
    /\ (noStopSpace (str "aaaa. bbbb") = true ->
        nonWhitespace (concat (stripOverlap 2 (map p_text parents)))
        = nonWhitespace (str "aaaa. bbbb")).
Proof.
  split; [lia|]. split; [lia|].
  apply (coverage_up_to_full_stops (str "aaaa. bbbb") 5 2 5 2); lia.
Defined.

(** The full stop of a separator may be missing inside a chunk: the two
    sides of the cut are merged again, with a space. *)
Example full_stop_lost_inside_a_chunk :
  option_map (fun r => map p_text (fst r))
             (parentChildChunk (str "aaaa. bbbbb") 10 2 10 2)
  = Some [str "aaaa bbbbb"].
Proof. vm_compute. reflexivity. Qed.

(** A full stop between two digits is not one that may be missing. *)
Example decimal_point_is_kept :
  ~ losesSeparators (str "3.14") (str "314").
Proof.
  intros H.
  change (str "3.14") with [Latin "3"; Latin "."; Latin "1"; Latin "4"] in H.
  change (str "314") with [Latin "3"; Latin "1"; Latin "4"] in H.
  inversion H as [|c a b Hc H1|c a b Hc H1|]; subst; [discriminate|].
  inversion H1 as [|c a b Hc' H2|c a b Hc' H2|]; subst. discriminate.
Qed.

(** ** Size bound (C4) *)

(** C4, as stated, fails: ["abcdefgh"] has no separator; with chunk size
    4 and overlap 2 the second parent is ["cd efgh"], the 2 characters of
    overlap, the space that joins them to the chunk, and the 4
    characters of the chunk: 7 characters, more than 4 + 2. *)
Lemma size_bound_exceeded_by_space :
  option_map (fun r => map p_text (fst r))
             (parentChildChunk (str "abcdefgh") 4 2 4 2)
  = Some [str "abcd"; str "cd efgh"]
  /\ length (str "cd efgh") = 7
  /\ ~ sizeBoundAt (str "abcdefgh") 4 2 4 2.
Proof.
  repeat split; try reflexivity.
  intros H. destruct (H _ _ eq_refl) as [Hp _].
  vm_compute in Hp. inversion Hp as [|? ? _ Hp']; subst.
  inversion Hp' as [|? ? Hlen _]; subst. lia.
Qed.

(** C4, amended: for positive chunk sizes the chunker returns, every
    parent is at most [parentSize + parentOverlap + 1] characters long
    and every child at most [childSize + childOverlap + 1]: the target
    size, one overlap length, and the space that joins the overlap to
    the chunk. *)
Theorem size_bound_with_joining_space
        (text : jsstring)
        (parentSize parentOverlap childSize childOverlap : nat) :
  0 < parentSize -> 0 < childSize ->
  exists parents children,
    parentChildChunk text parentSize parentOverlap childSize childOverlap
      = Some (parents, children)
    /\ shortAll (parentSize + parentOverlap + 1) (map p_text parents)
    /\ shortAll (childSize + childOverlap + 1) (map c_text children).
Proof.
  intros Hp Hc. unfold parentChildChunk.
  destruct (splitAndMerge_short text parentSize parentOverlap Hp)
    as (texts & Hrun & Hshort).
  rewrite Hrun.
  destruct (childrenOf_spec childSize childOverlap Hc
              (mkParents 0 texts) []) as (children & Hkids & Hks);
    [constructor|].
  rewrite Hkids. eexists; eexists; split; [reflexivity|].
  rewrite mkParents_texts. auto.
Qed.

Lemma size_bound_with_joining_space_witness :
  0 < 4 /\ 0 < 4 /\
  exists parents children,
    parentChildChunk (str "abcdefgh") 4 2 4 2 = Some (parents, children)
    /\ shortAll (4 + 2 + 1) (map p_text parents)
    /\ shortAll (4 + 2 + 1) (map c_text children).
Proof.
  split; [lia|]. split; [lia|].
  apply (size_bound_with_joining_space (str "abcdefgh") 4 2 4 2); lia.
Defined.

(** The scenario of the specification: a text of at most [parentSize]
    characters is one parent, its trimmed text, without overlap (no
    parent when it is blank). *)
Lemma text_that_fits_is_one_parent
      (text : jsstring)
      (parentSize parentOverlap childSize childOverlap : nat) :
  length text <= parentSize -> 0 < childSize ->
  exists children,
    parentChildChunk text parentSize parentOverlap childSize childOverlap
    = Some (mkParents 0 (filter truthy [trim text]), children).
Proof.
  intros Hlen Hpos. unfold parentChildChunk, splitAndMerge.
  assert (E : splitRecursive text SEPARATORS parentSize = Some [text]).
  { unfold SEPARATORS. rewrite splitRecursive_cons.
    apply Nat.leb_le in Hlen. now rewrite Hlen. }
  rewrite E.
  change (mergeChunks [text] parentSize parentOverlap)
    with (filter truthy [trim text]).
  destruct (childrenOf_spec childSize childOverlap Hpos
              (mkParents 0 (filter truthy [trim text])) [])
    as (children & Hkids & _); [constructor|].
  rewrite Hkids. now exists children.
Qed.

(** The same excess with the sizes of the upload route: 4000 characters
    without a separator give a second parent of 2201 characters. *)
Lemma size_bound_exceeded_upload_sizes :
  option_map (fun r => map (fun p => length (p_text p)) (fst r))
             (parentChildChunk (repeat (Latin "a") 4000) 2000 200 400 50)
  = Some [2000; 2201].
Proof. vm_compute. reflexivity. Qed.

(** ** White-space-only input (C10) *)





(** ** Parents and their children (C8) *)

Lemma mkParents_In texts :
  forall i p, In p (mkParents i texts) ->
    exists k, p_id p = str "p-" ++ ofNat (i + k) /\ p_index p = i + k
              /\ nth_error (mkParents i texts) k = Some p.
Proof.
  induction texts as [|t more IH]; intros i p Hin; simpl in *; [tauto|].
  destruct Hin as [<- | Hin].
  - exists 0. rewrite Nat.add_0_r. auto.
  - destruct (IH (S i) p Hin) as (k & Hid & Hidx & Hnth).
    exists (S k). rewrite Nat.add_succ_r. auto.
Qed.

Lemma mkParents_id_inj texts i p q :
  In p (mkParents i texts) -> In q (mkParents i texts) ->
  p_id p = p_id q -> p = q.
Proof.
  intros Hp Hq Hid.
  destruct (mkParents_In texts i p Hp) as (k & Hkid & _ & Hk).
  destruct (mkParents_In texts i q Hq) as (j & Hjid & _ & Hj).
  rewrite Hkid, Hjid in Hid. apply app_inv_head in Hid.
  apply ofNat_inj in Hid. assert (k = j) by lia. subst j.
  congruence.
Qed.

Lemma pushChildren_ids parentId :
  forall texts ci children c,
    In c (pushChildren parentId ci texts children) ->
    In c children \/ c_parentId c = parentId.
Proof.
  induction texts as [|t more IH]; intros ci children c Hin; simpl in *.
  - auto.
  - destruct (IH _ _ _ Hin) as [H | H]; [|auto].
    apply in_app_or in H. destruct H as [H | [<- | []]]; auto.
Qed.

Lemma childrenOf_ids childSize childOverlap :
  forall parents children out,
    childrenOf parents childSize childOverlap children = Some out ->
    forall c, In c out ->
      In c children \/ exists p, In p parents /\ p_id p = c_parentId c.
Proof.
  induction parents as [|parent more IH]; intros children out Hrun c Hin;
    simpl in *.
  - injection Hrun as <-. auto.
  - destruct (splitAndMerge (p_text parent) childSize childOverlap)
      as [texts|]; [|discriminate].
    destruct (IH _ _ Hrun c Hin) as [H | (p & Hp & Hid)].
    + apply pushChildren_ids in H. destruct H as [H | H]; [auto|].
      right. exists parent. auto.
    + right. exists p. auto.
Qed.

(** The first half of C8 holds: the [parentId] of every child is the
    [id] of exactly one parent of the same run. *)
Lemma child_resolves_to_one_parent
      (text : jsstring)
      (parentSize parentOverlap childSize childOverlap : nat)
      (parents : list ParentChunk) (children : list ChildChunk) :
  parentChildChunk text parentSize parentOverlap childSize childOverlap
    = Some (parents, children) ->
  forall c, In c children ->
    exists p, In p parents /\ p_id p = c_parentId c
              /\ forall q, In q parents -> p_id q = c_parentId c -> q = p.
Proof.
  unfold parentChildChunk. intros Hrun c Hin.
  destruct (splitAndMerge text parentSize parentOverlap) as [texts|];
    [|discriminate].
  destruct (childrenOf (mkParents 0 texts) childSize childOverlap [])
    as [kids|] eqn:Hkids; [|discriminate].
  injection Hrun as <- <-.
  destruct (childrenOf_ids _ _ _ _ _ Hkids c Hin) as [[] | (p & Hp & Hid)].
  exists p. repeat split; auto.
  intros q Hq Hqid. apply (mkParents_id_inj texts 0); congruence.
Qed.

Lemma pushChildren_keeps parentId :
  forall texts ci children c,
    In c children -> In c (pushChildren parentId ci texts children).
Proof.
  induction texts as [|t more IH]; intros ci children c Hin; simpl; [exact Hin|].
  apply IH. apply in_or_app. now left.
Qed.

Lemma pushChildren_adds parentId :
  forall texts ci children,
    texts <> [] ->
    exists c, In c (pushChildren parentId ci texts children)
              /\ c_parentId c = parentId.
Proof.
  intros [|t more] ci children Hne; [congruence|]. simpl.
  exists (mkChild t (length children) parentId ci). split; [|reflexivity].
  apply pushChildren_keeps. apply in_or_app. right. now left.
Qed.

Lemma childrenOf_keeps childSize childOverlap :
  forall parents children out c,
    childrenOf parents childSize childOverlap children = Some out ->
    In c children -> In c out.
Proof.
  induction parents as [|parent more IH]; intros children out c Hrun Hin;
    simpl in Hrun.
  - injection Hrun as <-. exact Hin.
  - destruct (splitAndMerge (p_text parent) childSize childOverlap)
      as [texts|]; [|discriminate].
    apply (IH _ _ c Hrun). now apply pushChildren_keeps.
Qed.

Lemma childrenOf_letters childSize childOverlap :
  0 < childSize ->
  forall parents children out p,
    childrenOf parents childSize childOverlap children = Some out ->
    In p parents -> letters (p_text p) <> [] ->
    exists c, In c out /\ c_parentId c = p_id p.
Proof.
  intros Hpos.
  induction parents as [|parent more IH]; intros children out p Hrun Hin Hlet;
    simpl in *; [contradiction|].
  destruct (splitAndMerge (p_text parent) childSize childOverlap)
    as [texts|] eqn:Htexts; [|discriminate].
  destruct Hin as [-> | Hin]; [|now apply (IH _ _ p Hrun)].
  destruct (splitAndMerge_drops (p_text p) childSize childOverlap Hpos)
    as (texts' & Hrun' & _ & Hletters).
  assert (texts' = texts) by congruence. subst texts'.
  assert (Hne : texts <> []).
  { intros ->. simpl in Hletters. now rewrite <- Hletters in Hlet. }
  destruct (pushChildren_adds (p_id p) texts 0 children Hne) as (c & Hc & Hid).
  exists c. split; [|exact Hid].
  now apply (childrenOf_keeps childSize childOverlap more _ out c Hrun).
Qed.

(** The second half of C8 holds for every parent whose text has a
    character that is neither white space nor a full stop. *)
Lemma parent_with_letters_has_child
      (text : jsstring)
      (parentSize parentOverlap childSize childOverlap : nat)
      (parents : list ParentChunk) (children : list ChildChunk) :
  0 < childSize ->
  parentChildChunk text parentSize parentOverlap childSize childOverlap
    = Some (parents, children) ->
  forall p, In p parents -> letters (p_text p) <> [] ->
    hasChild children p = true.
Proof.
  unfold parentChildChunk. intros Hpos Hrun p Hin Hlet.
  destruct (splitAndMerge text parentSize parentOverlap) as [texts|];
    [|discriminate].
  destruct (childrenOf (mkParents 0 texts) childSize childOverlap [])
    as [kids|] eqn:Hkids; [|discriminate].
  injection Hrun as <- <-.
  destruct (childrenOf_letters childSize childOverlap Hpos _ _ _ p
              Hkids Hin Hlet) as (c & Hc & Hid).
  unfold hasChild. apply existsb_exists. exists c. split; [exact Hc|].
  rewrite Hid. clear. induction (p_id p) as [|x l IH]; simpl; [reflexivity|].
  now rewrite char_eqb_refl.
Qed.

(** C8: the code at the failing input.  The text is two lines of two
    spaces and a line ["aaaa"]; with chunk size 4 and overlap 1 the two
    blank lines become the parent [" "] (as in C10), whose text is not
    empty and which has no child: its only piece is trimmed to the empty
    string and filtered out. *)
Theorem nonempty_parent_without_child :
  parentChildChunk ([Latin " "; Latin " "; lf; Latin " "; Latin " "; lf] ++ str "aaaa") 4 1 4 1
  = Some ([mkParent (str "p-0") (str " ") 0;
           mkParent (str "p-1") (str "  aaaa") 1],
          [mkChild (str "aaaa") 0 (str "p-1") 0])
  /\ truthy (p_text (mkParent (str "p-0") (str " ") 0)) = true
  /\ hasChild [mkChild (str "aaaa") 0 (str "p-1") 0]
              (mkParent (str "p-0") (str " ") 0) = false.
Proof. split; [|split]; vm_compute; reflexivity. Qed.

(** The same with the sizes of the upload route, on a text that the
    route accepts (it is not blank): two lines of 1500 spaces, then 2000
    letters.  The first parent is [" "] and no child refers to it. *)
Lemma nonempty_parent_without_child_upload_sizes :
  option_map
    (fun r => (map (fun p => (p_id p, length (p_text p))) (fst r),
               existsb (fun c => string_eqb (c_parentId c) (str "p-0"))
                       (snd r)))
    (parentChildChunk
       (repeat (Latin " ") 1500 ++ [lf] ++ repeat (Latin " ") 1500 ++ [lf]
        ++ repeat (Latin "a") 2000) 2000 200 400 50)
  = Some ([(str "p-0", 1); (str "p-1", 2002)], false).
Proof. vm_compute. reflexivity. Qed.

(* ================================================================== *)
(** * Properties of the chat route *)
(* ================================================================== *)

Open Scope Z_scope.

(** ** Reformulation (C6, C7) *)

(** C7: when the summary is empty and there is no recent turn,
    [reformulateQuery] returns the question unchanged with zero prompt
    tokens and zero completion tokens, whatever the collaborators are,
    and the record of calls is as it was: no call is made. *)
Theorem reformulation_skipped_without_history
        (question summary : jsstring) (recent : list Message)
        (svc : Services) (log : list Call) :
  truthy summary = false ->
  length recent = 0%nat ->
  reformulateQuery question summary recent svc log
  = (Ok (question, mkTokens 0 0), log).
Proof.
  intros Hsummary Hrecent. unfold reformulateQuery.
  rewrite Hrecent, Hsummary. reflexivity.
Qed.

Lemma reformulation_skipped_without_history_witness :
  reformulateQuery (str "Who wrote it?") (str "") []
                   (serviceDown OtherValue) []
  = (Ok (str "Who wrote it?", mkTokens 0 0), []).
Proof.
  apply (reformulation_skipped_without_history
           (str "Who wrote it?") (str "") [] (serviceDown OtherValue) []);
    reflexivity.
Defined.

Lemma POST_reachesAnswer J svc b allMessages lastMessage log :
  reachesAnswer svc b allMessages lastMessage ->
  POST J (JsonValue b) svc log
  = tryCatch (answer J b allMessages lastMessage)
             (fun error => ret (JsonError 500 (messageOf error))) svc log.
Proof.
  intros (Hs & Hk & Hm & Hl & Hr). unfold POST.
  rewrite Hs. cbn [negb]. rewrite Hk. cbn [negb].
  rewrite Hl, Hm, Hr. reflexivity.
Qed.

Lemma contentOr_empty res fallback :
  emptyOutput res -> contentOr res fallback = fallback.
Proof.
  unfold contentOr. intros [-> | (c & -> & Hc)]; [reflexivity|].
  now rewrite Hc.
Qed.

(** The consumer after a response that is not [ok]: the error is
    shown, and the conversation (turns, usage, summary and index) is the
    one it had. *)
Lemma handleSubmit_on_error J sid docs c input svc log status error log' :
  truthy (trim input) = true ->
  POST J (JsonValue (requestOf sid docs c (trim input))) svc log
  = (Ok (JsonError status error), log') ->
  handleSubmit J sid docs c input svc log
  = (Ok (c, Failed (orElse error (str "Request failed: " ++ ofNat status))),
     log').
Proof.
  intros Htext Hpost. unfold handleSubmit. rewrite Htext. cbn [negb].
  unfold bind. rewrite Hpost. reflexivity.
Qed.

(** C6, as stated, fails: the completion service throws on the
    reformulation call of a follow-up question.  [reformulateQuery] has
    no handler: it throws, and [POST] answers with status 500 and the
    message of the error instead of a stream. *)
Lemma reformulation_failure_is_not_caught :
  reformulateQuery (str "When?") (str "") oneExchange
                   (serviceDown (ErrorObject (str "Connection error."))) []
  = (Throw (ErrorObject (str "Connection error.")),
     [CallChat (reformulateRequest (str "When?") (str "") oneExchange)])
  /\ POST someJson (JsonValue followUpBody)
          (serviceDown (ErrorObject (str "Connection error."))) []
     = (Ok (JsonError 500 (str "Connection error.")),
        [CallChat (reformulateRequest (str "When?") (str "") oneExchange)])
  /\ ~ reformulationFallsBack
         (serviceDown (ErrorObject (str "Connection error.")))
         (str "When?") (str "") oneExchange.
Proof.
  split; [reflexivity|]. split; [reflexivity|].
  intros H. destruct H as (tokens & log & H).
  - intros res Hres. discriminate.
  - discriminate.
Qed.

(** C6, amended: when the reformulation call is made,
    (1) an empty output (no content, or content that trims to the empty
        string) makes the step return the original query verbatim;
    (2) a failure of the call is thrown on by the step, and a request
        that reaches the step this way is answered with status 500 and
        the message of the error: the failure fails the request; the
        consumer shows the error and keeps its conversation as it
        was. *)
Theorem reformulation_falls_back_on_empty_output_only
        (J : Json) (svc : Services) (b : Body)
        (allMessages : list Message) (lastMessage : Message)
        (mem : Memory) (log log1 : list Call) :
  reachesAnswer svc b allMessages lastMessage ->
  manageMemory (sliceList allMessages 0 (-1)) (summary b) (summaryMsgCount b)
               svc log = (Ok mem, log1) ->
  reformulationCalled (currentSummary mem) (recentMessages mem) ->
  let req := reformulateRequest (content lastMessage) (currentSummary mem)
                                (recentMessages mem) in
  (forall res,
      chatCreate svc req = Ok res -> emptyOutput res ->
      reformulateQuery (content lastMessage) (currentSummary mem)
                       (recentMessages mem) svc log1
      = (Ok (content lastMessage, usageOf res), log1 ++ [CallChat req]))
  /\ (forall e,
         chatCreate svc req = Throw e ->
         reformulateQuery (content lastMessage) (currentSummary mem)
                          (recentMessages mem) svc log1
         = (Throw e, log1 ++ [CallChat req])
         /\ POST J (JsonValue b) svc log
            = (Ok (JsonError 500 (messageOf e)), log1 ++ [CallChat req])
         /\ forall sid docs c input,
              truthy (trim input) = true ->
              b = requestOf sid docs c (trim input) ->
              handleSubmit J sid docs c input svc log
              = (Ok (c, Failed (orElse (messageOf e)
                                       (str "Request failed: " ++ ofNat 500))),
                 log1 ++ [CallChat req])).
Proof.
  intros Hreach Hmem Hcalled req. split.
  - intros res Hres Hempty.
    unfold reformulateQuery. rewrite Hcalled.
    unfold bind, completionsCreate, call. fold req. rewrite Hres.
    unfold ret. now rewrite (contentOr_empty _ _ Hempty).
  - intros e He.
    assert (Hq : reformulateQuery (content lastMessage) (currentSummary mem)
                   (recentMessages mem) svc log1
                 = (Throw e, log1 ++ [CallChat req])).
    { unfold reformulateQuery. rewrite Hcalled.
      unfold bind, completionsCreate, call. fold req. now rewrite He. }
    split; [exact Hq|].
    assert (Hpost : POST J (JsonValue b) svc log
                    = (Ok (JsonError 500 (messageOf e)),
                       log1 ++ [CallChat req])).
    { rewrite (POST_reachesAnswer J svc b allMessages lastMessage log Hreach).
      unfold tryCatch, answer, bind at 1. rewrite Hmem.
      unfold bind at 1. rewrite Hq. reflexivity. }
    split; [exact Hpost|].
    intros sid docs c input Htext ->.
    now apply handleSubmit_on_error.
Qed.

Lemma reformulation_falls_back_on_empty_output_only_witness :
  reachesAnswer (serviceDown OtherValue) followUpBody
                (oneExchange ++ [followUp]) followUp
  /\ POST someJson (JsonValue followUpBody) (serviceDown OtherValue) []
     = (Ok (JsonError 500 (str "Chat failed")),
        [CallChat (reformulateRequest (str "When?") (str "") oneExchange)])
  /\ handleSubmit someJson (str "s1") [] shortConversation (str "When?")
                  (serviceDown OtherValue) []
     = (Ok (shortConversation, Failed (str "Chat failed")),
        [CallChat (reformulateRequest (str "When?") (str "") oneExchange)]).
Proof.
  assert (Hreach : reachesAnswer (serviceDown OtherValue) followUpBody
                                 (oneExchange ++ [followUp]) followUp)
    by (repeat split; reflexivity).
  split; [exact Hreach|].
  pose proof (proj2 (reformulation_falls_back_on_empty_output_only
                       someJson (serviceDown OtherValue) followUpBody
                       (oneExchange ++ [followUp]) followUp
                       (mkMemory (str "") 0 noTokens oneExchange) [] []
                       Hreach eq_refl eq_refl) OtherValue eq_refl)
    as (_ & Hpost & Hview).
  split; [exact Hpost|].
  exact (Hview (str "s1") [] shortConversation (str "When?")
               eq_refl eq_refl).
Defined.

(** ** Failure of the summarization (C2) *)

(** C2, as stated, fails: with 8 earlier turns and nothing summarized
    the first two turns overflow; the summarization call throws; the
    memory management throws with it, and [POST] answers with status 500
    and the message of the error.  No memory state is returned and no
    other collaborator is called. *)
Lemma summarization_failure_fails_request :
  manageMemory (turn 1 ++ turn 2 ++ turn 3 ++ turn 4) (str "") 0
               (serviceDown (ErrorObject (str "Connection error."))) []
  = (Throw (ErrorObject (str "Connection error.")),
     [CallChat (summarizeRequest (str "") (turn 1))])
  /\ POST someJson (JsonValue longBody)
          (serviceDown (ErrorObject (str "Connection error."))) []
     = (Ok (JsonError 500 (str "Connection error.")),
        [CallChat (summarizeRequest (str "") (turn 1))])
  /\ ~ summarizationFailureTolerated someJson
         (serviceDown (ErrorObject (str "Connection error."))) longBody.
Proof.
  split; [reflexivity|]. split; [reflexivity|].
  intros H. destruct (H _ eq_refl) as (chunks & ending & Hpost).
  - eexists. reflexivity.
  - discriminate.
Qed.

(** C2, amended: when the memory management has overflow to summarize
    and the summarization call throws, the memory management throws the
    same error, having made that one call: it returns no memory state,
    neither an advanced index nor a summary.  A request that reaches it
    is answered with status 500 and the message of the error, and no
    other collaborator is called for it.  The consumer shows the error
    and keeps its conversation as it was, turns, summary and index: the
    index is not advanced, the summary is not lost, and the next request
    carries the same overflow. *)
Theorem summarization_failure_propagates
        (J : Json) (svc : Services) (b : Body)
        (allMessages : list Message) (lastMessage : Message)
        (log : list Call) (e : Thrown) :
  let previous := sliceList allMessages 0 (-1) in
  let overflow := newOverflow previous (summaryMsgCount b) in
  reachesAnswer svc b allMessages lastMessage ->
  MAX_RECENT < Z.of_nat (length previous) ->
  overflow <> [] ->
  chatCreate svc (summarizeRequest (summary b) overflow) = Throw e ->
  manageMemory previous (summary b) (summaryMsgCount b) svc log
  = (Throw e, log ++ [CallChat (summarizeRequest (summary b) overflow)])
  /\ POST J (JsonValue b) svc log
     = (Ok (JsonError 500 (messageOf e)),
        log ++ [CallChat (summarizeRequest (summary b) overflow)])
  /\ forall sid docs c input,
       truthy (trim input) = true ->
       b = requestOf sid docs c (trim input) ->
       handleSubmit J sid docs c input svc log
       = (Ok (c, Failed (orElse (messageOf e)
                                (str "Request failed: " ++ ofNat 500))),
          log ++ [CallChat (summarizeRequest (summary b) overflow)]).
Proof.
  intros previous overflow Hreach Hlong Hover He.
  assert (Hmem : manageMemory previous (summary b) (summaryMsgCount b) svc log
                 = (Throw e,
                    log ++ [CallChat (summarizeRequest (summary b) overflow)])).
  { unfold manageMemory.
    apply Z.ltb_lt in Hlong. rewrite Hlong. fold overflow.
    destruct overflow as [|m more]; [congruence|].
    cbn [length Nat.ltb Nat.leb].
    unfold bind, summarizeOverflow, bind, completionsCreate, call.
    now rewrite He. }
  split; [exact Hmem|].
  assert (Hpost : POST J (JsonValue b) svc log
                  = (Ok (JsonError 500 (messageOf e)),
                     log ++ [CallChat (summarizeRequest (summary b)
                                                        overflow)])).
  { rewrite (POST_reachesAnswer J svc b allMessages lastMessage log Hreach).
    unfold tryCatch, answer, bind at 1. fold previous. rewrite Hmem.
    reflexivity. }
  split; [exact Hpost|].
  intros sid docs c input Htext ->.
  now apply handleSubmit_on_error.
Qed.

Lemma summarization_failure_propagates_witness :
  reachesAnswer (serviceDown OtherValue) longBody
                (turn 1 ++ turn 2 ++ turn 3 ++ turn 4
                 ++ [mkMessage (str "user") (str "question 5")])
                (mkMessage (str "user") (str "question 5"))
  /\ POST someJson (JsonValue longBody) (serviceDown OtherValue) []
     = (Ok (JsonError 500 (str "Chat failed")),
        [CallChat (summarizeRequest (str "") (turn 1))])
  /\ handleSubmit someJson (str "s1") [] longConversation (str "question 5")
                  (serviceDown OtherValue) []
     = (Ok (longConversation, Failed (str "Chat failed")),
        [CallChat (summarizeRequest (str "") (turn 1))]).
Proof.
  assert (Hreach : reachesAnswer (serviceDown OtherValue) longBody
                     (turn 1 ++ turn 2 ++ turn 3 ++ turn 4
                      ++ [mkMessage (str "user") (str "question 5")])
                     (mkMessage (str "user") (str "question 5")))
    by (repeat split; reflexivity).
  split; [exact Hreach|].
  assert (Hlong : MAX_RECENT
                  < Z.of_nat (length (sliceList
                       (turn 1 ++ turn 2 ++ turn 3 ++ turn 4
                        ++ [mkMessage (str "user") (str "question 5")])
                       0 (-1))))
    by (vm_compute; reflexivity).
  assert (Hover : newOverflow
                    (sliceList
                       (turn 1 ++ turn 2 ++ turn 3 ++ turn 4
                        ++ [mkMessage (str "user") (str "question 5")])
                       0 (-1))
                    (summaryMsgCount longBody) <> [])
    by (vm_compute; discriminate).
  pose proof (summarization_failure_propagates
                someJson (serviceDown OtherValue) longBody _ _ []
                OtherValue Hreach Hlong Hover eq_refl) as (_ & Hpost & Hview).
  split; [exact Hpost|].
  exact (Hview (str "s1") [] longConversation (str "question 5")
               eq_refl eq_refl).
Defined.

(** ** The boundary of the summary (C1) *)

Lemma sliceList_length {A} (l : list A) (s e : Z) :
  0 <= s -> s <= e -> e <= Z.of_nat (length l) ->
  Z.of_nat (length (sliceList l s e)) = e - s.
Proof.
  intros Hs Hse He. unfold sliceList, relIndex.
  destruct (s <? 0) eqn:Hs0; [apply Z.ltb_lt in Hs0; lia|].
  destruct (e <? 0) eqn:He0; [apply Z.ltb_lt in He0; lia|].
  rewrite length_firstn, length_skipn. lia.
Qed.

Lemma sliceList_empty {A} (l : list A) (s e : Z) :
  0 <= e -> e <= s -> sliceList l s e = [].
Proof.
  intros He Hes. unfold sliceList, relIndex.
  destruct (s <? 0) eqn:Hs0; [apply Z.ltb_lt in Hs0; lia|].
  destruct (e <? 0) eqn:He0.
  - apply Z.ltb_lt in He0. lia.
  - replace (Z.to_nat (Z.min e (Z.of_nat (length l))
                       - Z.min s (Z.of_nat (length l)))) with 0%nat by lia.
    reflexivity.
Qed.

(** What one call does to a state within the boundary. *)
Lemma memoryStep_cases svc previous st st' :
  0 <= ms_count st <= boundary previous ->
  memoryStep svc previous st = Some st' ->
  (overflowTurns previous (ms_count st) = [] /\ st' = st)
  \/ (overflowTurns previous (ms_count st) <> []
      /\ ms_count st < Z.of_nat (length previous) - MAX_RECENT
      /\ ms_count st' = Z.of_nat (length previous) - MAX_RECENT).
Proof.
  unfold boundary, memoryStep, manageMemory, overflowTurns. intros Hinv.
  destruct (MAX_RECENT <? Z.of_nat (length previous)) eqn:Hlong.
  - apply Z.ltb_lt in Hlong.
    pose proof (sliceList_length previous (ms_count st)
                  (Z.of_nat (length previous) - MAX_RECENT)) as Hlen.
    fold (newOverflow previous (ms_count st)) in Hlen.
    destruct (newOverflow previous (ms_count st)) as [|m more] eqn:Hover.
    + simpl. intros H. injection H as <-. left. split; [reflexivity|].
      now destruct st.
    + cbn [length Nat.ltb Nat.leb].
      unfold bind, summarizeOverflow, bind, completionsCreate, call, ret.
      destruct (chatCreate svc _) as [res|e]; simpl; [|discriminate].
      intros H. injection H as <-. right. simpl.
      split; [discriminate|]. split; [|reflexivity].
      simpl in Hlen. unfold MAX_RECENT in *. lia.
  - simpl. intros H. injection H as <-.
    left. split; [reflexivity | now destruct st].
Qed.

Lemma Threaded_within_boundary previous st :
  Threaded previous st -> 0 <= ms_count st <= boundary previous.
Proof.
  induction 1 as [|previous more st _ IH|previous st svc st' _ IH Hstep].
  - unfold boundary. simpl. lia.
  - unfold boundary in *. rewrite length_app. lia.
  - destruct (memoryStep_cases svc previous st st' IH Hstep)
      as [[_ ->] | (_ & Hlt & Heq)]; [exact IH|].
    unfold boundary. lia.
Qed.

(** C1, as stated, fails while the conversation is short: after one
    exchange there are 2 prior turns; a call of the memory management
    returns the state it was given, with the index 0, and 0 exceeds
    2 - 6.  The code compares the index with [len - 6] only under the
    guard [previousMessages.length > MAX_RECENT]. *)
Lemma index_exceeds_negative_bound :
  memoryStep (serviceDown OtherValue) oneExchange (mkMemoryState (str "") 0)
  = Some (mkMemoryState (str "") 0)
  /\ Z.of_nat (length oneExchange) - MAX_RECENT = -4
  /\ ~ indexBoundAt oneExchange (mkMemoryState (str "") 0).
Proof.
  split; [reflexivity|]. split; [reflexivity|].
  intros H.
  assert (Hthr : Threaded oneExchange (mkMemoryState (str "") 0)).
  { apply (Threaded_call oneExchange (mkMemoryState (str "") 0)
                         (serviceDown OtherValue)); [|reflexivity].
    apply (Threaded_grow [] oneExchange _ Threaded_start). }
  specialize (H Hthr). vm_compute in H. now apply H.
Qed.

(** C1, amended: in a conversation growing turn by turn, with the
    returned state threaded back, the index is never negative and never
    exceeds [max 0 (len(prior turns) - 6)]; a call never decreases it;
    a call that finds no new overflow turn returns the summary and the
    index unchanged; and after any call a repeated call on the same prior
    turns, whatever the collaborators answer, makes no call to them and
    returns the same state. *)
Theorem summary_boundary_monotone
        (previous : list Message) (st : MemoryState) :
  Threaded previous st ->
  0 <= ms_count st <= boundary previous
  /\ forall svc st',
       memoryStep svc previous st = Some st' ->
       ms_count st <= ms_count st'
       /\ ms_count st' <= boundary previous
       /\ (overflowTurns previous (ms_count st) = [] -> st' = st)
       /\ forall svc2 log,
            manageMemory previous (ms_summary st') (ms_count st') svc2 log
            = (Ok (mkMemory (ms_summary st') (ms_count st') noTokens
                            (if MAX_RECENT <? Z.of_nat (length previous)
                             then sliceFrom previous (- MAX_RECENT)
                             else previous)),
               log).
Proof.
  intros Hthr.
  pose proof (Threaded_within_boundary previous st Hthr) as Hinv.
  split; [exact Hinv|].
  intros svc st' Hstep.
  pose proof (Threaded_within_boundary previous st'
                (Threaded_call previous st svc st' Hthr Hstep)) as Hinv'.
  assert (Hnone : overflowTurns previous (ms_count st') = []).
  { destruct (memoryStep_cases svc previous st st' Hinv Hstep)
      as [[Hov ->] | (_ & Hlt & Heq)]; [exact Hov|].
    unfold overflowTurns, newOverflow.
    destruct (MAX_RECENT <? Z.of_nat (length previous)); [|reflexivity].
    apply sliceList_empty; unfold MAX_RECENT in *; lia. }
  repeat split.
  - destruct (memoryStep_cases svc previous st st' Hinv Hstep)
      as [[_ ->] | (_ & Hlt & Heq)]; lia.
  - apply Hinv'.
  - intros Hov.
    destruct (memoryStep_cases svc previous st st' Hinv Hstep)
      as [[_ ->] | (Hne & _)]; [reflexivity | contradiction].
  - intros svc2 log. unfold manageMemory. unfold overflowTurns in Hnone.
    destruct (MAX_RECENT <? Z.of_nat (length previous)); [|reflexivity].
    now rewrite Hnone.
Qed.

Lemma summary_boundary_monotone_witness :
  Threaded (turn 1 ++ turn 2 ++ turn 3 ++ turn 4)
           (mkMemoryState (str "") 0)
  /\ 0 <= 0 <= boundary (turn 1 ++ turn 2 ++ turn 3 ++ turn 4).
Proof.
  assert (H : Threaded (turn 1 ++ turn 2 ++ turn 3 ++ turn 4)
                       (mkMemoryState (str "") 0)).
  { apply (Threaded_grow [] _ _ Threaded_start). }
  split; [exact H|].
  exact (proj1 (summary_boundary_monotone _ _ H)).
Defined.

(** An empty output of the summarization: the previous summary is kept
    by [|| existingSummary], and the index is advanced all the same. *)
Example empty_summary_output :
  manageMemory nine (str "They talked.") 1
               (mkServices true
                  (fun _ => Ok (mkChatCompletion (Some (str "  ")) None))
                  (fun _ => Ok (mkStreamed [] None))
                  (fun _ => Ok []) (fun _ _ _ _ => Ok [])) []
  = (Ok (mkMemory (str "They talked.") 3 noTokens (skipn 3 nine)),
     [CallChat (summarizeRequest (str "They talked.")
                                 (firstn 2 (skipn 1 nine)))]).
Proof. reflexivity. Qed.

Example nine_prior_turns :
  newOverflow nine 0 = firstn 3 nine
  /\ manageMemory nine (str "") 0 (summarizer (str "They talked.")) []
     = (Ok (mkMemory (str "They talked.") 3 (mkTokens 40 10) (skipn 3 nine)),
        [CallChat (summarizeRequest (str "") (firstn 3 nine))]).
Proof. split; reflexivity. Qed.

(** ** The grounding context (C5) *)

(** C5, as stated, fails: two matches share the parent id [""].  The
    guard [if (pid && seenParents.has(pid))] never skips a match whose
    parent id is empty, and [if (pid) seenParents.add(pid)] never
    records it: the text of the parent is in the context twice. *)
Lemma empty_parent_id_not_deduplicated :
  pidOf (legacyMatch "c0") = pidOf (legacyMatch "c1")
  /\ buildContext [legacyMatch "c0"; legacyMatch "c1"]
     = str "A" ++ CONTEXT_DELIMITER ++ str "A"
  /\ ~ dedupAt [legacyMatch "c0"; legacyMatch "c1"].
Proof.
  split; [reflexivity|]. split; [reflexivity|].
  unfold dedupAt. vm_compute. discriminate.
Qed.

Lemma string_eqb_eq (a b : jsstring) : string_eqb a b = true <-> a = b.
Proof.
  revert b. induction a as [|x a IH]; intros [|y b]; simpl;
    try (split; [discriminate | congruence]); [tauto|].
  rewrite andb_true_iff, char_eqb_eq, IH.
  split; [intros [-> ->]; reflexivity | intros H; injection H; auto].
Qed.

Lemma existsb_app_one {A} (f : A -> bool) (l : list A) (a : A) :
  existsb f (l ++ [a]) = existsb f l || f a.
Proof. rewrite existsb_app. simpl. now rewrite orb_false_r. Qed.

(** The set [seenParents] of the loop holds the parent ids of the
    matches read so far, when none of them is empty. *)
Lemma has_pids (earlier : list SearchResult) (r : SearchResult) :
  has (map pidOf earlier) (pidOf r)
  = existsb (fun e => string_eqb (pidOf e) (pidOf r)) earlier.
Proof.
  unfold has. induction earlier as [|e earlier IH]; simpl; [reflexivity|].
  rewrite IH. f_equal.
  destruct (string_eqb (pidOf r) (pidOf e)) eqn:E1;
    destruct (string_eqb (pidOf e) (pidOf r)) eqn:E2; try reflexivity.
  - apply string_eqb_eq in E1. rewrite E1 in E2.
    assert (string_eqb (pidOf e) (pidOf e) = true) by now apply string_eqb_eq.
    congruence.
  - apply string_eqb_eq in E2. rewrite E2 in E1.
    assert (string_eqb (pidOf r) (pidOf r) = true) by now apply string_eqb_eq.
    congruence.
Qed.

Lemma collectParentTexts_spec (results : list SearchResult) :
  Forall (fun r => truthy (pidOf r) = true /\ truthy (pTextOf r) = true)
         results ->
  forall earlier seen parentTexts,
    (forall pid, has seen pid = has (map pidOf earlier) pid) ->
    collectParentTexts results seen parentTexts
    = parentTexts ++ map pTextOf (firstPerParent earlier results).
Proof.
  induction 1 as [|r more [Hpid Htext] _ IH]; intros earlier seen texts Hseen.
  - simpl. now rewrite app_nil_r.
  - simpl. rewrite Hpid, Htext. cbn [andb].
    rewrite Hseen, has_pids.
    destruct (existsb (fun e => string_eqb (pidOf e) (pidOf r)) earlier)
      eqn:Hdup.
    + apply IH. intros pid. rewrite Hseen, map_app. simpl.
      unfold has at 2. rewrite existsb_app_one.
      fold (has (map pidOf earlier) pid).
      destruct (string_eqb pid (pidOf r)) eqn:E; [|now rewrite orb_false_r].
      apply string_eqb_eq in E. subst pid.
      rewrite has_pids, Hdup. reflexivity.
    + rewrite (IH (earlier ++ [r]) (seen ++ [pidOf r]) (texts ++ [pTextOf r])).
      * simpl. now rewrite <- app_assoc.
      * intros pid. rewrite map_app. simpl. unfold has.
        rewrite !existsb_app_one.
        fold (has seen pid). fold (has (map pidOf earlier) pid).
        now rewrite Hseen.
Qed.

Lemma firstPerParent_app (pre post : list SearchResult) :
  forall earlier,
    firstPerParent earlier (pre ++ post)
    = firstPerParent earlier pre ++ firstPerParent (earlier ++ pre) post.
Proof.
  induction pre as [|r pre IH]; intros earlier; simpl.
  - now rewrite app_nil_r.
  - rewrite IH, <- app_assoc. simpl.
    now destruct (existsb (fun e => string_eqb (pidOf e) (pidOf r)) earlier).
Qed.

(** A match that is kept has a parent id that no earlier match has. *)
Lemma firstPerParent_fresh (results : list SearchResult) :
  forall earlier k,
    In k (firstPerParent earlier results) ->
    existsb (fun e => string_eqb (pidOf e) (pidOf k)) earlier = false.
Proof.
  induction results as [|r more IH]; intros earlier k Hin; simpl in Hin.
  - contradiction.
  - assert (Hmore : In k (firstPerParent (earlier ++ [r]) more) ->
                    existsb (fun e => string_eqb (pidOf e) (pidOf k)) earlier
                    = false).
    { intros H. apply IH in H. rewrite existsb_app in H.
      now apply orb_false_elim in H. }
    destruct (existsb (fun e => string_eqb (pidOf e) (pidOf r)) earlier)
      eqn:Hdup; [now apply Hmore|].
    destruct Hin as [<- | Hin]; [exact Hdup | now apply Hmore].
Qed.

Lemma firstPerParent_subset (results : list SearchResult) :
  forall earlier k, In k (firstPerParent earlier results) -> In k results.
Proof.
  induction results as [|r more IH]; intros earlier k Hin; simpl in *.
  - contradiction.
  - destruct (existsb (fun e => string_eqb (pidOf e) (pidOf r)) earlier).
    + right. now apply (IH (earlier ++ [r])).
    + destruct Hin as [<- | Hin]; [now left|].
      right. now apply (IH (earlier ++ [r])).
Qed.

(** The first match of a parent id is kept where it stands, and no
    other kept match has its parent id. *)
Lemma first_match_kept_once (pre post : list SearchResult) (r : SearchResult) :
  (forall e, In e pre -> pidOf e <> pidOf r) ->
  firstPerParent [] (pre ++ r :: post)
  = firstPerParent [] pre ++ r :: firstPerParent (pre ++ [r]) post
  /\ forall k,
       In k (firstPerParent [] pre) \/ In k (firstPerParent (pre ++ [r]) post) ->
       pidOf k <> pidOf r.
Proof.
  intros Hfresh. split.
  - rewrite firstPerParent_app. simpl.
    assert (E : existsb (fun e => string_eqb (pidOf e) (pidOf r)) pre = false).
    { apply not_true_is_false. intros H.
      apply existsb_exists in H. destruct H as (e & He & Heq).
      apply string_eqb_eq in Heq. now apply (Hfresh e). }
    now rewrite E.
  - intros k [Hk | Hk].
    + apply Hfresh. now apply (firstPerParent_subset pre []).
    + apply firstPerParent_fresh in Hk.
      rewrite existsb_app in Hk. apply orb_false_elim in Hk.
      destruct Hk as [_ Hk]. simpl in Hk. rewrite orb_false_r in Hk.
      intros Heq. symmetry in Heq. apply string_eqb_eq in Heq. congruence.
Qed.

(** C5, amended: for every list of search results in which every match
    carries a parent id and a parent text that are not empty, the
    context is made of the parent texts of the first match of each
    parent id, in the order of these matches, joined by the delimiter:
    the text of the first match [r] of a parent id stands once, between
    the texts kept from the matches before [r] and those kept from the
    matches after it, none of which has the parent id of [r]; a later
    match of the same parent is discarded, whatever its score.  For the
    empty list of results the context is the sentence
    ["No relevant context found in the uploaded documents."], which is
    not the empty string. *)
Theorem context_keeps_first_match_per_parent
        (results : list SearchResult) :
  Forall (fun r => truthy (pidOf r) = true /\ truthy (pTextOf r) = true)
         results ->
  collectParentTexts results [] []
  = map pTextOf (firstPerParent [] results)
  /\ (forall pre r post,
        results = pre ++ r :: post ->
        (forall e, In e pre -> pidOf e <> pidOf r) ->
        collectParentTexts results [] []
        = map pTextOf (firstPerParent [] pre)
          ++ pTextOf r :: map pTextOf (firstPerParent (pre ++ [r]) post)
        /\ forall k,
             In k (firstPerParent [] pre)
             \/ In k (firstPerParent (pre ++ [r]) post) ->
             pidOf k <> pidOf r)
  /\ buildContext results
     = (if (0 <? length results)%nat
        then join CONTEXT_DELIMITER (map pTextOf (firstPerParent [] results))
        else str "No relevant context found in the uploaded documents.")
  /\ buildContext []
     = str "No relevant context found in the uploaded documents."
  /\ buildContext [] <> str "".
Proof.
  intros Hres.
  assert (E : collectParentTexts results [] []
              = map pTextOf (firstPerParent [] results)).
  { rewrite (collectParentTexts_spec results Hres [] [] []);
      [reflexivity | reflexivity]. }
  split; [exact E|]. split; [|split; [|split; [reflexivity | discriminate]]].
  - intros pre r post Hsplit Hfresh.
    destruct (first_match_kept_once pre post r Hfresh) as [Hkept Hothers].
    split; [|exact Hothers].
    rewrite E, Hsplit, Hkept, map_app. reflexivity.
  - unfold buildContext. rewrite E.
    destruct results as [|r more]; [reflexivity|].
    reflexivity.
Qed.

Lemma context_keeps_first_match_per_parent_witness :
  Forall (fun r => truthy (pidOf r) = true /\ truthy (pTextOf r) = true)
         [mkResult (str "d-c0") 9 (Some (MString (str "p-0")))
                   (Some (MString (str "alpha"))) None;
          mkResult (str "d-c4") 8 (Some (MString (str "p-1")))
                   (Some (MString (str "beta"))) None;
          mkResult (str "d-c1") 7 (Some (MString (str "p-0")))
                   (Some (MString (str "alpha"))) None]
  /\ buildContext
       [mkResult (str "d-c0") 9 (Some (MString (str "p-0")))
                 (Some (MString (str "alpha"))) None;
        mkResult (str "d-c4") 8 (Some (MString (str "p-1")))
                 (Some (MString (str "beta"))) None;
        mkResult (str "d-c1") 7 (Some (MString (str "p-0")))
                 (Some (MString (str "alpha"))) None]
     = str "alpha" ++ CONTEXT_DELIMITER ++ str "beta".
Proof.
  assert (H : Forall (fun r => truthy (pidOf r) = true
                               /\ truthy (pTextOf r) = true)
         [mkResult (str "d-c0") 9 (Some (MString (str "p-0")))
                   (Some (MString (str "alpha"))) None;
          mkResult (str "d-c4") 8 (Some (MString (str "p-1")))
                   (Some (MString (str "beta"))) None;
          mkResult (str "d-c1") 7 (Some (MString (str "p-0")))
                   (Some (MString (str "alpha"))) None])
    by (repeat constructor).
  split; [exact H|].
  exact (proj1 (proj2 (proj2 (context_keeps_first_match_per_parent _ H)))).
Defined.

(* ================================================================== *)
(** * The trailer of the stream (C9) *)
(* ================================================================== *)

Open Scope nat_scope.

Lemma lazyGroup_sound :
  forall s g, lazyGroup s = Some g ->
    exists w, s = g ++ SENTINEL_CLOSE ++ w
              /\ forallb isWhitespace w = true
              /\ noLineTerminator g.
Proof.
  induction s as [|c s IH]; intros g H.
  - simpl in H. discriminate.
  - cbn [lazyGroup] in H.
    destruct (closesHere (c :: s)) eqn:Hclose.
    + injection H as <-. unfold closesHere in Hclose.
      apply andb_prop in Hclose. destruct Hclose as [Hst Hws].
      exists (skipn (length SENTINEL_CLOSE) (c :: s)).
      split; [|split; [exact Hws | reflexivity]].
      apply (startsWith_app _ _ Hst).
    + destruct (isLineTerminator c) eqn:Hc; [discriminate|].
      destruct (lazyGroup s) as [g'|] eqn:Hg; [|discriminate].
      simpl in H. injection H as <-.
      destruct (IH g' eq_refl) as (w & Hs & Hw & Hg').
      exists w. split; [now rewrite Hs|]. split; [exact Hw|].
      unfold noLineTerminator in *. simpl. now rewrite Hc.
Qed.

(** A line terminator in a text that does not end in white space keeps
    the lazy group from reaching the end. *)
Lemma lazyGroup_blocked (s : jsstring) (c : codeUnit) :
  In c s -> isLineTerminator c = true ->
  endsOutsideWhitespace s ->
  lazyGroup s = None.
Proof.
  intros Hin Hc (s' & z & Hs & Hz).
  destruct (lazyGroup s) as [g|] eqn:Hg; [exfalso | reflexivity].
  destruct (lazyGroup_sound s g Hg) as (w & Hsplit & Hw & Hnolt).
  rewrite Hsplit in Hin.
  apply in_app_or in Hin. destruct Hin as [Hin | Hin].
  - unfold noLineTerminator in Hnolt.
    rewrite forallb_forall in Hnolt. specialize (Hnolt c Hin).
    now rewrite Hc in Hnolt.
  - apply in_app_or in Hin. destruct Hin as [Hin | Hin].
    + unfold SENTINEL_CLOSE, str in Hin. simpl in Hin.
      destruct Hin as [<- | [<- | [<- | []]]]; discriminate.
    + destruct (exists_last (l := w)) as (w' & y & Hwy).
      { intros ->. contradiction. }
      subst w. rewrite Hs in Hsplit.
      rewrite !app_assoc in Hsplit. apply app_inj_tail in Hsplit.
      destruct Hsplit as [_ ->].
      rewrite forallb_app in Hw. apply andb_prop in Hw.
      destruct Hw as [_ Hy]. simpl in Hy. now rewrite Hz in Hy.
Qed.

Lemma forallb_skipn_tail (n : nat) (p : jsstring) (z : codeUnit) :
  n <= length p ->
  forallb isWhitespace (skipn n (p ++ [z])) = true ->
  isWhitespace z = true.
Proof.
  intros Hn H. rewrite skipn_app in H.
  replace (n - length p)%nat with 0%nat in H by lia.
  simpl in H. rewrite forallb_app in H. apply andb_prop in H.
  destruct H as [_ H]. simpl in H. now rewrite andb_true_r in H.
Qed.

(** When the text ends with the closing mark, the lazy group is all
    that stands before it. *)
Lemma lazyGroup_exact :
  forall g, noLineTerminator g -> lazyGroup (g ++ SENTINEL_CLOSE) = Some g.
Proof.
  induction g as [|c g IH]; intros Hg.
  - reflexivity.
  - unfold noLineTerminator in Hg. simpl in Hg.
    apply andb_prop in Hg. destruct Hg as [Hc Hg].
    apply negb_true_iff in Hc.
    change ((c :: g) ++ SENTINEL_CLOSE) with (c :: (g ++ SENTINEL_CLOSE)).
    cbn [lazyGroup].
    destruct (closesHere (c :: g ++ SENTINEL_CLOSE)) eqn:Hclose.
    + exfalso. unfold closesHere in Hclose.
      apply andb_prop in Hclose. destruct Hclose as [_ Hws].
      assert (E : c :: g ++ SENTINEL_CLOSE
                  = (c :: g ++ str "--") ++ [Latin ">"]).
      { simpl. f_equal. rewrite <- app_assoc. reflexivity. }
      rewrite E in Hws. apply forallb_skipn_tail in Hws; [discriminate|].
      simpl. rewrite length_app. simpl. lia.
    + rewrite Hc, (IH Hg). reflexivity.
Qed.

Lemma matchSentinel_skip (open : jsstring) :
  forall pre rest index,
    (forall a b, pre = a ++ b -> b <> [] ->
                 matchHere open (b ++ rest) = None) ->
    matchSentinel open (pre ++ rest) index
    = matchSentinel open rest (index + length pre).
Proof.
  induction pre as [|c pre IH]; intros rest index Hnone.
  - simpl. now rewrite Nat.add_0_r.
  - change ((c :: pre) ++ rest) with (c :: (pre ++ rest)).
    cbn [matchSentinel].
    change (c :: (pre ++ rest)) with ((c :: pre) ++ rest).
    rewrite (Hnone [] (c :: pre) eq_refl) by discriminate.
    rewrite IH.
    + simpl. f_equal. lia.
    + intros a b Hab Hb. apply (Hnone (c :: a) b); [|exact Hb].
      simpl. now rewrite Hab.
Qed.

Lemma matchSentinel_here (open s : jsstring) (index : nat) (g : jsstring) :
  matchHere open s = Some g -> matchSentinel open s index = Some (index, g).
Proof. intros H. destruct s; simpl; now rewrite H. Qed.

Lemma startsWith_mismatch (open s : jsstring) (k : nat) (d : codeUnit) :
  (k < length open)%nat -> nth k s d <> nth k open d ->
  startsWith open s = false.
Proof.
  intros Hk Hne. destruct (startsWith open s) eqn:H; [|reflexivity].
  exfalso. apply Hne. now apply startsWith_nth.
Qed.

Lemma matchHere_head (open s : jsstring) (d : codeUnit) :
  (0 < length open)%nat -> nth 0 s d <> nth 0 open d ->
  matchHere open s = None.
Proof.
  intros Hlen Hne. unfold matchHere.
  now rewrite (startsWith_mismatch open s 0 d Hlen Hne).
Qed.

Lemma suffix_head {A} (a b l : list A) :
  l = a ++ b -> b <> [] -> exists x b', b = x :: b' /\ In x l.
Proof.
  intros -> Hb. destruct b as [|x b']; [congruence|].
  exists x, b'. split; [reflexivity|].
  apply in_or_app. right. now left.
Qed.

Lemma endsOutsideWhitespace_app (p s : jsstring) :
  endsOutsideWhitespace s -> endsOutsideWhitespace (p ++ s).
Proof.
  intros (s' & z & -> & Hz). exists (p ++ s'), z.
  now rewrite app_assoc.
Qed.

Lemma close_endsOutsideWhitespace : endsOutsideWhitespace SENTINEL_CLOSE.
Proof. exists (str "--"), (Latin ">"). split; reflexivity. Qed.

Lemma SUMMARY_OPEN_no_linefeed (k : nat) :
  k < 12 -> nth k SUMMARY_OPEN (Latin " ") <> lf.
Proof.
  intros Hk.
  do 12 (destruct k as [|k]; [vm_compute; discriminate|]). lia.
Qed.

Lemma USAGE_OPEN_no_linefeed (k : nat) :
  2 <= k -> k < 12 -> nth k USAGE_OPEN (Latin " ") <> lf.
Proof.
  intros H2 Hk.
  do 2 (destruct k as [|k]; [lia|]).
  do 10 (destruct k as [|k]; [vm_compute; discriminate|]). lia.
Qed.

(** No match of the summary pattern begins in the answer: the usage
    sentinel that follows begins with line feeds, which the group
    cannot cross and the pattern does not contain. *)
Lemma summary_not_in_answer (answer tail : jsstring) :
  endsOutsideWhitespace tail ->
  forall a b, answer = a ++ b -> b <> [] ->
    matchHere SUMMARY_OPEN (b ++ USAGE_OPEN ++ tail) = None.
Proof.
  intros Htail a b _ Hb. unfold matchHere.
  destruct (startsWith SUMMARY_OPEN (b ++ USAGE_OPEN ++ tail)) eqn:Hst;
    [|reflexivity].
  destruct (Nat.lt_ge_cases (length b) 12) as [Hshort | Hlong].
  - exfalso.
    rewrite (startsWith_mismatch SUMMARY_OPEN _ (length b) (Latin " "))
      in Hst; [discriminate | exact Hshort |].
    rewrite app_nth2, Nat.sub_diag by lia.
    intros E. symmetry in E. revert E. now apply SUMMARY_OPEN_no_linefeed.
  - change (length SUMMARY_OPEN) with 12.
    rewrite skipn_app. replace (12 - length b) with 0 by lia.
    apply (lazyGroup_blocked _ lf).
    + apply in_or_app. right. now left.
    + reflexivity.
    + now do 2 apply endsOutsideWhitespace_app.
Qed.

(** Nor in the usage sentinel, when its payload has no ["<"]. *)
Lemma summary_not_in_usage (ju tail : jsstring) :
  (forall c, In c ju -> c <> (Latin "<")) ->
  forall a b, USAGE_OPEN ++ ju ++ SENTINEL_CLOSE = a ++ b -> b <> [] ->
    matchHere SUMMARY_OPEN (b ++ tail) = None.
Proof.
  intros Hju a b Hab Hb.
  unfold USAGE_OPEN, nl, str in Hab. simpl in Hab.
  do 12 (destruct a as [|? a];
         [simpl in Hab; subst b; reflexivity
         | simpl in Hab; injection Hab as <- Hab]).
  destruct (suffix_head a b _ Hab Hb) as (x & b' & -> & Hx).
  apply (matchHere_head _ _ (Latin " ")); [vm_compute; lia|].
  simpl. apply in_app_or in Hx. destruct Hx as [Hx | Hx].
  - now apply Hju.
  - unfold SENTINEL_CLOSE, str in Hx. simpl in Hx.
    destruct Hx as [<- | [<- | [<- | []]]]; discriminate.
Qed.

(** No match of the usage pattern begins in the answer. *)
Lemma usage_not_in_answer (answer tail : jsstring) :
  endsOutsideWhitespace tail ->
  forall a b, answer = a ++ b -> b <> [] ->
    matchHere USAGE_OPEN (b ++ USAGE_OPEN ++ tail) = None.
Proof.
  intros Htail a b _ Hb. unfold matchHere.
  destruct (startsWith USAGE_OPEN (b ++ USAGE_OPEN ++ tail)) eqn:Hst;
    [|reflexivity].
  destruct (Nat.lt_ge_cases (length b) 12) as [Hshort | Hlong].
  - exfalso. destruct b as [|b0 [|b1 b']]; [congruence | |].
    + rewrite (startsWith_mismatch USAGE_OPEN _ 2 (Latin " ")) in Hst;
        [discriminate | vm_compute; lia |].
      vm_compute. discriminate.
    + rewrite (startsWith_mismatch USAGE_OPEN _ (length (b0 :: b1 :: b'))
                                   (Latin " ")) in Hst;
        [discriminate | exact Hshort |].
      rewrite app_nth2, Nat.sub_diag by lia.
      intros E. symmetry in E. revert E.
      apply USAGE_OPEN_no_linefeed; [simpl; lia | exact Hshort].
  - change (length USAGE_OPEN) with 12.
    rewrite skipn_app. replace (12 - length b) with 0 by lia.
    apply (lazyGroup_blocked _ lf).
    + apply in_or_app. right. now left.
    + reflexivity.
    + now do 2 apply endsOutsideWhitespace_app.
Qed.

Lemma matchHere_exact (open g : jsstring) :
  noLineTerminator g ->
  matchHere open (open ++ g ++ SENTINEL_CLOSE) = Some g.
Proof.
  intros Hg. unfold matchHere. rewrite startsWith_self_app.
  rewrite skipn_app, Nat.sub_diag, skipn_all. simpl.
  now apply lazyGroup_exact.
Qed.

Lemma usage_found (answer ju : jsstring) :
  noLineTerminator ju ->
  matchSentinel USAGE_OPEN (answer ++ USAGE_OPEN ++ ju ++ SENTINEL_CLOSE) 0
  = Some (length answer, ju).
Proof.
  intros Hju.
  rewrite matchSentinel_skip.
  - apply matchSentinel_here. now apply matchHere_exact.
  - apply usage_not_in_answer.
    apply endsOutsideWhitespace_app, close_endsOutsideWhitespace.
Qed.

Lemma summary_found (answer ju js : jsstring) :
  (forall c, In c ju -> c <> (Latin "<")) ->
  noLineTerminator js ->
  matchSentinel SUMMARY_OPEN
    ((answer ++ USAGE_OPEN ++ ju ++ SENTINEL_CLOSE)
     ++ SUMMARY_OPEN ++ js ++ SENTINEL_CLOSE) 0
  = Some (length (answer ++ USAGE_OPEN ++ ju ++ SENTINEL_CLOSE), js).
Proof.
  intros Hju Hjs.
  rewrite <- (app_assoc answer).
  rewrite (matchSentinel_skip SUMMARY_OPEN answer).
  - rewrite (matchSentinel_skip SUMMARY_OPEN
               (USAGE_OPEN ++ ju ++ SENTINEL_CLOSE)).
    + rewrite (matchSentinel_here _ _ _ js (matchHere_exact _ _ Hjs)).
      rewrite (length_app answer). reflexivity.
    + intros a b Hab Hb. now apply (summary_not_in_usage ju _ Hju a b).
  - intros a b Hab Hb. rewrite <- !app_assoc.
    apply (summary_not_in_answer answer _) with (a := a); auto.
    do 4 apply endsOutsideWhitespace_app. apply close_endsOutsideWhitespace.
Qed.

Lemma summary_absent (answer ju : jsstring) :
  (forall c, In c ju -> c <> (Latin "<")) ->
  matchSentinel SUMMARY_OPEN (answer ++ USAGE_OPEN ++ ju ++ SENTINEL_CLOSE) 0
  = None.
Proof.
  intros Hju.
  rewrite (matchSentinel_skip SUMMARY_OPEN answer).
  - rewrite <- (app_nil_r (USAGE_OPEN ++ ju ++ SENTINEL_CLOSE)).
    rewrite (matchSentinel_skip SUMMARY_OPEN
               (USAGE_OPEN ++ ju ++ SENTINEL_CLOSE)).
    + reflexivity.
    + intros a b Hab Hb. now apply (summary_not_in_usage ju _ Hju a b).
  - apply summary_not_in_answer.
    apply endsOutsideWhitespace_app, close_endsOutsideWhitespace.
Qed.

Lemma noAngleBracket_In (s : jsstring) :
  noAngleBracket s -> forall c, In c s -> c <> (Latin "<").
Proof.
  unfold noAngleBracket. rewrite forallb_forall. intros H c Hc ->.
  specialize (H _ Hc). discriminate.
Qed.

Lemma extract_with_summary (J : Json) (answer ju js : jsstring) :
  noLineTerminator ju -> noAngleBracket ju -> noLineTerminator js ->
  extractSentinels J
    (answer ++ (USAGE_OPEN ++ ju ++ SENTINEL_CLOSE)
            ++ (SUMMARY_OPEN ++ js ++ SENTINEL_CLOSE))
  = mkSentinels answer (parse_usage J ju) (parse_summary J js).
Proof.
  intros Hju Hlt Hjs. unfold extractSentinels.
  rewrite app_assoc.
  rewrite (summary_found answer ju js (noAngleBracket_In ju Hlt) Hjs).
  rewrite firstn_app, Nat.sub_diag, firstn_all, firstn_O, app_nil_r.
  rewrite (usage_found answer ju Hju).
  now rewrite firstn_app, Nat.sub_diag, firstn_all, firstn_O, app_nil_r.
Qed.

Lemma extract_without_summary (J : Json) (answer ju : jsstring) :
  noLineTerminator ju -> noAngleBracket ju ->
  extractSentinels J (answer ++ USAGE_OPEN ++ ju ++ SENTINEL_CLOSE)
  = mkSentinels answer (parse_usage J ju) None.
Proof.
  intros Hju Hlt. unfold extractSentinels.
  rewrite (summary_absent answer ju (noAngleBracket_In ju Hlt)).
  rewrite (usage_found answer ju Hju).
  now rewrite firstn_app, Nat.sub_diag, firstn_all, firstn_O, app_nil_r.
Qed.

(** The trailer on a text put together by hand: let [JSON.parse] invert
    [JSON.stringify] on the usage [u] and on the memory state [su], and
    let the two payloads hold no line terminator (and the payload of the
    usage no ["<"]).  Then, for every answer text,
    (1) the answer followed by the usage sentinel and the summary
        sentinel is decoded by [extractSentinels] to the answer, [u] and
        [su], exactly;
    (2) the answer followed by the usage sentinel alone is decoded to
        the answer, [u] and no summary ([null]): no update, and no
        error. *)
Lemma trailer_round_trip
        (J : Json) (answer : jsstring) (u : TokenUsage) (su : SummaryUpdate) :
  parse_usage J (stringify_usage J u) = Some u ->
  parse_summary J (stringify_summary J su) = Some su ->
  noLineTerminator (stringify_usage J u) ->
  noAngleBracket (stringify_usage J u) ->
  noLineTerminator (stringify_summary J su) ->
  extractSentinels J (answer ++ usageSentinel J u ++ summarySentinel J su)
  = mkSentinels answer (Some u) (Some su)
  /\ extractSentinels J (answer ++ usageSentinel J u)
     = mkSentinels answer (Some u) None.
Proof.
  intros Hpu Hps Hu Hangle Hs. unfold usageSentinel, summarySentinel. split.
  - rewrite (extract_with_summary J answer _ _ Hu Hangle Hs).
    now rewrite Hpu, Hps.
  - rewrite (extract_without_summary J answer _ Hu Hangle).
    now rewrite Hpu.
Qed.

Lemma trailer_round_trip_witness :
  extractSentinels (exampleJson sampleUsage sampleUpdate)
    (sampleAnswer
     ++ usageSentinel (exampleJson sampleUsage sampleUpdate) sampleUsage
     ++ summarySentinel (exampleJson sampleUsage sampleUpdate) sampleUpdate)
  = mkSentinels sampleAnswer (Some sampleUsage) (Some sampleUpdate)
  /\ extractSentinels (exampleJson sampleUsage sampleUpdate)
       (sampleAnswer
        ++ usageSentinel (exampleJson sampleUsage sampleUpdate) sampleUsage)
     = mkSentinels sampleAnswer (Some sampleUsage) None.
Proof.
  apply (trailer_round_trip (exampleJson sampleUsage sampleUpdate)
                            sampleAnswer sampleUsage sampleUpdate);
    vm_compute; reflexivity.
Defined.

(** What [POST] streams when the completion does not fail, read back by
    the consumer: the texts of the deltas, the summed usage, and the
    memory state when the summary is not empty; when it is empty no
    summary sentinel is sent and the consumer sees no update. *)
Lemma pump_enqueued :
  forall chunks tokens enqueued,
    snd (pump chunks tokens enqueued)
    = enqueued ++ snd (pump chunks tokens []).
Proof.
  induction chunks as [|c more IH]; intros tokens enqueued; simpl.
  - now rewrite app_nil_r.
  - rewrite IH. symmetry. rewrite IH. symmetry.
    destruct (sc_delta c) as [text|]; [|reflexivity].
    destruct (truthy text); [|reflexivity].
    now rewrite <- app_assoc.
Qed.

Lemma stream_decodes
      (J : Json) (completion_ : StreamedCompletion)
      (reformTokens : Tokens) (mem : Memory) :
  let answerText := concat (snd (pump (st_chunks completion_) noTokens [])) in
  let u := totalUsage (fst (pump (st_chunks completion_) noTokens []))
                      reformTokens (summaryTokens mem) in
  let su := mkSummaryUpdate (currentSummary mem) (currentSummaryMsgCount mem) in
  st_failure completion_ = None ->
  parse_usage J (stringify_usage J u) = Some u ->
  parse_summary J (stringify_summary J su) = Some su ->
  noLineTerminator (stringify_usage J u) ->
  noAngleBracket (stringify_usage J u) ->
  noLineTerminator (stringify_summary J su) ->
  snd (streamBody J completion_ reformTokens mem) = Closed
  /\ extractSentinels J
       (fullText (fst (streamBody J completion_ reformTokens mem)))
     = mkSentinels answerText (Some u)
                   (if truthy (currentSummary mem) then Some su else None).
Proof.
  intros answerText u su Hok Hpu Hps Hu Hangle Hs.
  unfold streamBody, fullText. subst answerText u.
  destruct (pump (st_chunks completion_) noTokens []) as [tokens enq].
  rewrite Hok. cbn [fst snd] in *.
  pose proof (extract_with_summary J (concat enq) _ _ Hu Hangle Hs) as Hboth.
  pose proof (extract_without_summary J (concat enq) _ Hu Hangle) as Hone.
  rewrite Hpu, Hps in Hboth. rewrite Hpu in Hone.
  split; [reflexivity|].
  destruct (truthy (currentSummary mem)).
  - rewrite !concat_app. simpl. rewrite !app_nil_r, <- app_assoc.
    exact Hboth.
  - rewrite concat_app. simpl. rewrite app_nil_r. exact Hone.
Qed.

(** ** The trailer with the platform's [JSON.stringify] (C9) *)


Lemma plain_noLineTerminator s :
  forallb plainUnit s = true -> noLineTerminator s.
Proof.
  unfold noLineTerminator. rewrite !forallb_forall. intros H c Hc.
  specialize (H c Hc). unfold plainUnit in H. now apply andb_prop in H.
Qed.

Lemma plain_noAngleBracket s :
  forallb plainUnit s = true -> noAngleBracket s.
Proof.
  unfold noAngleBracket. rewrite !forallb_forall. intros H c Hc.
  specialize (H c Hc). unfold plainUnit in H. now apply andb_prop in H.
Qed.

Lemma string_of_uint_plain (d : Decimal.uint) :
  forallb plainUnit (str (NilEmpty.string_of_uint d)) = true.
Proof.
  induction d; [reflexivity|..]; exact IHd.
Qed.

Lemma ofNat_plain (n : nat) : forallb plainUnit (ofNat n) = true.
Proof. apply string_of_uint_plain. Qed.

Lemma ofZ_noLineTerminator (n : Z) : noLineTerminator (ofZ n).
Proof.
  apply plain_noLineTerminator. unfold ofZ.
  destruct (Z.to_int n) as [d|d]; [apply string_of_uint_plain|].
  exact (string_of_uint_plain d).
Qed.

Lemma noLineTerminator_app a b :
  noLineTerminator a -> noLineTerminator b -> noLineTerminator (a ++ b).
Proof. unfold noLineTerminator. rewrite forallb_app. now intros -> ->. Qed.

Lemma printUsage_plain (u : TokenUsage) :
  forallb plainUnit (printUsage u) = true.
Proof.
  unfold printUsage. rewrite !forallb_app, !ofNat_plain. reflexivity.
Qed.

Lemma quoteUnit_noLineTerminator (c : codeUnit) :
  isSeparator c = false -> noLineTerminator (quoteUnit c).
Proof.
  destruct c as [a| |]; [intros _|discriminate..].
  destruct a as [[] [] [] [] [] [] [] []]; reflexivity.
Qed.

Lemma quoteJSONString_noLineTerminator (s : jsstring) :
  noSeparator s -> noLineTerminator (quoteJSONString s).
Proof.
  intros Hs. unfold quoteJSONString.
  apply noLineTerminator_app; [reflexivity|].
  apply noLineTerminator_app; [|reflexivity].
  induction s as [|c s IH]; [reflexivity|].
  unfold noSeparator in Hs. cbn [forallb] in Hs. apply andb_prop in Hs.
  destruct Hs as [Hc Hs]. apply negb_true_iff in Hc.
  cbn [flat_map]. apply noLineTerminator_app;
    [now apply quoteUnit_noLineTerminator | now apply IH].
Qed.

Lemma stringifySummary_noLineTerminator (su : SummaryUpdate) :
  noSeparator (su_text su) -> noLineTerminator (stringifySummary su).
Proof.
  intros Hs. unfold stringifySummary.
  repeat (apply noLineTerminator_app;
          [first [reflexivity
                 | now apply quoteJSONString_noLineTerminator
                 | apply ofZ_noLineTerminator]|]).
  reflexivity.
Qed.

(** What [POST] streams, read back by the consumer, when the codec
    prints as the platform does and the summary holds no separator. *)
Lemma stream_round_trip
      (J : Json) (completion_ : StreamedCompletion)
      (reformTokens : Tokens) (mem : Memory) :
  let answerText := concat (snd (pump (st_chunks completion_) noTokens [])) in
  let u := totalUsage (fst (pump (st_chunks completion_) noTokens []))
                      reformTokens (summaryTokens mem) in
  let su := mkSummaryUpdate (currentSummary mem) (currentSummaryMsgCount mem) in
  printsAsPlatform J ->
  st_failure completion_ = None ->
  parse_usage J (stringify_usage J u) = Some u ->
  parse_summary J (stringify_summary J su) = Some su ->
  noSeparator (currentSummary mem) ->
  snd (streamBody J completion_ reformTokens mem) = Closed
  /\ extractSentinels J
       (fullText (fst (streamBody J completion_ reformTokens mem)))
     = mkSentinels answerText (Some u)
                   (if truthy (currentSummary mem) then Some su else None).
Proof.
  intros answerText u su [Hu Hs] Hok Hpu Hps Hsep.
  apply stream_decodes; try assumption.
  - rewrite Hu. apply plain_noLineTerminator, printUsage_plain.
  - rewrite Hu. apply plain_noAngleBracket, printUsage_plain.
  - rewrite Hs. now apply stringifySummary_noLineTerminator.
Qed.

(** C9 fails when the summary holds a line separator.  The
    conversation of eight turns is asked a ninth question; the
    summarization gives a summary in two lines with U+2028 between
    them.  [POST] streams the answer, the usage sentinel and the
    summary sentinel, in which [JSON.stringify] has left the separator
    as it is.  Neither regular expression of [extractSentinels]
    matches, as [.] does not match a line separator: the consumer
    decodes no usage and no summary, and the text it takes for the
    answer is the whole stream, both sentinels included.  After
    [handleSubmit] the answer shown holds the sentinels, the token
    counts have not moved and the memory state is not updated.  This
    holds whatever [JSON.parse] does: it is never called. *)
Theorem separator_in_summary_hides_trailer
        (parseUsage : jsstring -> option TokenUsage)
        (parseSummary : jsstring -> option SummaryUpdate) :
  let J := mkJson printUsage stringifySummary parseUsage parseSummary in
  let svc := summarizing separatedSummary in
  let su := mkSummaryUpdate separatedSummary 2 in
  let streamed := [str "In "; str "1843."; usageSentinel J longUsage;
                   summarySentinel J su] in
  fst (POST J (JsonValue longBody) svc []) = Ok (Streaming streamed Closed)
  /\ extractSentinels J (fullText streamed)
     = mkSentinels (fullText streamed) None None
  /\ fst (handleSubmit J (str "s1") [] longConversation (str "question 5")
                       svc [])
     = Ok (mkConversation
             (conv_messages longConversation
              ++ [mkMessage (str "user") (str "question 5");
                  mkMessage (str "assistant") (fullText streamed)])
             (mkUsage 0 0 0) (str "") 0,
           Answered).
Proof.
  cbv zeta. split; [|split]; vm_compute; reflexivity.
Qed.

(** The same with the paragraph separator U+2029. *)
Example paragraph_separator_hides_trailer
        (parseUsage : jsstring -> option TokenUsage)
        (parseSummary : jsstring -> option SummaryUpdate) :
  let J := mkJson printUsage stringifySummary parseUsage parseSummary in
  let su := mkSummaryUpdate paragraphedSummary 2 in
  let streamed := [str "In "; str "1843."; usageSentinel J longUsage;
                   summarySentinel J su] in
  fst (POST J (JsonValue longBody) (summarizing paragraphedSummary) [])
  = Ok (Streaming streamed Closed)
  /\ extractSentinels J (fullText streamed)
     = mkSentinels (fullText streamed) None None.
Proof.
  cbv zeta. split; vm_compute; reflexivity.
Qed.

(** Without a summary the consumer sees no update, whatever the parser
    does: a conversation of one exchange, nothing to summarize. *)
Example no_summary_no_update
        (parseUsage : jsstring -> option TokenUsage)
        (parseSummary : jsstring -> option SummaryUpdate) :
  let J := mkJson printUsage stringifySummary parseUsage parseSummary in
  let streamed := [str "In "; str "1843.";
                   usageSentinel J (mkUsage 120 30 150)] in
  fst (POST J (JsonValue followUpBody) answering [])
  = Ok (Streaming streamed Closed)
  /\ extractSentinels J (fullText streamed)
     = mkSentinels (str "In 1843.")
                   (parseUsage (printUsage (mkUsage 120 30 150))) None.
Proof.
  cbv zeta. split; vm_compute; reflexivity.
Qed.

(** The same request with a space in place of the separator: the
    answer, the usage and the memory state are decoded exactly. *)
Example plain_summary_round_trip :
  let su := mkSummaryUpdate plainSummary 2 in
  let J := platformJson longUsage su in
  let svc := summarizing plainSummary in
  let streamed := [str "In "; str "1843."; usageSentinel J longUsage;
                   summarySentinel J su] in
  fst (POST J (JsonValue longBody) svc []) = Ok (Streaming streamed Closed)
  /\ extractSentinels J (fullText streamed)
     = mkSentinels (str "In 1843.") (Some longUsage) (Some su)
  /\ fst (handleSubmit J (str "s1") [] longConversation (str "question 5")
                       svc [])
     = Ok (mkConversation
             (conv_messages longConversation
              ++ [mkMessage (str "user") (str "question 5");
                  mkMessage (str "assistant") (str "In 1843.")])
             longUsage plainSummary 2,
           Answered).
Proof.
  cbv zeta. split; [|split]; vm_compute; reflexivity.
Qed.

(* ================================================================== *)
(** * Further properties of the chunker *)
(* ================================================================== *)

Open Scope nat_scope.

(** ** Numbering *)

Lemma mkParents_length texts : forall i, length (mkParents i texts) = length texts.
Proof. induction texts as [|t more IH]; intros i; simpl; auto. Qed.

Lemma mkParents_index texts :
  forall i, map p_index (mkParents i texts) = seq i (length texts).
Proof.
  induction texts as [|t more IH]; intros i; simpl; [reflexivity|].
  now rewrite IH.
Qed.

Lemma mkParents_id texts :
  forall i, map p_id (mkParents i texts)
            = map (fun k => str "p-" ++ ofNat k) (seq i (length texts)).
Proof.
  induction texts as [|t more IH]; intros i; simpl; [reflexivity|].
  now rewrite IH.
Qed.

Lemma parent_ids_NoDup (i n : nat) :
  NoDup (map (fun k => str "p-" ++ ofNat k) (seq i n)).
Proof.
  revert i. induction n as [|n IH]; intros i; simpl; constructor.
  - intros Hin. apply in_map_iff in Hin. destruct Hin as (k & Hk & Hin).
    apply (app_inv_head (str "p-")), ofNat_inj in Hk.
    apply in_seq in Hin. lia.
  - apply IH.
Qed.

Lemma numbered_length parentId texts :
  forall ci offset, length (numbered parentId ci offset texts) = length texts.
Proof. induction texts as [|t more IH]; intros; simpl; auto. Qed.

Lemma numbered_index parentId texts :
  forall ci offset,
    map c_index (numbered parentId ci offset texts) = seq offset (length texts).
Proof.
  induction texts as [|t more IH]; intros; simpl; [reflexivity|].
  now rewrite IH.
Qed.

Lemma numbered_childIndex parentId texts :
  forall ci offset,
    map c_childIndex (numbered parentId ci offset texts) = seq ci (length texts).
Proof.
  induction texts as [|t more IH]; intros; simpl; [reflexivity|].
  now rewrite IH.
Qed.

Lemma numbered_text parentId texts :
  forall ci offset, map c_text (numbered parentId ci offset texts) = texts.
Proof.
  induction texts as [|t more IH]; intros; simpl; [reflexivity|].
  now rewrite IH.
Qed.

Lemma numbered_parentId parentId texts :
  forall ci offset c,
    In c (numbered parentId ci offset texts) -> c_parentId c = parentId.
Proof.
  induction texts as [|t more IH]; intros ci offset c Hin; simpl in Hin;
    [contradiction|].
  destruct Hin as [<- | Hin]; [reflexivity|]. now apply (IH _ _ _ Hin).
Qed.

(** [pushChildren] appends the numbered run of the parent. *)
Lemma pushChildren_numbered parentId :
  forall texts ci children,
    pushChildren parentId ci texts children
    = children ++ numbered parentId ci (length children) texts.
Proof.
  induction texts as [|t more IH]; intros ci children; simpl.
  - now rewrite app_nil_r.
  - rewrite IH, <- app_assoc, length_app. simpl.
    now rewrite Nat.add_1_r.
Qed.

(** [childrenOf] appends one run for each parent, in their order. *)
Lemma childrenOf_blocks childSize childOverlap :
  forall parents children out,
    childrenOf parents childSize childOverlap children = Some out ->
    exists blocks,
      Forall2 (fun p texts =>
                 splitAndMerge (p_text p) childSize childOverlap = Some texts)
              parents blocks
      /\ out = children
               ++ concat (blocksFrom (length children) (map p_id parents) blocks).
Proof.
  induction parents as [|parent more IH]; intros children out Hrun;
    simpl in Hrun.
  - injection Hrun as <-. exists []. split; [constructor|].
    simpl. now rewrite app_nil_r.
  - destruct (splitAndMerge (p_text parent) childSize childOverlap)
      as [texts|] eqn:Htexts; [|discriminate].
    destruct (IH _ _ Hrun) as (blocks & Hall & ->).
    exists (texts :: blocks). split; [now constructor|].
    rewrite pushChildren_numbered, length_app, numbered_length.
    simpl. now rewrite <- app_assoc.
Qed.

Lemma blocksFrom_index :
  forall ids blocks offset,
    map c_index (concat (blocksFrom offset ids blocks))
    = seq offset (length (concat (blocksFrom offset ids blocks))).
Proof.
  induction ids as [|pid ids IH]; intros [|texts blocks] offset; simpl;
    try reflexivity.
  rewrite map_app, length_app, seq_app, numbered_index, numbered_length.
  now rewrite IH.
Qed.

(** X1.  Chunks are numbered by position.  In every result of
    [parentChildChunk] the [index] of a parent is its position in the
    list of parents and its [id] is ["p-"] followed by that position, so
    that no two parents share an id; the [index] of a child is its
    position in the list of all children. *)
Theorem chunk_indices_are_positions
        (text : jsstring)
        (parentSize parentOverlap childSize childOverlap : nat)
        (parents : list ParentChunk) (children : list ChildChunk) :
  parentChildChunk text parentSize parentOverlap childSize childOverlap
    = Some (parents, children) ->
  map p_index parents = seq 0 (length parents)
  /\ map p_id parents
     = map (fun i => str "p-" ++ ofNat i) (seq 0 (length parents))
  /\ NoDup (map p_id parents)
  /\ map c_index children = seq 0 (length children).
Proof.
  unfold parentChildChunk. intros Hrun.
  destruct (splitAndMerge text parentSize parentOverlap) as [texts|];
    [|discriminate].
  destruct (childrenOf (mkParents 0 texts) childSize childOverlap [])
    as [kids|] eqn:Hkids; [|discriminate].
  injection Hrun as <- <-.
  rewrite mkParents_length, mkParents_index, mkParents_id.
  split; [reflexivity|]. split; [reflexivity|].
  split; [apply parent_ids_NoDup|].
  destruct (childrenOf_blocks _ _ _ _ _ Hkids) as (blocks & _ & ->).
  simpl. apply blocksFrom_index.
Qed.

Lemma chunk_indices_are_positions_witness :
  map p_index [mkParent (str "p-0") (str "aaaa") 0;
               mkParent (str "p-1") (str "aa bbbb") 1] = seq 0 2
  /\ map p_id [mkParent (str "p-0") (str "aaaa") 0;
               mkParent (str "p-1") (str "aa bbbb") 1]
     = map (fun i => str "p-" ++ ofNat i) (seq 0 2)
  /\ NoDup (map p_id [mkParent (str "p-0") (str "aaaa") 0;
                      mkParent (str "p-1") (str "aa bbbb") 1])
  /\ map c_index [mkChild (str "aaaa") 0 (str "p-0") 0;
                  mkChild (str "aa") 1 (str "p-1") 0;
                  mkChild (str "aa bbbb") 2 (str "p-1") 1] = seq 0 3.
Proof.
  apply (chunk_indices_are_positions (str "aaaa. bbbb") 5 2 5 2).
  vm_compute. reflexivity.
Defined.

(** ** The children of a parent *)

Lemma string_eqb_refl (s : jsstring) : string_eqb s s = true.
Proof. now apply string_eqb_eq. Qed.

Lemma string_eqb_neq (a b : jsstring) : a <> b -> string_eqb a b = false.
Proof.
  intros Hne. destruct (string_eqb a b) eqn:E; [|reflexivity].
  apply string_eqb_eq in E. contradiction.
Qed.

Lemma childrenWith_app pid a b :
  childrenWith pid (a ++ b) = childrenWith pid a ++ childrenWith pid b.
Proof. apply filter_app. Qed.

Lemma childrenWith_all pid l :
  (forall c, In c l -> c_parentId c = pid) -> childrenWith pid l = l.
Proof.
  induction l as [|c l IH]; intros Hall; simpl; [reflexivity|].
  rewrite (Hall c (or_introl eq_refl)), string_eqb_refl.
  f_equal. apply IH. intros c' Hc'. apply Hall. now right.
Qed.

Lemma childrenWith_none pid l :
  (forall c, In c l -> c_parentId c <> pid) -> childrenWith pid l = [].
Proof.
  induction l as [|c l IH]; intros Hall; simpl; [reflexivity|].
  rewrite (string_eqb_neq _ _ (Hall c (or_introl eq_refl))).
  apply IH. intros c' Hc'. apply Hall. now right.
Qed.

Lemma blocksFrom_parentId :
  forall ids blocks offset c,
    In c (concat (blocksFrom offset ids blocks)) -> In (c_parentId c) ids.
Proof.
  induction ids as [|pid ids IH]; intros [|texts blocks] offset c Hin;
    simpl in Hin; try contradiction.
  apply in_app_or in Hin. destruct Hin as [Hin | Hin].
  - left. symmetry. now apply (numbered_parentId _ _ _ _ _ Hin).
  - right. now apply (IH _ _ _ Hin).
Qed.

(** Selecting the children by parent id, parent after parent, gives the
    runs back when no two parents share an id. *)
Lemma childrenWith_blocks :
  forall ids blocks offset before,
    NoDup ids -> length ids = length blocks ->
    (forall c, In c before -> ~ In (c_parentId c) ids) ->
    map (fun pid =>
           childrenWith pid (before ++ concat (blocksFrom offset ids blocks)))
        ids
    = blocksFrom offset ids blocks.
Proof.
  induction ids as [|pid ids IH]; intros [|texts blocks] offset before
    Hnd Hlen Hbefore; simpl in *; try reflexivity; try discriminate.
  inversion Hnd as [|? ? Hnotin Hnd']; subst.
  f_equal.
  - rewrite !childrenWith_app.
    rewrite (childrenWith_none pid before).
    2:{ intros c Hc E. apply (Hbefore c Hc). now left. }
    rewrite (childrenWith_all pid (numbered pid 0 offset texts)).
    2:{ intros c Hc. now apply (numbered_parentId _ _ _ _ _ Hc). }
    rewrite childrenWith_none; [now rewrite app_nil_r|].
    intros c Hc E. apply blocksFrom_parentId in Hc. congruence.
  - transitivity
      (map (fun a =>
              childrenWith a
                ((before ++ numbered pid 0 offset texts)
                 ++ concat (blocksFrom (offset + length texts) ids blocks)))
           ids).
    { apply map_ext. intros a. now rewrite <- app_assoc. }
    apply IH; [exact Hnd'|lia|].
    intros c Hc Hin. apply in_app_or in Hc. destruct Hc as [Hc | Hc].
    + apply (Hbefore c Hc). now right.
    + apply numbered_parentId in Hc. congruence.
Qed.

Lemma blocks_of_parent childSize childOverlap (f : ParentChunk -> list ChildChunk) :
  forall parents blocks offset,
    Forall2 (fun p texts =>
               splitAndMerge (p_text p) childSize childOverlap = Some texts)
            parents blocks ->
    map f parents = blocksFrom offset (map p_id parents) blocks ->
    forall p, In p parents ->
      exists texts offset',
        splitAndMerge (p_text p) childSize childOverlap = Some texts
        /\ f p = numbered (p_id p) 0 offset' texts.
Proof.
  intros parents blocks offset Hall. revert offset.
  induction Hall as [|q texts parents blocks Hq Hall IH];
    intros offset Hmap p Hin; simpl in *; [contradiction|].
  injection Hmap as Hhead Htail.
  destruct Hin as [-> | Hin].
  - exists texts, offset. auto.
  - now apply (IH _ Htail).
Qed.

(** X2.  Children follow their parents.  In every result of
    [parentChildChunk] the list of children is made of one run for each
    parent, in the order of the parents; the run of a parent holds the
    chunks of the parent's own text, in their order, with [childIndex]
    counting from 0 within the run. *)
Theorem children_follow_their_parents
        (text : jsstring)
        (parentSize parentOverlap childSize childOverlap : nat)
        (parents : list ParentChunk) (children : list ChildChunk) :
  parentChildChunk text parentSize parentOverlap childSize childOverlap
    = Some (parents, children) ->
  children = concat (map (fun p => childrenWith (p_id p) children) parents)
  /\ forall p, In p parents ->
       exists childTexts,
         splitAndMerge (p_text p) childSize childOverlap = Some childTexts
         /\ map c_text (childrenWith (p_id p) children) = childTexts
         /\ map c_childIndex (childrenWith (p_id p) children)
            = seq 0 (length childTexts).
Proof.
  unfold parentChildChunk. intros Hrun.
  destruct (splitAndMerge text parentSize parentOverlap) as [texts|];
    [|discriminate].
  destruct (childrenOf (mkParents 0 texts) childSize childOverlap [])
    as [kids|] eqn:Hkids; [|discriminate].
  injection Hrun as <- <-.
  destruct (childrenOf_blocks _ _ _ _ _ Hkids) as (blocks & Hall & Hout).
  simpl in Hout.
  assert (Hsel :
            map (fun p => childrenWith (p_id p) kids) (mkParents 0 texts)
            = blocksFrom 0 (map p_id (mkParents 0 texts)) blocks).
  { rewrite <- (map_map p_id (fun pid => childrenWith pid kids)).
    rewrite Hout.
    apply (childrenWith_blocks _ blocks 0 []).
    - rewrite mkParents_id. apply parent_ids_NoDup.
    - rewrite length_map. now apply Forall2_length in Hall.
    - intros c []. }
  split.
  - rewrite Hsel. exact Hout.
  - intros p Hin.
    destruct (blocks_of_parent childSize childOverlap
                (fun p => childrenWith (p_id p) kids)
                _ _ 0 Hall Hsel p Hin) as (childTexts & off & Hsplit & Hp).
    exists childTexts. split; [exact Hsplit|].
    cbv beta in Hp. rewrite Hp.
    now rewrite numbered_text, numbered_childIndex.
Qed.

Lemma children_follow_their_parents_witness :
  [mkChild (str "aaaa") 0 (str "p-0") 0;
   mkChild (str "aa") 1 (str "p-1") 0;
   mkChild (str "aa bbbb") 2 (str "p-1") 1]
  = concat (map (fun p => childrenWith (p_id p)
                            [mkChild (str "aaaa") 0 (str "p-0") 0;
                             mkChild (str "aa") 1 (str "p-1") 0;
                             mkChild (str "aa bbbb") 2 (str "p-1") 1])
                [mkParent (str "p-0") (str "aaaa") 0;
                 mkParent (str "p-1") (str "aa bbbb") 1])
  /\ forall p, In p [mkParent (str "p-0") (str "aaaa") 0;
                     mkParent (str "p-1") (str "aa bbbb") 1] ->
       exists childTexts,
         splitAndMerge (p_text p) 5 2 = Some childTexts
         /\ map c_text (childrenWith (p_id p)
                          [mkChild (str "aaaa") 0 (str "p-0") 0;
                           mkChild (str "aa") 1 (str "p-1") 0;
                           mkChild (str "aa bbbb") 2 (str "p-1") 1])
            = childTexts
         /\ map c_childIndex
              (childrenWith (p_id p)
                 [mkChild (str "aaaa") 0 (str "p-0") 0;
                  mkChild (str "aa") 1 (str "p-1") 0;
                  mkChild (str "aa bbbb") 2 (str "p-1") 1])
            = seq 0 (length childTexts).
Proof.
  apply (children_follow_their_parents (str "aaaa. bbbb") 5 2 5 2).
  vm_compute. reflexivity.
Defined.

(** ** No empty chunk *)

Lemma pushIfTruthy_nonEmpty chunk : nonEmptyAll (pushIfTruthy chunk).
Proof.
  unfold pushIfTruthy. destruct (truthy chunk) eqn:E; repeat constructor.
  exact E.
Qed.

Lemma nonEmptyAll_app a b : nonEmptyAll a -> nonEmptyAll b -> nonEmptyAll (a ++ b).
Proof. intros Ha Hb. apply Forall_app. now split. Qed.

Lemma mergeFrom_nonEmpty chunkSize :
  forall rest chunk, nonEmptyAll (mergeFrom chunk rest chunkSize).
Proof.
  induction rest as [|next rest IH]; intros chunk.
  - apply pushIfTruthy_nonEmpty.
  - rewrite mergeFrom_cons.
    destruct (length chunk + length next + 1 <=? chunkSize); [apply IH|].
    apply nonEmptyAll_app; [apply pushIfTruthy_nonEmpty | apply IH].
Qed.

Lemma mergeCore_nonEmpty splits chunkSize :
  nonEmptyAll (mergeCore splits chunkSize).
Proof.
  destruct splits as [|s rest]; [constructor|]. apply mergeFrom_nonEmpty.
Qed.

Lemma addOverlap_nonEmpty overlap :
  forall rest prev, nonEmptyAll (addOverlap overlap prev rest).
Proof.
  induction rest as [|r rest IH]; intros prev; simpl; constructor.
  - destruct (sliceLast prev overlap); reflexivity.
  - apply IH.
Qed.

Lemma mergeChunks_nonEmpty splits chunkSize overlap :
  nonEmptyAll (mergeChunks splits chunkSize overlap).
Proof.
  rewrite mergeChunks_core. cbv zeta.
  pose proof (mergeCore_nonEmpty splits chunkSize) as Hcore.
  destruct ((0 <? overlap) && (1 <? length (mergeCore splits chunkSize)));
    [|exact Hcore].
  destruct (mergeCore splits chunkSize) as [|r0 rest]; [constructor|].
  constructor; [now inversion Hcore | apply addOverlap_nonEmpty].
Qed.

Lemma splitAndMerge_nonEmpty text chunkSize overlap chunks :
  splitAndMerge text chunkSize overlap = Some chunks -> nonEmptyAll chunks.
Proof.
  unfold splitAndMerge.
  destruct (splitRecursive text SEPARATORS chunkSize) as [raw|];
    [|discriminate].
  intros H. injection H as <-. apply mergeChunks_nonEmpty.
Qed.

Lemma childrenOf_nonEmpty childSize childOverlap :
  forall parents children out,
    childrenOf parents childSize childOverlap children = Some out ->
    nonEmptyAll (map c_text children) -> nonEmptyAll (map c_text out).
Proof.
  induction parents as [|parent more IH]; intros children out Hrun Hall;
    simpl in Hrun.
  - now injection Hrun as <-.
  - destruct (splitAndMerge (p_text parent) childSize childOverlap)
      as [texts|] eqn:Htexts; [|discriminate].
    apply (IH _ _ Hrun). rewrite pushChildren_texts.
    apply nonEmptyAll_app; [exact Hall|].
    now apply (splitAndMerge_nonEmpty _ _ _ _ Htexts).
Qed.

(** X3.  No chunk is the empty string.  Whatever the text and the
    sizes, every parent and every child that [parentChildChunk] returns
    has a text of at least one character (which may be a single
    space). *)
Theorem chunks_are_never_empty
        (text : jsstring)
        (parentSize parentOverlap childSize childOverlap : nat)
        (parents : list ParentChunk) (children : list ChildChunk) :
  parentChildChunk text parentSize parentOverlap childSize childOverlap
    = Some (parents, children) ->
  nonEmptyAll (map p_text parents) /\ nonEmptyAll (map c_text children).
Proof.
  unfold parentChildChunk. intros Hrun.
  destruct (splitAndMerge text parentSize parentOverlap) as [texts|] eqn:Htexts;
    [|discriminate].
  destruct (childrenOf (mkParents 0 texts) childSize childOverlap [])
    as [kids|] eqn:Hkids; [|discriminate].
  injection Hrun as <- <-. rewrite mkParents_texts. split.
  - now apply (splitAndMerge_nonEmpty _ _ _ _ Htexts).
  - apply (childrenOf_nonEmpty _ _ _ _ _ Hkids). constructor.
Qed.

Lemma chunks_are_never_empty_witness :
  nonEmptyAll (map p_text [mkParent (str "p-0") (str " ") 0])
  /\ nonEmptyAll (map c_text []).
Proof.
  apply (chunks_are_never_empty (repeat tab 3) 2 0 2 0).
  vm_compute. reflexivity.
Defined.

(** ** The size of a chunk's own text *)

Lemma splitRecursive_short text chunkSize :
  0 < chunkSize ->
  exists raw, splitRecursive text SEPARATORS chunkSize = Some raw
              /\ shortAll chunkSize raw.
Proof.
  intros Hpos.
  assert (Hseps : Forall (fun sep => charsKept (fun _ => false) sep = [])
                         SEPARATORS) by (repeat constructor).
  destruct (splitRecursive_spec (fun _ => false) chunkSize Hpos SEPARATORS
              Hseps text) as (raw & Hraw & Hshort & _).
  exists raw. auto.
Qed.

Lemma mergeCore_short splits chunkSize :
  shortAll chunkSize splits -> shortAll chunkSize (mergeCore splits chunkSize).
Proof.
  intros Hshort.
  now destruct (mergeCore_spec (fun _ => false) (fun _ _ => eq_refl)
                  splits chunkSize Hshort).
Qed.

(** The chunks without the injected prefixes are within the chunk
    size. *)
Lemma splitAndMerge_own_short text chunkSize overlap :
  0 < chunkSize ->
  exists chunks,
    splitAndMerge text chunkSize overlap = Some chunks
    /\ shortAll chunkSize (stripOverlap overlap chunks).
Proof.
  intros Hpos. unfold splitAndMerge.
  destruct (splitRecursive_short text chunkSize Hpos) as (raw & -> & Hshort).
  eexists. split; [reflexivity|].
  rewrite stripOverlap_mergeChunks. now apply mergeCore_short.
Qed.

Lemma stripOverlap_zero chunks : stripOverlap 0 chunks = chunks.
Proof. now destruct chunks. Qed.

Lemma childrenOf_short_within n childSize childOverlap :
  (forall text, exists chunks,
      splitAndMerge text childSize childOverlap = Some chunks
      /\ shortAll n chunks) ->
  forall parents children,
    shortAll n (map c_text children) ->
    exists out,
      childrenOf parents childSize childOverlap children = Some out
      /\ shortAll n (map c_text out).
Proof.
  intros Hsplit.
  induction parents as [|parent more IH]; intros children Hshort; simpl.
  - exists children. auto.
  - destruct (Hsplit (p_text parent)) as (texts & -> & Htexts).
    apply IH. rewrite pushChildren_texts. now apply shortAll_app.
Qed.

(** X4.  The target size bounds a chunk's own text.  For positive
    sizes, every parent without the prefix that the overlap injects
    into it is at most [parentSize] characters long; and with a child
    overlap of 0 every child is at most [childSize] characters long. *)
Theorem own_text_within_target_size
        (text : jsstring) (parentSize parentOverlap childSize : nat) :
  0 < parentSize -> 0 < childSize ->
  exists parents children,
    parentChildChunk text parentSize parentOverlap childSize 0
      = Some (parents, children)
    /\ shortAll parentSize (stripOverlap parentOverlap (map p_text parents))
    /\ shortAll childSize (map c_text children).
Proof.
  intros Hp Hc. unfold parentChildChunk.
  destruct (splitAndMerge_own_short text parentSize parentOverlap Hp)
    as (texts & -> & Hshort).
  destruct (childrenOf_short_within childSize childSize 0) with
    (parents := mkParents 0 texts) (children := @nil ChildChunk)
    as (kids & -> & Hkids).
  - intros t.
    destruct (splitAndMerge_own_short t childSize 0 Hc) as (chunks & H & Hs).
    exists chunks. rewrite stripOverlap_zero in Hs. auto.
  - constructor.
  - eexists; eexists; split; [reflexivity|].
    rewrite mkParents_texts. auto.
Qed.

Lemma own_text_within_target_size_witness :
  0 < 4 /\ 0 < 4 /\
  exists parents children,
    parentChildChunk (str "abcdefgh") 4 2 4 0 = Some (parents, children)
    /\ shortAll 4 (stripOverlap 2 (map p_text parents))
    /\ shortAll 4 (map c_text children).
Proof.
  split; [lia|]. split; [lia|].
  apply (own_text_within_target_size (str "abcdefgh") 4 2 4); lia.
Defined.

(** ** The legacy chunker *)

Lemma mkChunks_texts texts : forall i, map ch_text (mkChunks i texts) = texts.
Proof.
  induction texts as [|t more IH]; intros i; simpl; [reflexivity|].
  now rewrite IH.
Qed.

Lemma mkChunks_index texts :
  forall i, map ch_index (mkChunks i texts) = seq i (length texts).
Proof.
  induction texts as [|t more IH]; intros i; simpl; [reflexivity|].
  now rewrite IH.
Qed.

Lemma mkChunks_length texts : forall i, length (mkChunks i texts) = length texts.
Proof. induction texts as [|t more IH]; intros i; simpl; auto. Qed.

(** X5.  The legacy chunker gives the parents of the hierarchical one.
    For a positive size [chunkText] returns; its chunks are numbered by
    position, are within size + overlap + 1, keep the letters of the
    text, and their texts are the texts of the parents that
    [parentChildChunk] makes with the same size and overlap. *)
Theorem chunkText_gives_the_parents
        (text : jsstring) (chunkSize chunkOverlap : nat) :
  0 < chunkSize ->
  exists chunks,
    chunkText text chunkSize chunkOverlap = Some chunks
    /\ map ch_index chunks = seq 0 (length chunks)
    /\ shortAll (chunkSize + chunkOverlap + 1) (map ch_text chunks)
    /\ letters (concat (stripOverlap chunkOverlap (map ch_text chunks)))
       = letters text
    /\ forall childSize childOverlap parents children,
         parentChildChunk text chunkSize chunkOverlap childSize childOverlap
           = Some (parents, children) ->
         map p_text parents = map ch_text chunks.
Proof.
  intros Hpos. unfold chunkText, parentChildChunk.
  destruct (splitAndMerge_spec keepLetter keepLetter_ws keepLetter_separators
              text chunkSize chunkOverlap Hpos)
    as (texts & -> & Hshort & Hletters).
  eexists. split; [reflexivity|].
  rewrite mkChunks_index, mkChunks_length, mkChunks_texts.
  split; [reflexivity|]. split; [exact Hshort|]. split; [exact Hletters|].
  intros childSize childOverlap parents children Hrun.
  destruct (childrenOf (mkParents 0 texts) childSize childOverlap [])
    as [kids|]; [|discriminate].
  injection Hrun as <- <-. apply mkParents_texts.
Qed.

Lemma chunkText_gives_the_parents_witness :
  0 < 5 /\
  exists chunks,
    chunkText (str "aaaa. bbbb") 5 2 = Some chunks
    /\ map ch_index chunks = seq 0 (length chunks)
    /\ shortAll (5 + 2 + 1) (map ch_text chunks)
    /\ letters (concat (stripOverlap 2 (map ch_text chunks)))
       = letters (str "aaaa. bbbb")
    /\ forall childSize childOverlap parents children,
         parentChildChunk (str "aaaa. bbbb") 5 2 childSize childOverlap
           = Some (parents, children) ->
         map p_text parents = map ch_text chunks.
Proof.
  split; [lia|].
  apply (chunkText_gives_the_parents (str "aaaa. bbbb") 5 2); lia.
Defined.

(** ** A chunk size of 0 *)

Lemma fixedWidthLoop_zero (text : jsstring) :
  text <> [] ->
  forall fuel parts, fixedWidthLoop fuel 0 text 0 parts = None.
Proof.
  intros Hne. destruct text as [|c text]; [congruence|].
  induction fuel as [|fuel IH]; intros parts; [reflexivity|].
  simpl. apply IH.
Qed.

Lemma hasLetters_nonempty (s : jsstring) : hasLetters s -> s <> [].
Proof. intros H ->. now apply H. Qed.

Lemma letters_app a b : letters (a ++ b) = letters a ++ letters b.
Proof. apply filter_app. Qed.

Lemma hasLetters_concat (pieces : list jsstring) :
  hasLetters (concat pieces) -> Exists hasLetters pieces.
Proof.
  induction pieces as [|p pieces IH]; simpl; intros H.
  - now contradiction H.
  - unfold hasLetters in *. rewrite letters_app in H.
    destruct (letters p) eqn:E.
    + right. now apply IH.
    + left. unfold hasLetters. now rewrite E.
Qed.

Section ZeroSize.

Variable recur : jsstring -> option (list jsstring).
Hypothesis recur_throws : forall piece, hasLetters piece -> recur piece = None.

(** With a chunk size of 0 the packing loop hands every non-empty piece
    to the recursive call. *)
Lemma packPieces_zero sep :
  forall pieces results current,
    Exists hasLetters pieces ->
    packPieces recur sep 0 pieces results current = None.
Proof.
  induction pieces as [|piece more IH]; intros results current Hex;
    [inversion Hex|].
  simpl.
  assert (Hmore : ~ hasLetters piece ->
                  forall r c, packPieces recur sep 0 more r c = None).
  { intros Hno r c. apply IH. now inversion Hex. }
  destruct (length (if truthy current then current ++ sep ++ piece else piece)
            <=? 0) eqn:Hfit.
  - apply Hmore. apply Nat.leb_le in Hfit.
    destruct current as [|x current]; simpl in Hfit.
    + destruct piece; [intros H; now apply H | simpl in Hfit; lia].
    + lia.
  - destruct (0 <? length piece) eqn:Hlong.
    + destruct (recur piece) as [sub|] eqn:Hsub; [|reflexivity].
      apply Hmore. intros Hlet. rewrite (recur_throws _ Hlet) in Hsub.
      discriminate.
    + apply Hmore. apply Nat.ltb_ge in Hlong.
      destruct piece; [intros H; now apply H | simpl in Hlong; lia].
Qed.

End ZeroSize.

Lemma split_keeps_letters (text sep : jsstring) :
  sep <> [] -> letters sep = [] -> hasLetters text ->
  Exists hasLetters (split text sep).
Proof.
  intros Hsep Hnone Hlet. apply hasLetters_concat.
  unfold hasLetters, letters.
  rewrite <- (charsKept_join keepLetter sep _ Hnone).
  now rewrite (split_join text sep Hsep).
Qed.

Lemma splitRecursive_zero :
  forall separators,
    Forall (fun sep => letters sep = []) separators ->
    forall text, hasLetters text -> splitRecursive text separators 0 = None.
Proof.
  induction separators as [|sep rest IH]; intros Hseps text Hlet.
  - simpl. pose proof (hasLetters_nonempty _ Hlet) as Hne.
    destruct text as [|c text]; [congruence|]. simpl.
    unfold fixedWidth. now apply fixedWidthLoop_zero.
  - rewrite splitRecursive_cons.
    pose proof (hasLetters_nonempty _ Hlet) as Hne.
    destruct text as [|c text]; [congruence|].
    change (length (c :: text) <=? 0) with false. cbv iota.
    inversion Hseps as [|? ? Hsep Hrest]; subst.
    rewrite (packPieces_zero
               (fun piece => splitRecursive piece rest 0)
               (fun piece H => IH Hrest piece H) sep); [reflexivity|].
    destruct (string_eqb sep (str "")) eqn:E.
    + now left.
    + apply split_keeps_letters; [|exact Hsep|exact Hlet].
      intros ->. discriminate.
Qed.

Lemma splitAndMerge_zero text overlap :
  hasLetters text -> splitAndMerge text 0 overlap = None.
Proof.
  intros Hlet. unfold splitAndMerge.
  now rewrite (splitRecursive_zero SEPARATORS keepLetter_separators text Hlet).
Qed.

Lemma childrenOf_zero childOverlap :
  forall parents children,
    Exists (fun p => hasLetters (p_text p)) parents ->
    childrenOf parents 0 childOverlap children = None.
Proof.
  induction parents as [|parent more IH]; intros children Hex;
    [inversion Hex|].
  simpl.
  destruct (splitAndMerge (p_text parent) 0 childOverlap) as [texts|] eqn:E;
    [|reflexivity].
  apply IH. inversion Hex as [? ? Hlet|]; subst; [|assumption].
  rewrite (splitAndMerge_zero _ childOverlap Hlet) in E. discriminate.
Qed.

Lemma hasLetters_skipn k (s : jsstring) : hasLetters (skipn k s) -> hasLetters s.
Proof.
  unfold hasLetters. intros H E. apply H.
  rewrite <- (firstn_skipn k s), letters_app in E.
  now apply app_eq_nil in E.
Qed.

Lemma stripFrom_letters overlap :
  forall chunks prev,
    Exists hasLetters (stripFrom overlap prev chunks) ->
    Exists hasLetters chunks.
Proof.
  induction chunks as [|c chunks IH]; intros prev Hex; simpl in Hex;
    inversion Hex; subst.
  - left. eapply hasLetters_skipn; eassumption.
  - right. eapply IH; eassumption.
Qed.

Lemma stripOverlap_letters overlap chunks :
  Exists hasLetters (stripOverlap overlap chunks) -> Exists hasLetters chunks.
Proof.
  destruct chunks as [|c chunks]; simpl; [auto|].
  intros Hex. inversion Hex; subst; [now left|].
  right. destruct (0 <? overlap); [|assumption].
  eapply stripFrom_letters; eassumption.
Qed.

(** A text with a letter has a chunk with a letter. *)
Lemma splitAndMerge_letters text chunkSize overlap :
  0 < chunkSize -> hasLetters text ->
  exists chunks,
    splitAndMerge text chunkSize overlap = Some chunks
    /\ Exists hasLetters chunks.
Proof.
  intros Hpos Hlet.
  destruct (splitAndMerge_drops text chunkSize overlap Hpos)
    as (chunks & Hrun & _ & Hletters).
  exists chunks. split; [exact Hrun|].
  apply (stripOverlap_letters overlap), hasLetters_concat.
  unfold hasLetters. now rewrite Hletters.
Qed.

Lemma mkParents_letters texts :
  forall i, Exists hasLetters texts ->
            Exists (fun p => hasLetters (p_text p)) (mkParents i texts).
Proof.
  induction texts as [|t more IH]; intros i Hex; inversion Hex; subst; simpl.
  - now left.
  - right. now apply IH.
Qed.

(** The fixed-width loop throws exactly when the size is 0 and the text
    is not empty. *)
Lemma fixedWidth_throws (text : jsstring) (chunkSize : nat) :
  fixedWidth text chunkSize = None <-> chunkSize = 0 /\ text <> [].
Proof.
  split.
  - intros Hnone. destruct chunkSize as [|n].
    + split; [reflexivity|]. intros ->. discriminate.
    + destruct (fixedWidth_spec text (S n)) as (parts & Hrun & _);
        [apply Nat.lt_0_succ | congruence].
  - intros [-> Hne]. unfold fixedWidth. now apply fixedWidthLoop_zero.
Qed.

(** X6.  A size of 0 is a thrown error.  The fixed-width loop throws
    (its index does not advance, and [parts.push] ends the run with a
    [RangeError]) exactly when the size is 0 and the text is not empty.
    On a text that has a character other than white space and full
    stop, the splitter with chunk size 0 reaches that loop:
    [splitAndMerge], [chunkText] and [parentChildChunk] with a parent
    size of 0, or with a child size of 0 (and a positive parent size),
    throw that error ([None]) and return nothing. *)
Theorem size_zero_throws
        (text : jsstring)
        (parentSize parentOverlap childSize childOverlap : nat) :
  hasLetters text -> 0 < parentSize ->
  (forall piece size, fixedWidth piece size = None <-> size = 0 /\ piece <> [])
  /\ splitAndMerge text 0 parentOverlap = None
  /\ chunkText text 0 parentOverlap = None
  /\ parentChildChunk text 0 parentOverlap childSize childOverlap = None
  /\ parentChildChunk text parentSize parentOverlap 0 childOverlap = None.
Proof.
  intros Hlet Hpos. split; [apply fixedWidth_throws|].
  unfold chunkText, parentChildChunk.
  rewrite (splitAndMerge_zero text parentOverlap Hlet).
  repeat split.
  destruct (splitAndMerge_letters text parentSize parentOverlap Hpos Hlet)
    as (texts & -> & Hex).
  now rewrite (childrenOf_zero childOverlap (mkParents 0 texts) []
                 (mkParents_letters texts 0 Hex)).
Qed.

Lemma size_zero_throws_witness :
  hasLetters (str "a") /\ 0 < 2000
  /\ (forall piece size, fixedWidth piece size = None <-> size = 0 /\ piece <> [])
  /\ splitAndMerge (str "a") 0 0 = None
  /\ chunkText (str "a") 0 0 = None
  /\ parentChildChunk (str "a") 0 0 400 50 = None
  /\ parentChildChunk (str "a") 2000 0 0 50 = None.
Proof.
  assert (H : hasLetters (str "a")) by (vm_compute; discriminate).
  split; [exact H|]. split; [lia|].
  apply (size_zero_throws (str "a") 2000 0 400 50); [exact H|lia].
Defined.

(** X7.  A text with a letter is indexed.  For positive sizes and a
    text that has a character other than white space and full stop,
    [parentChildChunk] returns at least one parent with such a
    character and at least one child that names it. *)
Theorem text_with_letters_is_indexed
        (text : jsstring)
        (parentSize parentOverlap childSize childOverlap : nat) :
  0 < parentSize -> 0 < childSize -> hasLetters text ->
  exists parents children,
    parentChildChunk text parentSize parentOverlap childSize childOverlap
      = Some (parents, children)
    /\ exists p c, In p parents /\ hasLetters (p_text p)
                   /\ In c children /\ c_parentId c = p_id p.
Proof.
  intros Hp Hc Hlet. unfold parentChildChunk.
  destruct (splitAndMerge_letters text parentSize parentOverlap Hp Hlet)
    as (texts & -> & Hex).
  destruct (childrenOf_spec childSize childOverlap Hc (mkParents 0 texts) [])
    as (kids & Hkids & _); [constructor|].
  rewrite Hkids. eexists; eexists; split; [reflexivity|].
  apply (mkParents_letters texts 0), Exists_exists in Hex.
  destruct Hex as (p & Hin & Hplet).
  destruct (childrenOf_letters childSize childOverlap Hc _ _ _ p
              Hkids Hin Hplet) as (c & Hcin & Hid).
  exists p, c. auto.
Qed.

Lemma text_with_letters_is_indexed_witness :
  0 < 5 /\ 0 < 5 /\ hasLetters (str "aaaa. bbbb") /\
  exists parents children,
    parentChildChunk (str "aaaa. bbbb") 5 2 5 2 = Some (parents, children)
    /\ exists p c, In p parents /\ hasLetters (p_text p)
                   /\ In c children /\ c_parentId c = p_id p.
Proof.
  assert (H : hasLetters (str "aaaa. bbbb")) by (vm_compute; discriminate).
  split; [lia|]. split; [lia|]. split; [exact H|].
  apply (text_with_letters_is_indexed (str "aaaa. bbbb") 5 2 5 2); [lia|lia|].
  exact H.
Defined.

(* ================================================================== *)
(** * Further properties of the chat route *)
(* ================================================================== *)

Open Scope Z_scope.

(** ** Calls are made one after the other *)

Lemma succeeded_app svc a b :
  succeeded svc a -> succeeded svc b -> succeeded svc (a ++ b).
Proof. intros Ha Hb. apply Forall_app. now split. Qed.

Lemma failFast_ret {A} (a : A) : failFast (ret a).
Proof.
  intros svc log. exists []. simpl. rewrite app_nil_r.
  split; [reflexivity | constructor].
Qed.

Lemma failFast_bind {A B} (m : M A) (k : A -> M B) :
  failFast m -> (forall a, failFast (k a)) -> failFast (bind m k).
Proof.
  intros Hm Hk svc log. unfold bind.
  destruct (Hm svc log) as (calls & Hlog & Hres).
  destruct (m svc log) as [[a|e] log1]; simpl in Hlog, Hres; subst log1.
  - destruct (Hk a svc (log ++ calls)) as (calls' & Hlog' & Hres').
    exists (calls ++ calls'). rewrite Hlog', app_assoc.
    split; [reflexivity|].
    destruct (fst (k a svc (log ++ calls))) as [b|e].
    + now apply succeeded_app.
    + destruct Hres' as (before & c & -> & Hbefore & Hc).
      exists (calls ++ before), c. rewrite app_assoc.
      split; [reflexivity|]. split; [now apply succeeded_app | exact Hc].
  - exists calls. simpl. auto.
Qed.

Lemma failFast_call {A} (c : Call) (f : Services -> Result A) :
  (forall svc, outcome svc c
               = match f svc with Ok _ => None | Throw e => Some e end) ->
  failFast (call c f).
Proof.
  intros Hf svc log. exists [c]. unfold call. simpl.
  split; [reflexivity|]. specialize (Hf svc).
  destruct (f svc) as [a|e].
  - now repeat constructor.
  - exists [], c. split; [reflexivity|]. split; [constructor | exact Hf].
Qed.

Lemma failFast_completionsCreate req : failFast (completionsCreate req).
Proof. apply failFast_call. reflexivity. Qed.

Lemma failFast_summarizeOverflow existingSummary newMessages :
  failFast (summarizeOverflow existingSummary newMessages).
Proof.
  apply failFast_bind; [apply failFast_completionsCreate|].
  intros res. apply failFast_ret.
Qed.

Lemma failFast_manageMemory previous existingSummary count :
  failFast (manageMemory previous existingSummary count).
Proof.
  unfold manageMemory.
  destruct (MAX_RECENT <? Z.of_nat (length previous)); [|apply failFast_ret].
  destruct (0 <? length (newOverflow previous count))%nat;
    [|apply failFast_ret].
  apply failFast_bind; [apply failFast_summarizeOverflow|].
  intros [s t]. apply failFast_ret.
Qed.

Lemma failFast_reformulateQuery question summary recent :
  failFast (reformulateQuery question summary recent).
Proof.
  unfold reformulateQuery.
  destruct ((length recent =? 0)%nat && negb (truthy summary));
    [apply failFast_ret|].
  apply failFast_bind; [apply failFast_completionsCreate|].
  intros res. apply failFast_ret.
Qed.

Lemma failFast_answer J b allMessages lastMessage :
  failFast (answer J b allMessages lastMessage).
Proof.
  unfold answer.
  apply failFast_bind; [apply failFast_manageMemory|]. intros mem.
  apply failFast_bind; [apply failFast_reformulateQuery|].
  intros [searchQuery reformTokens].
  apply failFast_bind; [apply failFast_call; reflexivity|]. intros queryVector.
  apply failFast_bind; [apply failFast_call; reflexivity|]. intros results.
  apply failFast_bind; [apply failFast_call; reflexivity|]. intros completion_.
  destruct (streamBody J completion_ reformTokens mem) as [chunks ending].
  apply failFast_ret.
Qed.

(** On a [null] body [POST] throws, without a call. *)
Lemma POST_null J svc log :
  exists e, POST J JsonNull svc log = (Throw e, log).
Proof. eexists. reflexivity. Qed.

(** On any other body [POST] either answers before its [try] block,
    with an error and without a call, or it is the [try] block with its
    handler. *)
Lemma POST_cases J request svc log :
  request <> JsonNull ->
  (exists status error,
      POST J request svc log = (Ok (JsonError status error), log)
      /\ (status = 400 \/ status = 500)%nat
      /\ forall b allMessages lastMessage,
           request = JsonValue b -> ~ reachesAnswer svc b allMessages lastMessage)
  \/ (exists b allMessages lastMessage,
         request = JsonValue b
         /\ reachesAnswer svc b allMessages lastMessage
         /\ POST J request svc log
            = tryCatch (answer J b allMessages lastMessage)
                       (fun error => ret (JsonError 500 (messageOf error)))
                       svc log).
Proof.
  intros Hnull. destruct request as [| |b]; [|congruence|].
  { left. exists 400%nat, (str "Invalid request body").
    split; [reflexivity|]. split; [now left|]. discriminate. }
  unfold POST.
  destruct (truthy (sessionId b)) eqn:Hs; cbn [negb].
  2:{ left. exists 400%nat, (str "Missing sessionId").
      split; [reflexivity|]. split; [now left|].
      intros b' a l [= <-] (H & _). congruence. }
  destruct (apiKeySet svc) eqn:Hk; cbn [negb].
  2:{ left. exists 500%nat, (str "OPENAI_API_KEY not configured").
      split; [reflexivity|]. split; [now right|].
      intros b' a l [= <-] (_ & H & _). congruence. }
  destruct (lastMessageOf b) as [lastMessage|] eqn:Hl.
  2:{ left. exists 400%nat, (str "No user message found").
      split; [reflexivity|]. split; [now left|].
      intros b' a l [= <-] (_ & _ & _ & H & _). congruence. }
  destruct (messages b) as [allMessages|] eqn:Hm.
  2:{ left. exists 400%nat, (str "No user message found").
      split; [reflexivity|]. split; [now left|].
      intros b' a l [= <-] (_ & _ & H & _). congruence. }
  destruct (string_eqb (role lastMessage) (str "user")) eqn:Hr; cbn [negb].
  2:{ left. exists 400%nat, (str "No user message found").
      split; [reflexivity|]. split; [now left|].
      intros b' a l [= <-] (_ & _ & _ & H & H'). congruence. }
  right. exists b, allMessages, lastMessage.
  split; [reflexivity|]. split; [|reflexivity].
  repeat split; assumption.
Qed.

(** ** The run of the [try] block *)

Lemma manageMemory_log previous existingSummary count svc log :
  snd (manageMemory previous existingSummary count svc log)
  = log ++ summarizeCalls previous existingSummary count.
Proof.
  unfold manageMemory, summarizeCalls, overflowTurns.
  destruct (MAX_RECENT <? Z.of_nat (length previous));
    [|simpl; now rewrite app_nil_r].
  destruct (newOverflow previous count) as [|m more] eqn:Hover.
  - simpl. now rewrite app_nil_r.
  - cbn [length Nat.ltb Nat.leb].
    unfold bind, summarizeOverflow, bind, completionsCreate, call, ret.
    now destruct (chatCreate svc _).
Qed.

Lemma reformulateQuery_log question mem svc log :
  snd (reformulateQuery question (currentSummary mem) (recentMessages mem)
                        svc log)
  = log ++ reformulateCalls question mem.
Proof.
  unfold reformulateQuery, reformulateCalls.
  destruct ((length (recentMessages mem) =? 0)%nat
            && negb (truthy (currentSummary mem))).
  - simpl. now rewrite app_nil_r.
  - unfold bind, completionsCreate, call, ret.
    now destruct (chatCreate svc _).
Qed.

(** What the [try] block has done when it returns. *)
Lemma answer_returns J b allMessages lastMessage svc log response log' :
  answer J b allMessages lastMessage svc log = (Ok response, log') ->
  let previous := sliceList allMessages 0 (-1) in
  let question := content lastMessage in
  exists mem searchQuery reformTokens queryVector results completion_,
    fst (manageMemory previous (summary b) (summaryMsgCount b) svc log)
    = Ok mem
    /\ fst (reformulateQuery question (currentSummary mem)
              (recentMessages mem) svc
              (log ++ summarizeCalls previous (summary b) (summaryMsgCount b)))
       = Ok (searchQuery, reformTokens)
    /\ embedText svc searchQuery = Ok queryVector
    /\ queryChunks svc (sessionId b) queryVector 10 (filterOf b) = Ok results
    /\ chatCreateStream svc
         (answerRequest (buildContext results) (currentSummary mem)
                        (recentMessages mem) question)
       = Ok completion_
    /\ response
       = Streaming (fst (streamBody J completion_ reformTokens mem))
                   (snd (streamBody J completion_ reformTokens mem))
    /\ log'
       = log ++ summarizeCalls previous (summary b) (summaryMsgCount b)
             ++ reformulateCalls question mem
             ++ [CallEmbed searchQuery;
                 CallQuery (sessionId b) queryVector 10 (filterOf b);
                 CallChatStream
                   (answerRequest (buildContext results) (currentSummary mem)
                                  (recentMessages mem) question)].
Proof.
  intros Hrun previous question. unfold answer in Hrun.
  fold previous question in Hrun. unfold bind at 1 in Hrun.
  pose proof (manageMemory_log previous (summary b) (summaryMsgCount b)
                svc log) as Hlog1.
  destruct (manageMemory previous (summary b) (summaryMsgCount b) svc log)
    as [[mem|e] log1]; [|discriminate].
  simpl in Hlog1. subst log1. unfold bind at 1 in Hrun.
  pose proof (reformulateQuery_log question mem svc
                (log ++ summarizeCalls previous (summary b)
                                       (summaryMsgCount b))) as Hlog2.
  destruct (reformulateQuery question (currentSummary mem)
              (recentMessages mem) svc _)
    as [[[searchQuery reformTokens]|e] log2] eqn:Hreform; [|discriminate].
  simpl in Hlog2. subst log2.
  unfold bind, call, completionsCreateStream, call in Hrun.
  fold (filterOf b) in Hrun.
  destruct (embedText svc searchQuery) as [queryVector|e] eqn:Hembed;
    [|discriminate].
  destruct (queryChunks svc (sessionId b) queryVector 10 (filterOf b))
    as [results|e] eqn:Hquery; [|discriminate].
  destruct (chatCreateStream svc _) as [completion_|e] eqn:Hstream;
    [|discriminate].
  exists mem, searchQuery, reformTokens, queryVector, results, completion_.
  split; [reflexivity|]. split; [now rewrite Hreform|].
  split; [exact Hembed|]. split; [exact Hquery|]. split; [exact Hstream|].
  destruct (streamBody J completion_ reformTokens mem) as [chunks ending].
  unfold ret in Hrun. injection Hrun as <- <-.
  split; [reflexivity|].
  now rewrite <- !app_assoc.
Qed.


(** X9.  A collaborator is called for a well-formed request only.  When
    [POST] has made a call, the request had a body with a session id
    and a last message from the user, and the API key was set. *)
Theorem calls_need_a_well_formed_request
        (J : Json) (request : Request) (svc : Services)
        (log log' : list Call) (result : Result Response) :
  POST J request svc log = (result, log') ->
  log' <> log ->
  exists b allMessages lastMessage,
    request = JsonValue b /\ reachesAnswer svc b allMessages lastMessage.
Proof.
  intros Hpost Hcalls.
  assert (Hnull : request <> JsonNull).
  { intros ->. destruct (POST_null J svc log) as (e & Hthrow).
    rewrite Hthrow in Hpost. injection Hpost as _ <-. congruence. }
  destruct (POST_cases J request svc log Hnull)
    as [(status & error & Hpost' & _)
       | (b & allMessages & lastMessage & Hreq & Hreach & _)].
  - rewrite Hpost' in Hpost. injection Hpost as _ <-. congruence.
  - exists b, allMessages, lastMessage. auto.
Qed.

Lemma calls_need_a_well_formed_request_witness :
  exists b allMessages lastMessage,
    JsonValue followUpBody = JsonValue b
    /\ reachesAnswer (serviceDown OtherValue) b allMessages lastMessage.
Proof.
  apply (calls_need_a_well_formed_request
           someJson (JsonValue followUpBody) (serviceDown OtherValue) []
           [CallChat (reformulateRequest (str "When?") (str "") oneExchange)]
           (Ok (JsonError 500 (str "Chat failed")))).
  - vm_compute. reflexivity.
  - discriminate.
Defined.

(** X10.  The steps of an answered request, in their order.  When
    [POST] answers with a stream, the request was well formed, and with
    [mem] the memory state that [manageMemory] returns on the turns
    before the question and the summary state of the request, and
    [searchQuery] the query that [reformulateQuery] returns on the
    question and that memory state, [POST] has made: the summarization
    call when there were turns to summarize, the reformulation call
    unless there was no history, then the embedding of [searchQuery],
    the search of the 10 nearest chunks in the namespace of the session
    with the filter of the selected documents, and the generation call,
    whose prompt carries the context built from the results of that
    search, the summary and the recent turns of [mem], and the
    question; each of these calls returned, and what is streamed is
    [streamBody] of the completion, the tokens of the reformulation and
    [mem]. *)
Theorem answered_request_calls_in_order
        (J : Json) (b : Body) (svc : Services) (log log' : list Call)
        (chunks : list jsstring) (ending : StreamEnd) :
  POST J (JsonValue b) svc log = (Ok (Streaming chunks ending), log') ->
  exists allMessages lastMessage mem searchQuery reformTokens
         queryVector results completion_,
    let previous := sliceList allMessages 0 (-1) in
    let question := content lastMessage in
    let generation :=
      answerRequest (buildContext results) (currentSummary mem)
                    (recentMessages mem) question in
    let calls :=
      summarizeCalls previous (summary b) (summaryMsgCount b)
      ++ reformulateCalls question mem
      ++ [CallEmbed searchQuery;
          CallQuery (sessionId b) queryVector 10 (filterOf b);
          CallChatStream generation] in
    reachesAnswer svc b allMessages lastMessage
    /\ fst (manageMemory previous (summary b) (summaryMsgCount b) svc log)
       = Ok mem
    /\ fst (reformulateQuery question (currentSummary mem)
              (recentMessages mem) svc
              (log ++ summarizeCalls previous (summary b) (summaryMsgCount b)))
       = Ok (searchQuery, reformTokens)
    /\ log' = log ++ calls
    /\ succeeded svc calls
    /\ embedText svc searchQuery = Ok queryVector
    /\ queryChunks svc (sessionId b) queryVector 10 (filterOf b) = Ok results
    /\ chatCreateStream svc generation = Ok completion_
    /\ (chunks, ending) = streamBody J completion_ reformTokens mem.
Proof.
  intros Hpost.
  destruct (POST_cases J (JsonValue b) svc log ltac:(discriminate))
    as [(status & error & Hpost' & _)
       | (b' & allMessages & lastMessage & [= <-] & Hreach & Hpost')].
  { rewrite Hpost' in Hpost. discriminate. }
  rewrite Hpost' in Hpost. unfold tryCatch in Hpost.
  destruct (answer J b allMessages lastMessage svc log) as [[r|e] l] eqn:Hrun;
    [|discriminate].
  injection Hpost as -> ->.
  destruct (answer_returns _ _ _ _ _ _ _ _ Hrun)
    as (mem & q & rt & v & results & completion_ & Hmem & Hreform & Hembed
        & Hquery & Hstream & Hresp & Hlog).
  exists allMessages, lastMessage, mem, q, rt, v, results, completion_.
  cbv zeta. split; [exact Hreach|]. split; [exact Hmem|].
  split; [exact Hreform|]. split; [exact Hlog|].
  split.
  { destruct (failFast_answer J b allMessages lastMessage svc log)
      as (calls & Hcalls & Hres).
    rewrite Hrun in Hcalls, Hres. simpl in Hcalls, Hres.
    rewrite Hlog in Hcalls. apply app_inv_head in Hcalls.
    now rewrite Hcalls. }
  split; [exact Hembed|]. split; [exact Hquery|]. split; [exact Hstream|].
  injection Hresp as -> ->. now destruct (streamBody J completion_ rt mem).
Qed.

Lemma answered_request_calls_in_order_witness :
  exists allMessages lastMessage mem searchQuery reformTokens
         queryVector results completion_,
    let previous := sliceList allMessages 0 (-1) in
    let question := content lastMessage in
    let generation :=
      answerRequest (buildContext results) (currentSummary mem)
                    (recentMessages mem) question in
    let calls :=
      summarizeCalls previous (summary followUpBody)
                     (summaryMsgCount followUpBody)
      ++ reformulateCalls question mem
      ++ [CallEmbed searchQuery;
          CallQuery (sessionId followUpBody) queryVector 10
                    (filterOf followUpBody);
          CallChatStream generation] in
    reachesAnswer answering followUpBody allMessages lastMessage
    /\ fst (manageMemory previous (summary followUpBody)
                         (summaryMsgCount followUpBody) answering [])
       = Ok mem
    /\ fst (reformulateQuery question (currentSummary mem)
              (recentMessages mem) answering
              ([] ++ summarizeCalls previous (summary followUpBody)
                                    (summaryMsgCount followUpBody)))
       = Ok (searchQuery, reformTokens)
    /\ followUpCalls = [] ++ calls
    /\ succeeded answering calls
    /\ embedText answering searchQuery = Ok queryVector
    /\ queryChunks answering (sessionId followUpBody) queryVector 10
                   (filterOf followUpBody) = Ok results
    /\ chatCreateStream answering generation = Ok completion_
    /\ (followUpChunks, Closed)
       = streamBody someJson completion_ reformTokens mem.
Proof.
  apply (answered_request_calls_in_order
           someJson followUpBody answering [] followUpCalls
           followUpChunks Closed).
  vm_compute. reflexivity.
Defined.

(** ** The turns and the memory *)

Lemma sliceList_nat {A} (l : list A) (s e : Z) :
  0 <= s -> s <= e -> e <= Z.of_nat (length l) ->
  sliceList l s e
  = firstn (Z.to_nat e - Z.to_nat s) (skipn (Z.to_nat s) l).
Proof.
  intros Hs Hse He. unfold sliceList, relIndex.
  destruct (s <? 0) eqn:E1; [apply Z.ltb_lt in E1; lia|].
  destruct (e <? 0) eqn:E2; [apply Z.ltb_lt in E2; lia|].
  rewrite !Z.min_l by lia. f_equal. lia.
Qed.

Lemma sliceFrom_last {A} (l : list A) :
  MAX_RECENT < Z.of_nat (length l) ->
  sliceFrom l (- MAX_RECENT) = skipn (length l - 6) l.
Proof.
  unfold MAX_RECENT. intros Hlen. unfold sliceFrom, sliceList.
  assert (H1 : relIndex (Z.of_nat (length l)) (- (6))
               = Z.of_nat (length l) - 6).
  { unfold relIndex. change (- (6) <? 0) with true. cbv iota. lia. }
  assert (H2 : relIndex (Z.of_nat (length l)) (Z.of_nat (length l))
               = Z.of_nat (length l)).
  { unfold relIndex.
    destruct (Z.of_nat (length l) <? 0) eqn:E; [apply Z.ltb_lt in E|]; lia. }
  rewrite H1, H2.
  replace (Z.to_nat (Z.of_nat (length l) - 6)) with (length l - 6)%nat by lia.
  apply firstn_all2. rewrite length_skipn. lia.
Qed.

Lemma three_parts {A} (l : list A) (a b : nat) :
  l = firstn a l ++ firstn b (skipn a l) ++ skipn (a + b) l.
Proof.
  rewrite <- (firstn_skipn a l) at 1. f_equal.
  rewrite <- (firstn_skipn b (skipn a l)) at 1. f_equal.
  rewrite skipn_skipn. f_equal. lia.
Qed.

(** X11.  The memory management partitions the prior turns.  From an
    index within its bounds, a call that returns leaves every prior
    turn in exactly one of three parts, in order: the turns already
    summarized, the turns it has summarized now, and the recent window,
    which holds the last 6 turns (all of them when there are no more
    than 6).  The index returned is the number of turns before the
    recent window, and the only call made is the summarization of the
    second part, when it is not empty. *)
Theorem memory_partitions_the_turns
        (previous : list Message) (existingSummary : jsstring) (count : Z)
        (svc : Services) (log log' : list Call) (mem : Memory) :
  0 <= count <= boundary previous ->
  manageMemory previous existingSummary count svc log = (Ok mem, log') ->
  previous = firstn (Z.to_nat count) previous
             ++ overflowTurns previous count ++ recentMessages mem
  /\ recentMessages mem = skipn (length previous - 6) previous
  /\ currentSummaryMsgCount mem = boundary previous
  /\ log' = log ++ summarizeCalls previous existingSummary count.
Proof.
  intros Hcount Hrun.
  pose proof (manageMemory_log previous existingSummary count svc log) as Hlog.
  rewrite Hrun in Hlog. simpl in Hlog.
  assert (Hparts :
            recentMessages mem = skipn (length previous - 6) previous
            /\ currentSummaryMsgCount mem = boundary previous
            /\ overflowTurns previous count
               = firstn (length previous - 6 - Z.to_nat count)
                        (skipn (Z.to_nat count) previous)).
  { unfold manageMemory, overflowTurns, boundary in *.
    destruct (MAX_RECENT <? Z.of_nat (length previous)) eqn:Hlong.
    - apply Z.ltb_lt in Hlong.
      assert (Hover : newOverflow previous count
                      = firstn (length previous - 6 - Z.to_nat count)
                               (skipn (Z.to_nat count) previous)).
      { unfold newOverflow. unfold MAX_RECENT in *.
        rewrite sliceList_nat by lia. f_equal. lia. }
      rewrite Hover in *. rewrite (sliceFrom_last previous Hlong) in Hrun.
      destruct (0 <? length (firstn (length previous - 6 - Z.to_nat count)
                                    (skipn (Z.to_nat count) previous)))%nat
        eqn:Hsome.
      + unfold bind, summarizeOverflow, bind, completionsCreate, call, ret
          in Hrun.
        destruct (chatCreate svc _); [|discriminate].
        injection Hrun as <- _. simpl. unfold MAX_RECENT in *.
        split; [reflexivity|]. split; [lia | reflexivity].
      + unfold ret in Hrun. injection Hrun as <- _. simpl.
        split; [reflexivity|]. split; [|reflexivity].
        apply Nat.ltb_ge in Hsome.
        rewrite length_firstn, length_skipn in Hsome.
        unfold MAX_RECENT in *. lia.
    - apply Z.ltb_ge in Hlong. unfold ret in Hrun. injection Hrun as <- _.
      simpl. unfold MAX_RECENT in *.
      replace (length previous - 6)%nat with 0%nat by lia.
      split; [reflexivity|]. split; [lia | reflexivity]. }
  destruct Hparts as (Hrecent & Hindex & Hover).
  split; [|auto]. rewrite Hover, Hrecent.
  unfold boundary, MAX_RECENT in Hcount.
  destruct (Nat.le_gt_cases (Z.to_nat count) (length previous - 6)) as [Hle|Hgt].
  - replace (length previous - 6)%nat
      with (Z.to_nat count + (length previous - 6 - Z.to_nat count))%nat
      at 2 by lia.
    apply three_parts.
  - lia.
Qed.

Lemma memory_partitions_the_turns_witness :
  0 <= 0 <= boundary nine
  /\ nine = firstn (Z.to_nat 0) nine
            ++ overflowTurns nine 0 ++ skipn 3 nine
  /\ skipn 3 nine = skipn (length nine - 6) nine
  /\ 3 = boundary nine
  /\ [CallChat (summarizeRequest (str "") (firstn 3 nine))]
     = [] ++ summarizeCalls nine (str "") 0.
Proof.
  assert (H : 0 <= 0 <= boundary nine) by (vm_compute; split; discriminate).
  split; [exact H|].
  exact (memory_partitions_the_turns
           nine (str "") 0 (summarizer (str "They talked.")) []
           [CallChat (summarizeRequest (str "") (firstn 3 nine))]
           (mkMemory (str "They talked.") 3 (mkTokens 40 10) (skipn 3 nine))
           H eq_refl).
Defined.

(** ** The grounding context *)

Open Scope nat_scope.

Lemma collectParentTexts_nonEmpty :
  forall results seen parentTexts,
    nonEmptyAll parentTexts ->
    nonEmptyAll (collectParentTexts results seen parentTexts).
Proof.
  induction results as [|r more IH]; intros seen parentTexts Hall; simpl;
    [exact Hall|].
  destruct (truthy (pidOf r) && has seen (pidOf r)); [now apply IH|].
  apply IH. destruct (truthy (pTextOf r)) eqn:E; [|exact Hall].
  apply Forall_app. split; [exact Hall|]. now repeat constructor.
Qed.

Lemma join_truthy sep (pieces : list jsstring) :
  nonEmptyAll pieces -> pieces <> [] -> truthy (join sep pieces) = true.
Proof.
  intros Hall Hne. destruct pieces as [|p rest]; [congruence|].
  inversion Hall as [|? ? Hp _]; subst.
  destruct p as [|c p]; [discriminate|]. now destruct rest.
Qed.

(** X12.  The context is never the empty string.  Whatever the search
    returns, the context handed to the generation step has at least one
    character, and every parent text that is joined into it has at
    least one character.  (A parent text may itself hold the delimiter:
    nothing is said of the pieces between two delimiters.) *)
Theorem context_is_never_empty (results : list SearchResult) :
  truthy (buildContext results) = true
  /\ nonEmptyAll (collectParentTexts results [] []).
Proof.
  pose proof (collectParentTexts_nonEmpty results [] [] (Forall_nil _)) as Hall.
  split; [|exact Hall]. unfold buildContext.
  destruct (collectParentTexts results [] []) as [|p rest] eqn:E;
    [reflexivity|].
  cbn [length Nat.ltb Nat.leb]. apply join_truthy; [exact Hall | discriminate].
Qed.

Lemma collectParentTexts_app :
  forall a b seen parentTexts,
    collectParentTexts (a ++ b) seen parentTexts
    = collectParentTexts b (seenAfter a seen)
                         (collectParentTexts a seen parentTexts).
Proof.
  induction a as [|r a IH]; intros b seen parentTexts; simpl; [reflexivity|].
  destruct (truthy (pidOf r) && has seen (pidOf r)); apply IH.
Qed.

Lemma has_app_one seen pid q :
  has (seen ++ [q]) pid = has seen pid || string_eqb pid q.
Proof. unfold has. apply existsb_app_one. Qed.

Lemma seenAfter_keeps pid :
  forall a seen, has seen pid = true -> has (seenAfter a seen) pid = true.
Proof.
  induction a as [|r a IH]; intros seen Hhas; simpl; [exact Hhas|].
  destruct (truthy (pidOf r) && has seen (pidOf r)); [now apply IH|].
  apply IH. destruct (truthy (pidOf r)); [|exact Hhas].
  rewrite has_app_one, Hhas. reflexivity.
Qed.

Lemma seenAfter_has pid :
  truthy pid = true ->
  forall a seen, In pid (map pidOf a) -> has (seenAfter a seen) pid = true.
Proof.
  intros Hpid. induction a as [|r a IH]; intros seen Hin; simpl in *;
    [contradiction|].
  destruct Hin as [Heq | Hin].
  - rewrite Heq, Hpid. cbn [andb].
    destruct (has seen pid) eqn:Hhas.
    + now apply seenAfter_keeps.
    + apply seenAfter_keeps. rewrite has_app_one.
      assert (string_eqb pid pid = true) as -> by now apply string_eqb_eq.
      apply orb_true_r.
  - destruct (truthy (pidOf r) && has seen (pidOf r)); now apply IH.
Qed.

(** X13.  A later match of a parent already seen changes nothing.  For
    any list of matches, taking out a match whose non-empty parent id
    is the parent id of a match before it leaves the context as it
    is, whatever the texts and the scores. *)
Theorem later_duplicate_changes_nothing
        (before after : list SearchResult) (r : SearchResult) :
  truthy (pidOf r) = true ->
  In (pidOf r) (map pidOf before) ->
  buildContext (before ++ r :: after) = buildContext (before ++ after).
Proof.
  intros Hpid Hin. unfold buildContext.
  rewrite !collectParentTexts_app. simpl.
  now rewrite Hpid, (seenAfter_has (pidOf r) Hpid before [] Hin).
Qed.

Lemma later_duplicate_changes_nothing_witness :
  buildContext ([matchOf "c0" "p-0" "A"; matchOf "c1" "p-1" "B"]
                ++ matchOf "c2" "p-0" "C" :: [matchOf "c3" "p-2" "D"])
  = buildContext ([matchOf "c0" "p-0" "A"; matchOf "c1" "p-1" "B"]
                  ++ [matchOf "c3" "p-2" "D"]).
Proof.
  apply (later_duplicate_changes_nothing
           [matchOf "c0" "p-0" "A"; matchOf "c1" "p-1" "B"]
           [matchOf "c3" "p-2" "D"] (matchOf "c2" "p-0" "C")).
  - reflexivity.
  - simpl. now left.
Defined.

(* ================================================================== *)
(** * Further properties of the consumer of the stream *)
(* ================================================================== *)

Open Scope nat_scope.

(** ** What [extractSentinels] removes *)

(** A match of a sentinel pattern: the text before it, the opening, the
    group, the closing mark and white space up to the end. *)
Lemma matchSentinel_sound (open : jsstring) :
  forall s index i g,
    matchSentinel open s index = Some (i, g) ->
    exists before w,
      s = before ++ open ++ g ++ SENTINEL_CLOSE ++ w
      /\ forallb isWhitespace w = true
      /\ i = index + length before.
Proof.
  assert (Hhere : forall s g, matchHere open s = Some g ->
                    exists w, s = open ++ g ++ SENTINEL_CLOSE ++ w
                              /\ forallb isWhitespace w = true).
  { intros s g H. unfold matchHere in H.
    destruct (startsWith open s) eqn:Hopen; [|discriminate].
    destruct (lazyGroup_sound _ _ H) as (w & Hw & Hws & _).
    exists w. split; [|exact Hws].
    rewrite (startsWith_app open s Hopen) at 1. now rewrite Hw. }
  induction s as [|c s IH]; intros index i g H; simpl in H.
  - destruct (matchHere open []) as [g'|] eqn:E; [|discriminate].
    injection H as <- <-. destruct (Hhere _ _ E) as (w & Hw & Hws).
    exists [], w. simpl. rewrite Nat.add_0_r. auto.
  - destruct (matchHere open (c :: s)) as [g'|] eqn:E.
    + injection H as <- <-. destruct (Hhere _ _ E) as (w & Hw & Hws).
      exists [], w. simpl. rewrite Nat.add_0_r. auto.
    + destruct (IH _ _ _ H) as (before & w & -> & Hws & ->).
      exists (c :: before), w. simpl. split; [reflexivity|].
      split; [exact Hws | lia].
Qed.

Lemma firstn_exact {A} (a b : list A) : firstn (0 + length a) (a ++ b) = a.
Proof.
  simpl. rewrite firstn_app, Nat.sub_diag, firstn_all. simpl.
  apply app_nil_r.
Qed.

(** X14.  Only a suffix is cut off.  For every text and every codec,
    the clean text of [extractSentinels] is a prefix of the text: the
    characters shown are those received, in their order, up to a point;
    and what is cut off, when something is, begins with the opening of
    the usage sentinel or of the summary sentinel. *)
Theorem sentinels_cut_a_suffix (J : Json) (text : jsstring) :
  exists cut,
    text = cleanText (extractSentinels J text) ++ cut
    /\ (cut = []
        \/ startsWith USAGE_OPEN cut = true
        \/ startsWith SUMMARY_OPEN cut = true).
Proof.
  unfold extractSentinels.
  destruct (matchSentinel SUMMARY_OPEN text 0) as [[i g]|] eqn:Es.
  - destruct (matchSentinel_sound _ _ _ _ _ Es) as (before & w & -> & _ & ->).
    rewrite firstn_exact.
    destruct (matchSentinel USAGE_OPEN before 0) as [[j g']|] eqn:Eu.
    + destruct (matchSentinel_sound _ _ _ _ _ Eu)
        as (before' & w' & -> & _ & ->).
      rewrite firstn_exact. simpl cleanText.
      eexists. rewrite <- !app_assoc. split; [reflexivity|].
      right. left. apply startsWith_self_app.
    + simpl cleanText. eexists. split; [reflexivity|].
      right. right. apply startsWith_self_app.
  - destruct (matchSentinel USAGE_OPEN text 0) as [[j g']|] eqn:Eu.
    + destruct (matchSentinel_sound _ _ _ _ _ Eu)
        as (before' & w' & -> & _ & ->).
      rewrite firstn_exact. simpl cleanText.
      eexists. split; [reflexivity|].
      right. left. apply startsWith_self_app.
    + simpl cleanText. exists []. rewrite app_nil_r. auto.
Qed.

Lemma hasClosing_cons c s : hasClosing s = true -> hasClosing (c :: s) = true.
Proof. intros H. cbn [hasClosing]. rewrite H. apply orb_true_r. Qed.

Lemma hasClosing_app a s : hasClosing s = true -> hasClosing (a ++ s) = true.
Proof.
  intros H. induction a as [|c a IH]; [exact H|].
  simpl app. now apply hasClosing_cons.
Qed.

Lemma closesHere_hasClosing s : closesHere s = true -> hasClosing s = true.
Proof. intros H. destruct s; cbn [hasClosing]; now rewrite H. Qed.

Lemma matchSentinel_hasClosing (open s : jsstring) (index i : nat) (g : jsstring) :
  matchSentinel open s index = Some (i, g) -> hasClosing s = true.
Proof.
  intros H.
  destruct (matchSentinel_sound _ _ _ _ _ H) as (before & w & -> & Hws & _).
  rewrite !app_assoc, <- app_assoc.
  apply hasClosing_app, closesHere_hasClosing.
  unfold closesHere. rewrite startsWith_self_app.
  rewrite skipn_app, Nat.sub_diag, skipn_all. exact Hws.
Qed.

(** X15.  A text without the closing mark is left as it is.  When the
    text does not end, white space apart, with the closing mark of a
    sentinel (as every prefix of an answer read before the trailer
    arrives, unless an answer itself ends so), [extractSentinels]
    returns it unchanged, with no usage and no summary. *)
Theorem text_without_closing_mark_is_untouched (J : Json) (text : jsstring) :
  hasClosing text = false ->
  extractSentinels J text = mkSentinels text None None.
Proof.
  intros Hnone. unfold extractSentinels.
  destruct (matchSentinel SUMMARY_OPEN text 0) as [[i g]|] eqn:Es.
  { apply matchSentinel_hasClosing in Es. congruence. }
  destruct (matchSentinel USAGE_OPEN text 0) as [[i g]|] eqn:Eu.
  { apply matchSentinel_hasClosing in Eu. congruence. }
  reflexivity.
Qed.

Lemma text_without_closing_mark_is_untouched_witness :
  extractSentinels someJson (str "In 1843 --> as <!--SUMMARY: the notes say")
  = mkSentinels (str "In 1843 --> as <!--SUMMARY: the notes say") None None.
Proof.
  apply (text_without_closing_mark_is_untouched someJson).
  vm_compute. reflexivity.
Defined.

(** X16.  A trailer that cannot be decoded is dropped.  When
    [JSON.parse] throws on the payloads of the trailer, the answer is
    still returned without the trailer, and there is no usage and no
    summary: the failure is not reported. *)
Theorem undecodable_trailer_is_dropped
        (J : Json) (answer ju js : jsstring) :
  parse_usage J ju = None ->
  parse_summary J js = None ->
  noLineTerminator ju -> noAngleBracket ju -> noLineTerminator js ->
  extractSentinels J
    (answer ++ (USAGE_OPEN ++ ju ++ SENTINEL_CLOSE)
            ++ (SUMMARY_OPEN ++ js ++ SENTINEL_CLOSE))
  = mkSentinels answer None None
  /\ extractSentinels J (answer ++ USAGE_OPEN ++ ju ++ SENTINEL_CLOSE)
     = mkSentinels answer None None.
Proof.
  intros Hu Hs Hlu Hau Hls.
  rewrite (extract_with_summary J answer ju js Hlu Hau Hls).
  rewrite (extract_without_summary J answer ju Hlu Hau).
  now rewrite Hu, Hs.
Qed.

Lemma undecodable_trailer_is_dropped_witness :
  extractSentinels deafJson
    (sampleAnswer
     ++ (USAGE_OPEN ++ printUsage sampleUsage ++ SENTINEL_CLOSE)
     ++ (SUMMARY_OPEN ++ printSummary sampleUpdate ++ SENTINEL_CLOSE))
  = mkSentinels sampleAnswer None None
  /\ extractSentinels deafJson
       (sampleAnswer ++ USAGE_OPEN ++ printUsage sampleUsage
        ++ SENTINEL_CLOSE)
     = mkSentinels sampleAnswer None None.
Proof.
  apply (undecodable_trailer_is_dropped
           deafJson sampleAnswer (printUsage sampleUsage)
           (printSummary sampleUpdate));
    vm_compute; reflexivity.
Defined.

(** ** What a submission does to the conversation *)

Open Scope Z_scope.

Lemma POST_returns J request svc log :
  request <> JsonNull ->
  exists response log', POST J request svc log = (Ok response, log').
Proof.
  intros Hnull.
  destruct (POST_cases J request svc log Hnull)
    as [(status & error & Hpost & _)
       | (b & allMessages & lastMessage & _ & _ & Hpost)].
  - eauto.
  - rewrite Hpost. unfold tryCatch.
    destruct (answer J b allMessages lastMessage svc log) as [[r|e] log'];
      unfold ret; eauto.
Qed.

(** X17.  A submission appends one exchange or keeps the turns.
    Whatever the collaborators do, [handleSubmit] throws nothing; when
    it shows an answer, the conversation has its former turns followed
    by the question (trimmed) and an answer that is not blank, and its
    token counts have not decreased; in every other case (an input that
    is blank, an error response, a stream that fails, an answer that is
    blank) the turns, the token counts, the summary and the index of
    the summarized turns are the ones it was given.  (The title, which
    the caller derives from the turns and which is not modelled, is not
    covered: the revert does not restore it.) *)
Theorem submission_appends_or_keeps
        (J : Json) (sid : jsstring) (docs : list jsstring) (c : Conversation)
        (input : jsstring) (svc : Services) (log : list Call) :
  exists c' shown log',
    handleSubmit J sid docs c input svc log = (Ok (c', shown), log')
    /\ ((shown = Answered
         /\ exists answerText,
              truthy (trim answerText) = true
              /\ conv_messages c'
                 = conv_messages c
                   ++ [mkMessage (str "user") (trim input);
                       mkMessage (str "assistant") answerText]
              /\ (u_prompt (conv_tokenUsage c)
                  <= u_prompt (conv_tokenUsage c'))%nat
              /\ (u_completion (conv_tokenUsage c)
                  <= u_completion (conv_tokenUsage c'))%nat
              /\ (u_total (conv_tokenUsage c) <= u_total (conv_tokenUsage c'))%nat)
        \/ (shown <> Answered
            /\ conv_messages c' = conv_messages c
            /\ conv_tokenUsage c' = conv_tokenUsage c
            /\ conv_summary c' = conv_summary c
            /\ conv_summaryMsgCount c' = conv_summaryMsgCount c)).
Proof.
  unfold handleSubmit.
  destruct (truthy (trim input)) eqn:Htext; cbn [negb].
  2:{ exists c, Ignored, log. split; [reflexivity|]. right.
      split; [discriminate | repeat split]. }
  unfold bind.
  destruct (POST_returns J (JsonValue (requestOf sid docs c (trim input)))
                         svc log ltac:(discriminate))
    as (response & log' & ->).
  destruct response as [status error | chunks [|e]].
  - eexists; eexists; eexists. split; [reflexivity|]. right.
    split; [discriminate | repeat split].
  - destruct (truthy (trim (cleanText (extractSentinels J (fullText chunks)))))
      eqn:Hanswer; cbn [negb].
    + eexists; eexists; eexists. split; [reflexivity|]. left.
      split; [reflexivity|].
      exists (cleanText (extractSentinels J (fullText chunks))).
      split; [exact Hanswer|].
      destruct (usage (extractSentinels J (fullText chunks))) as [u|];
        destruct (summary_ (extractSentinels J (fullText chunks))) as [su|];
        simpl; repeat split; try reflexivity; lia.
    + eexists; eexists; eexists. split; [reflexivity|]. right.
      split; [discriminate | repeat split].
  - eexists; eexists; eexists. split; [reflexivity|]. right.
    split; [discriminate | repeat split].
Qed.

(** X18.  An answered turn is recorded as it was streamed.  When [POST]
    streams the body of a completion that does not fail, [JSON.parse]
    inverts [JSON.stringify] on the usage and on the memory state sent,
    their printed forms have no line terminator and that of the usage
    no ["<"], and the answer is not blank, then [handleSubmit] appends
    the question and the answer (the pieces of the stream, joined),
    adds the usage sent to the token counts, and takes over the summary
    and the index of the memory state, when the summary is not
    empty. *)
Theorem answered_turn_is_recorded
        (J : Json) (sid : jsstring) (docs : list jsstring) (c : Conversation)
        (input : jsstring) (svc : Services) (log log' : list Call)
        (completion_ : StreamedCompletion) (reformTokens : Tokens)
        (mem : Memory) :
  let answerText := concat (snd (pump (st_chunks completion_) noTokens [])) in
  let u := totalUsage (fst (pump (st_chunks completion_) noTokens []))
                      reformTokens (summaryTokens mem) in
  let su := mkSummaryUpdate (currentSummary mem) (currentSummaryMsgCount mem) in
  truthy (trim input) = true ->
  POST J (JsonValue (requestOf sid docs c (trim input))) svc log
  = (Ok (Streaming (fst (streamBody J completion_ reformTokens mem))
                   (snd (streamBody J completion_ reformTokens mem))),
     log') ->
  st_failure completion_ = None ->
  parse_usage J (stringify_usage J u) = Some u ->
  parse_summary J (stringify_summary J su) = Some su ->
  noLineTerminator (stringify_usage J u) ->
  noAngleBracket (stringify_usage J u) ->
  noLineTerminator (stringify_summary J su) ->
  truthy (trim answerText) = true ->
  handleSubmit J sid docs c input svc log
  = (Ok (mkConversation
           (conv_messages c
            ++ [mkMessage (str "user") (trim input);
                mkMessage (str "assistant") answerText])
           (mkUsage (u_prompt (conv_tokenUsage c) + u_prompt u)
                    (u_completion (conv_tokenUsage c) + u_completion u)
                    (u_total (conv_tokenUsage c) + u_total u))
           (if truthy (currentSummary mem)
            then currentSummary mem else conv_summary c)
           (if truthy (currentSummary mem)
            then currentSummaryMsgCount mem else conv_summaryMsgCount c),
         Answered),
     log').
Proof.
  intros answerText u su Htext Hpost Hok Hpu Hps Hlu Hau Hls Hanswer.
  destruct (stream_decodes J completion_ reformTokens mem
              Hok Hpu Hps Hlu Hau Hls) as (Hclosed & Hdecoded).
  fold answerText u su in Hdecoded.
  unfold handleSubmit. rewrite Htext. cbn [negb].
  unfold bind. rewrite Hpost, Hclosed, Hdecoded.
  cbn [cleanText usage summary_]. rewrite Hanswer. cbn [negb].
  unfold ret, addTokens, updateSummary.
  destruct (truthy (currentSummary mem)); reflexivity.
Qed.

Lemma answered_turn_is_recorded_witness :
  handleSubmit followUpJson (str "s1") [] shortConversation (str " When? ")
               answering []
  = (Ok (mkConversation
           (oneExchange
            ++ [mkMessage (str "user") (str "When?");
                mkMessage (str "assistant") (str "In 1843.")])
           (mkUsage 120 30 150) (str "") 0,
         Answered),
     followUpCalls).
Proof.
  apply (answered_turn_is_recorded
           followUpJson (str "s1") [] shortConversation (str " When? ")
           answering [] followUpCalls followUpCompletion (mkTokens 40 10)
           (mkMemory (str "") 0 noTokens oneExchange));
    vm_compute; reflexivity.
Defined.

(* ================================================================== *)
(** * Properties of the ingestion path *)
(* ================================================================== *)

Open Scope nat_scope.

(** ** Batches *)

Lemma wellBatched_nil {A} : @wellBatched A [].
Proof. split; constructor. Qed.

Lemma wellBatched_cons {A} (b : list A) (batches : list (list A)) :
  1 <= length b <= 100 ->
  (batches <> [] -> length b = 100) ->
  wellBatched batches -> wellBatched (b :: batches).
Proof.
  intros Hb Hfull [Hsizes Hlast]. split; [now constructor|].
  destruct batches as [|b' more]; [constructor|].
  change (removelast (b :: b' :: more)) with (b :: removelast (b' :: more)).
  constructor; [apply Hfull; discriminate | exact Hlast].
Qed.

Lemma batch_length {A} (l : list A) (i : nat) :
  i < length l ->
  1 <= length (firstn 100 (skipn i l)) <= 100
  /\ (i + 100 < length l -> length (firstn 100 (skipn i l)) = 100).
Proof. intros Hi. rewrite length_firstn, length_skipn. lia. Qed.

Lemma skipn_batch {A} (l : list A) (i : nat) :
  skipn i l = firstn 100 (skipn i l) ++ skipn (i + 100) l.
Proof.
  rewrite <- (firstn_skipn 100 (skipn i l)) at 1. f_equal.
  rewrite skipn_skipn. f_equal. lia.
Qed.

Lemma sliceArray_batch {A} (l : list A) (i : nat) :
  Upload.sliceArray l i (i + 100) = firstn 100 (skipn i l).
Proof. unfold Upload.sliceArray. f_equal. lia. Qed.

(** ** [embedTexts] *)

Lemma embedLoop_done fuel i texts all svc log :
  length texts <= i ->
  Upload.embedLoop fuel i texts all svc log = Some (Ok all, log).
Proof.
  intros Hi. apply Nat.ltb_ge in Hi.
  destruct fuel; cbn [Upload.embedLoop]; now rewrite Hi.
Qed.

Lemma embedLoop_step fuel i texts all svc log :
  i < length texts ->
  Upload.embedLoop (S fuel) i texts all svc log
  = match Upload.embeddingsCreate svc (firstn 100 (skipn i texts)) with
    | Ok data =>
        Upload.embedLoop fuel (i + 100) texts (all ++ data) svc
          (log ++ [Upload.CallEmbeddings (firstn 100 (skipn i texts))])
    | Throw e =>
        Some (Throw e,
              log ++ [Upload.CallEmbeddings (firstn 100 (skipn i texts))])
    end.
Proof.
  intros Hi. apply Nat.ltb_lt in Hi. cbn [Upload.embedLoop]. rewrite Hi.
  unfold Upload.andThen, Upload.remote, Upload.BATCH_SIZE.
  rewrite sliceArray_batch.
  now destruct (Upload.embeddingsCreate svc (firstn 100 (skipn i texts))).
Qed.

Lemma embedLoop_spec svc texts :
  forall fuel i all log,
    length texts - i <= fuel ->
    exists result batches,
      Upload.embedLoop fuel i texts all svc log
      = Some (result, log ++ map Upload.CallEmbeddings batches)
      /\ wellBatched batches
      /\ (length texts <= i -> batches = [])
      /\ match result with
         | Ok out =>
             concat batches = skipn i texts
             /\ exists data,
                  Forall2 (fun b d => Upload.embeddingsCreate svc b = Ok d)
                          batches data
                  /\ out = all ++ concat data
         | Throw e =>
             exists before failed rest,
               batches = before ++ [failed]
               /\ embedded svc before
               /\ Upload.embeddingsCreate svc failed = Throw e
               /\ skipn i texts = concat batches ++ rest
         end.
Proof.
  induction fuel as [|fuel IH]; intros i all log Hfuel.
  - exists (Ok all), []. rewrite embedLoop_done by lia.
    simpl. rewrite app_nil_r. split; [reflexivity|].
    split; [apply wellBatched_nil|]. split; [reflexivity|].
    split; [now rewrite skipn_all2 by lia|].
    exists []. split; [constructor | now rewrite app_nil_r].
  - destruct (Nat.le_gt_cases (length texts) i) as [Hdone | Hmore].
    + exists (Ok all), []. rewrite embedLoop_done by lia.
      simpl. rewrite app_nil_r. split; [reflexivity|].
      split; [apply wellBatched_nil|]. split; [reflexivity|].
      split; [now rewrite skipn_all2 by lia|].
      exists []. split; [constructor | now rewrite app_nil_r].
    + rewrite (embedLoop_step fuel i texts all svc log Hmore).
      destruct (batch_length texts i Hmore) as [Hsize Hfull].
      set (batch := firstn 100 (skipn i texts)) in *.
      destruct (Upload.embeddingsCreate svc batch) as [data|e] eqn:Hcall.
      * destruct (IH (i + 100) (all ++ data)
                     (log ++ [Upload.CallEmbeddings batch]))
          as (result & batches & Hrun & Hwell & Hnone & Hres); [lia|].
        exists result, (batch :: batches). rewrite Hrun.
        simpl. rewrite <- app_assoc. split; [reflexivity|].
        split.
        { apply wellBatched_cons; [exact Hsize| |exact Hwell].
          intros Hne. apply Hfull.
          destruct (Nat.le_gt_cases (length texts) (i + 100)); [|assumption].
          now contradiction Hne; apply Hnone. }
        split; [lia|].
        destruct result as [out|e].
        -- destruct Hres as (Hcat & datas & Hall & ->).
           split.
           { rewrite Hcat. symmetry. apply skipn_batch. }
           exists (data :: datas). split; [now constructor|].
           simpl. now rewrite app_assoc.
        -- destruct Hres as (before & failed & rest & -> & Hbefore & Hfail
                             & Hrest).
           exists (batch :: before), failed, rest.
           split; [reflexivity|].
           split; [constructor; [now exists data | exact Hbefore]|].
           split; [exact Hfail|].
           rewrite (skipn_batch texts i), Hrest. simpl.
           now rewrite <- app_assoc.
      * exists (Throw e), [batch]. split; [reflexivity|].
        split.
        { apply wellBatched_cons; [exact Hsize| |apply wellBatched_nil].
          congruence. }
        split; [lia|].
        exists [], batch, (skipn (i + 100) texts).
        split; [reflexivity|]. split; [constructor|].
        split; [exact Hcall|].
        simpl. rewrite app_nil_r. apply skipn_batch.
Qed.

(** X19.  [embedTexts] sends the texts in batches.  Whatever the
    endpoint does, [embedTexts] returns or throws, and the calls it
    makes carry consecutive runs of the texts, in order: at most 100
    texts in a call, exactly 100 in each but the last, and none for an
    empty list.  When it returns, the runs together are all the texts
    and the result is the responses put end to end; when it throws, the
    last call is the one that threw and every call before it returned. *)
Theorem embedTexts_sends_batches
        (texts : list jsstring) (svc : Upload.Backend)
        (log : list Upload.NetCall) :
  exists result batches,
    Upload.embedTexts texts svc log
    = Some (result, log ++ map Upload.CallEmbeddings batches)
    /\ wellBatched batches
    /\ match result with
       | Ok all =>
           concat batches = texts
           /\ exists data,
                Forall2 (fun b d => Upload.embeddingsCreate svc b = Ok d)
                        batches data
                /\ all = concat data
       | Throw e =>
           exists before failed rest,
             batches = before ++ [failed]
             /\ embedded svc before
             /\ Upload.embeddingsCreate svc failed = Throw e
             /\ texts = concat batches ++ rest
       end.
Proof.
  destruct (embedLoop_spec svc texts (length texts) 0 [] log)
    as (result & batches & Hrun & Hwell & _ & Hres); [lia|].
  exists result, batches. split; [exact Hrun|]. split; [exact Hwell|].
  exact Hres.
Qed.

(** ** [upsertChunks] *)

Lemma upsertLoop_done fuel i namespace chunks svc log :
  length chunks <= i ->
  Upload.upsertLoop fuel i namespace chunks svc log = Some (Ok tt, log).
Proof.
  intros Hi. apply Nat.ltb_ge in Hi.
  destruct fuel; cbn [Upload.upsertLoop]; now rewrite Hi.
Qed.

Lemma upsertLoop_step fuel i namespace chunks svc log :
  i < length chunks ->
  Upload.upsertLoop (S fuel) i namespace chunks svc log
  = match Upload.indexUpsert svc namespace (firstn 100 (skipn i chunks)) with
    | Ok _ =>
        Upload.upsertLoop fuel (i + 100) namespace chunks svc
          (log ++ [Upload.CallUpsert namespace (firstn 100 (skipn i chunks))])
    | Throw e =>
        Some (Throw e,
              log ++ [Upload.CallUpsert namespace
                        (firstn 100 (skipn i chunks))])
    end.
Proof.
  intros Hi. apply Nat.ltb_lt in Hi. cbn [Upload.upsertLoop]. rewrite Hi.
  unfold Upload.andThen, Upload.remote, Upload.BATCH.
  rewrite sliceArray_batch.
  now destruct (Upload.indexUpsert svc namespace
                  (firstn 100 (skipn i chunks))).
Qed.

Lemma upsertLoop_spec svc namespace chunks :
  forall fuel i log,
    length chunks - i <= fuel ->
    exists result batches,
      Upload.upsertLoop fuel i namespace chunks svc log
      = Some (result, log ++ map (Upload.CallUpsert namespace) batches)
      /\ wellBatched batches
      /\ (length chunks <= i -> batches = [])
      /\ match result with
         | Ok _ =>
             concat batches = skipn i chunks
             /\ Forall (fun b => Upload.indexUpsert svc namespace b = Ok tt)
                       batches
         | Throw e =>
             exists before failed rest,
               batches = before ++ [failed]
               /\ Forall (fun b => Upload.indexUpsert svc namespace b = Ok tt)
                         before
               /\ Upload.indexUpsert svc namespace failed = Throw e
               /\ skipn i chunks = concat batches ++ rest
         end.
Proof.
  induction fuel as [|fuel IH]; intros i log Hfuel.
  - exists (Ok tt), []. rewrite upsertLoop_done by lia.
    simpl. rewrite app_nil_r. split; [reflexivity|].
    split; [apply wellBatched_nil|]. split; [reflexivity|].
    split; [now rewrite skipn_all2 by lia | constructor].
  - destruct (Nat.le_gt_cases (length chunks) i) as [Hdone | Hmore].
    + exists (Ok tt), []. rewrite upsertLoop_done by lia.
      simpl. rewrite app_nil_r. split; [reflexivity|].
      split; [apply wellBatched_nil|]. split; [reflexivity|].
      split; [now rewrite skipn_all2 by lia | constructor].
    + rewrite (upsertLoop_step fuel i namespace chunks svc log Hmore).
      destruct (batch_length chunks i Hmore) as [Hsize Hfull].
      set (batch := firstn 100 (skipn i chunks)) in *.
      destruct (Upload.indexUpsert svc namespace batch) as [[]|e] eqn:Hcall.
      * destruct (IH (i + 100)
                     (log ++ [Upload.CallUpsert namespace batch]))
          as (result & batches & Hrun & Hwell & Hnone & Hres); [lia|].
        exists result, (batch :: batches). rewrite Hrun.
        simpl. rewrite <- app_assoc. split; [reflexivity|].
        split.
        { apply wellBatched_cons; [exact Hsize| |exact Hwell].
          intros Hne. apply Hfull.
          destruct (Nat.le_gt_cases (length chunks) (i + 100)); [|assumption].
          now contradiction Hne; apply Hnone. }
        split; [lia|].
        destruct result as [[]|e].
        -- destruct Hres as (Hcat & Hall).
           split; [|now constructor].
           rewrite Hcat. symmetry. apply skipn_batch.
        -- destruct Hres as (before & failed & rest & -> & Hbefore & Hfail
                             & Hrest).
           exists (batch :: before), failed, rest.
           split; [reflexivity|].
           split; [now constructor|].
           split; [exact Hfail|].
           rewrite (skipn_batch chunks i), Hrest. simpl.
           now rewrite <- app_assoc.
      * exists (Throw e), [batch]. split; [reflexivity|].
        split.
        { apply wellBatched_cons; [exact Hsize| |apply wellBatched_nil].
          congruence. }
        split; [lia|].
        exists [], batch, (skipn (i + 100) chunks).
        split; [reflexivity|]. split; [constructor|].
        split; [exact Hcall|].
        simpl. rewrite app_nil_r. apply skipn_batch.
Qed.

(** X20.  [upsertChunks] writes the records in batches.  Whatever the
    index does, [upsertChunks] returns or throws, and its calls carry
    consecutive runs of the records, in order, all to the namespace
    given: at most 100 records in a call, exactly 100 in each but the
    last, none for an empty list.  When it returns, the runs together
    are all the records; when it throws, the last call is the one that
    threw, and the runs before it have been written and stay so. *)
Theorem upsertChunks_writes_batches
        (namespace : jsstring) (chunks : list Upload.VectorRecord)
        (svc : Upload.Backend) (log : list Upload.NetCall) :
  exists result batches,
    Upload.upsertChunks namespace chunks svc log
    = Some (result, log ++ map (Upload.CallUpsert namespace) batches)
    /\ wellBatched batches
    /\ match result with
       | Ok _ =>
           concat batches = chunks
           /\ Forall (fun b => Upload.indexUpsert svc namespace b = Ok tt)
                     batches
       | Throw e =>
           exists before failed rest,
             batches = before ++ [failed]
             /\ Forall (fun b => Upload.indexUpsert svc namespace b = Ok tt)
                       before
             /\ Upload.indexUpsert svc namespace failed = Throw e
             /\ chunks = concat batches ++ rest
       end.
Proof.
  destruct (upsertLoop_spec svc namespace chunks (length chunks) 0 log)
    as (result & batches & Hrun & Hwell & _ & Hres); [lia|].
  exists result, batches. split; [exact Hrun|]. split; [exact Hwell|].
  exact Hres.
Qed.

(** ** The upload route *)

Lemma parentChildChunk_inv
      (text : jsstring)
      (parentSize parentOverlap childSize childOverlap : nat)
      (parents : list ParentChunk) (children : list ChildChunk) :
  parentChildChunk text parentSize parentOverlap childSize childOverlap
    = Some (parents, children) ->
  exists texts,
    splitAndMerge text parentSize parentOverlap = Some texts
    /\ parents = mkParents 0 texts
    /\ childrenOf parents childSize childOverlap [] = Some children.
Proof.
  unfold parentChildChunk. intros Hrun.
  destruct (splitAndMerge text parentSize parentOverlap) as [texts|];
    [|discriminate].
  destruct (childrenOf (mkParents 0 texts) childSize childOverlap [])
    as [kids|] eqn:Hkids; [|discriminate].
  injection Hrun as <- <-. exists texts. auto.
Qed.

Lemma parentChildChunk_returns
      (text : jsstring)
      (parentSize parentOverlap childSize childOverlap : nat) :
  0 < parentSize -> 0 < childSize ->
  exists parents children,
    parentChildChunk text parentSize parentOverlap childSize childOverlap
      = Some (parents, children)
    /\ shortAll (parentSize + parentOverlap + 1) (map p_text parents)
    /\ shortAll (childSize + childOverlap + 1) (map c_text children).
Proof.
  intros Hp Hc. unfold parentChildChunk.
  destruct (splitAndMerge_short text parentSize parentOverlap Hp)
    as (texts & -> & Hshort).
  destruct (childrenOf_spec childSize childOverlap Hc (mkParents 0 texts) [])
    as (children & -> & Hks); [constructor|].
  eexists; eexists; split; [reflexivity|].
  rewrite mkParents_texts. auto.
Qed.

Lemma parseDocument_local buffer fileName svc :
  exists result,
    forall log,
      Upload.parseDocument buffer fileName svc log = Some (result, log).
Proof.
  unfold Upload.parseDocument.
  destruct (string_eqb _ (str "pdf")); [unfold Upload.local; eauto|].
  destruct (string_eqb _ (str "docx")); [unfold Upload.local; eauto|].
  destruct (string_eqb _ (str "epub")); [unfold Upload.local; eauto|].
  destruct (string_eqb _ (str "txt") || string_eqb _ (str "md"));
    unfold Upload.local; eauto.
Qed.

(** What the [try] block of the upload route does, case by case. *)
Lemma ingest_runs form svc log :
  exists result sid ebatches ubatches,
    Upload.ingest form svc log
    = Some (result, log ++ ingestCalls sid ebatches ubatches)
    /\ wellBatched ebatches /\ wellBatched ubatches
    /\ (ubatches = []
        \/ (embedded svc ebatches /\ Upload.fd_sessionId form = Some sid))
    /\ match result with
       | Ok (Upload.ErrorResponse status _) =>
           status = 400 /\ ebatches = [] /\ ubatches = []
       | Ok response =>
           exists parents children,
             ingested svc form response parents children sid ebatches ubatches
       | Throw _ => True
       end.
Proof.
  assert (Hquiet : forall result,
            match result with
            | Ok (Upload.ErrorResponse status _) => status = 400
            | Ok _ => False
            | Throw _ => True
            end ->
            exists (r : Result Upload.Response) sid ebatches ubatches,
              Some (result, log)
              = Some (r, log ++ ingestCalls sid ebatches ubatches)
              /\ wellBatched ebatches /\ wellBatched ubatches
              /\ (ubatches = []
                  \/ (embedded svc ebatches
                      /\ Upload.fd_sessionId form = Some sid))
              /\ match r with
                 | Ok (Upload.ErrorResponse status _) =>
                     status = 400 /\ ebatches = [] /\ ubatches = []
                 | Ok response =>
                     exists parents children,
                       ingested svc form response parents children sid
                                ebatches ubatches
                 | Throw _ => True
                 end).
  { intros result Hresult. exists result, [], [], [].
    unfold ingestCalls. simpl. rewrite app_nil_r.
    split; [reflexivity|]. split; [apply wellBatched_nil|].
    split; [apply wellBatched_nil|]. split; [now left|].
    destruct result as [[status error|]|e]; auto. contradiction. }
  unfold Upload.ingest.
  destruct (Upload.fd_file form) as [file|] eqn:Hfile;
    [|now apply Hquiet].
  destruct (Upload.fd_sessionId form) as [sid|] eqn:Hsid; cbn [truthy negb];
    [|now apply Hquiet].
  destruct (truthy sid) eqn:Hsidok; cbn [negb]; [|now apply Hquiet].
  unfold Upload.andThen at 1.
  destruct (parseDocument_local (Upload.f_buffer file) (Upload.f_name file)
              svc) as (parsed & Hparsed).
  rewrite Hparsed.
  destruct parsed as [text|e]; [|now apply (Hquiet (Throw e))].
  destruct (truthy (trim text)) eqn:Htext; cbn [negb]; [|now apply Hquiet].
  unfold Upload.andThen at 1, Upload.returned.
  destruct (parentChildChunk_returns text 2000 200 400 50)
    as (parents & children & Hchunks & _);
    [apply Nat.lt_0_succ | apply Nat.lt_0_succ |].
  rewrite Hchunks. unfold Upload.andThen at 1, Upload.embedTexts.
  destruct (embedLoop_spec svc (map c_text children)
              (length (map c_text children)) 0 [] log)
    as (eres & ebatches & -> & Hewell & _ & Heres); [lia|].
  destruct eres as [embeddings|e].
  2:{ exists (Throw e), sid, ebatches, []. unfold ingestCalls. simpl.
      rewrite app_nil_r. split; [reflexivity|]. split; [exact Hewell|].
      split; [apply wellBatched_nil|]. split; [now left | exact I]. }
  destruct Heres as (Hecat & data & Hdata & Hall). simpl in Hecat, Hall.
  assert (Hembedded : embedded svc ebatches).
  { clear - Hdata. induction Hdata; constructor; eauto. }
  unfold Upload.andThen at 1, Upload.local.
  unfold Upload.andThen at 1, Upload.upsertChunks.
  set (vectors := Upload.mkVectors (Upload.uuidv4 svc) (Upload.f_name file)
                    (map (fun p => (p_id p, p_text p)) parents)
                    embeddings 0 children).
  destruct (upsertLoop_spec svc sid vectors (length vectors) 0
              (log ++ map Upload.CallEmbeddings ebatches))
    as (ures & ubatches & -> & Huwell & _ & Hures); [lia|].
  destruct ures as [[]|e].
  2:{ exists (Throw e), sid, ebatches, ubatches. unfold ingestCalls.
      rewrite <- app_assoc. split; [reflexivity|]. split; [exact Hewell|].
      split; [exact Huwell|]. split; [right; now split | exact I]. }
  destruct Hures as (Hucat & Hwritten). simpl in Hucat.
  eexists (Ok _), sid, ebatches, ubatches. unfold ingestCalls, Upload.pure.
  rewrite <- app_assoc. split; [reflexivity|]. split; [exact Hewell|].
  split; [exact Huwell|]. split; [right; now split|].
  exists parents, children, file, text, embeddings.
  repeat (split; [assumption || reflexivity|]). reflexivity.
Qed.

Lemma POST_ingest request svc log :
  Upload.POST request svc log
  = match request with
    | Ok form =>
        match Upload.ingest form svc log with
        | Some (Ok response, log') => Some (response, log')
        | Some (Throw error, log') =>
            Some (Upload.ErrorResponse 500 (Upload.messageOf error), log')
        | None => None
        end
    | Throw error =>
        Some (Upload.ErrorResponse 500 (Upload.messageOf error), log)
    end.
Proof.
  unfold Upload.POST, Upload.andThen, Upload.local.
  now destruct request.
Qed.

(** X21.  The upload route always answers.  Whatever the form and the
    collaborators, [POST] returns a response: it throws nothing and its
    loops end.  The calls it makes are embedding calls followed by
    writes to one namespace, each in batches; a write is made only when
    every embedding call has returned, and the namespace written to is
    the [sessionId] of the form; an error response has status 500, or
    status 400 and then no call was made; a success response means that
    every call returned and counts the records written. *)
Theorem upload_always_answers
        (request : Result Upload.FormData) (svc : Upload.Backend)
        (log : list Upload.NetCall) :
  exists response sid ebatches ubatches,
    Upload.POST request svc log
    = Some (response, log ++ ingestCalls sid ebatches ubatches)
    /\ wellBatched ebatches /\ wellBatched ubatches
    /\ (ubatches = []
        \/ (embedded svc ebatches
            /\ exists form,
                 request = Ok form /\ Upload.fd_sessionId form = Some sid))
    /\ match response with
       | Upload.ErrorResponse status _ =>
           status = 500 \/ (status = 400 /\ ebatches = [] /\ ubatches = [])
       | Upload.Uploaded _ _ chunkCount _ _ =>
           embedded svc ebatches
           /\ Forall (fun b => Upload.indexUpsert svc sid b = Ok tt) ubatches
           /\ length (concat ubatches) = chunkCount
       end.
Proof.
  rewrite POST_ingest. destruct request as [form|e].
  2:{ exists (Upload.ErrorResponse 500 (Upload.messageOf e)), [], [], [].
      unfold ingestCalls. simpl. rewrite app_nil_r.
      split; [reflexivity|]. split; [apply wellBatched_nil|].
      split; [apply wellBatched_nil|]. split; [now left | now left]. }
  destruct (ingest_runs form svc log)
    as (result & sid & ebatches & ubatches & -> & Hewell & Huwell & Horder'
        & Hres).
  assert (Horder : ubatches = []
                   \/ (embedded svc ebatches
                       /\ exists form0,
                            Ok form = Ok form0
                            /\ Upload.fd_sessionId form0 = Some sid)).
  { destruct Horder' as [Hnone | [Hemb Hsid]]; [now left|].
    right. split; [exact Hemb|]. now exists form. }
  destruct result as [response|e].
  - exists response, sid, ebatches, ubatches. split; [reflexivity|].
    split; [exact Hewell|]. split; [exact Huwell|]. split; [exact Horder|].
    destruct response as [status error | id fileName chunkCount pc fs].
    + right. exact Hres.
    + destruct Hres as (parents & children & file & text & embeddings
                        & _ & _ & _ & _ & _ & _ & Hucat & Hemb & Hwr & Hresp).
      injection Hresp as _ _ -> _ _.
      split; [exact Hemb|]. split; [exact Hwr|].
      rewrite Hucat. clear.
      generalize 0 at 1. induction children as [|c cs IH]; intros i; simpl;
        [reflexivity|]. now rewrite IH.
  - exists (Upload.ErrorResponse 500 (Upload.messageOf e)), sid, ebatches,
      ubatches.
    split; [reflexivity|]. split; [exact Hewell|]. split; [exact Huwell|].
    split; [exact Horder | now left].
Qed.

Lemma upload_always_answers_example :
  Upload.POST (Ok notesForm) plainBackend []
  = Some (Upload.Uploaded (str "doc-1") (str "notes.v2.TXT") 1 1 10,
          [Upload.CallEmbeddings [str "aaaa. bbbb"];
           Upload.CallUpsert (str "s1")
             [Upload.mkVectorRecord
                (str "doc-1-c0") (Some [10%Z])
                (Upload.mkMetadata (str "aaaa. bbbb") (str "aaaa. bbbb")
                                   (str "p-0") 0 (str "notes.v2.TXT") 0
                                   (str "doc-1"))]]).
Proof. vm_compute. reflexivity. Qed.

(** *** The format of the file *)

Lemma splitFrom_dot_cons (c : codeUnit) (s cur : jsstring) :
  splitFrom [Latin "."] 0 cur (c :: s)
  = if char_eqb (Latin ".") c
    then cur :: splitFrom [Latin "."] 0 [] s
    else splitFrom [Latin "."] 0 (cur ++ [c]) s.
Proof.
  cbn [splitFrom startsWith length Nat.sub].
  now destruct (char_eqb (Latin ".") c).
Qed.

Lemma splitFrom_noDot :
  forall ext cur,
    noDot ext -> splitFrom [Latin "."] 0 cur ext = [cur ++ ext].
Proof.
  induction ext as [|c ext IH]; intros cur Hno.
  - simpl. now rewrite app_nil_r.
  - unfold noDot in Hno. cbn [forallb] in Hno. apply andb_prop in Hno.
    destruct Hno as [Hc Hext]. apply negb_true_iff in Hc.
    rewrite splitFrom_dot_cons, Hc, (IH _ Hext), <- app_assoc. reflexivity.
Qed.

Lemma last_cons_nonempty {A} (a : A) (l : list A) (d : A) :
  l <> [] -> last (a :: l) d = last l d.
Proof. destruct l; [congruence | reflexivity]. Qed.

Lemma splitFrom_last_dot :
  forall stem cur ext,
    noDot ext ->
    last (splitFrom [Latin "."] 0 cur (stem ++ (Latin ".") :: ext)) [] = ext.
Proof.
  induction stem as [|c stem IH]; intros cur ext Hno.
  - change ([] ++ (Latin ".") :: ext) with ((Latin ".") :: ext).
    rewrite splitFrom_dot_cons. change (char_eqb (Latin ".") (Latin ".")) with true.
    cbv iota. now rewrite (splitFrom_noDot ext [] Hno).
  - change ((c :: stem) ++ (Latin ".") :: ext)
      with (c :: (stem ++ (Latin ".") :: ext)).
    rewrite splitFrom_dot_cons. destruct (char_eqb (Latin ".") c).
    + rewrite last_cons_nonempty by apply splitFrom_nonempty.
      now apply IH.
    + now apply IH.
Qed.

Lemma extensionOf_last (stem ext : jsstring) :
  noDot ext ->
  Upload.extensionOf (stem ++ str "." ++ ext) = Upload.toLowerCase ext.
Proof.
  intros Hno. unfold Upload.extensionOf, split.
  change (str ".") with [Latin "."].
  change (stem ++ [Latin "."] ++ ext) with (stem ++ (Latin ".") :: ext).
  now rewrite splitFrom_last_dot.
Qed.

Lemma extensionOf_noDot (name : jsstring) :
  noDot name -> Upload.extensionOf name = Upload.toLowerCase name.
Proof.
  intros Hno. unfold Upload.extensionOf, split.
  change (str ".") with [Latin "."].
  now rewrite (splitFrom_noDot name [] Hno).
Qed.

(** X22.  The format is read off the end of the file name.
    [parseDocument] looks at the characters after the last dot of the
    name, in lower case (at the whole name when it has no dot).  When
    these are none of pdf, docx, epub, txt and md, it throws, and the
    upload route answers with status 500, not 400, and the message
    ["Unsupported file format: ."] followed by them, without a call. *)
Theorem unsupported_format_is_a_server_error
        (stem ext sid : jsstring) (size : nat) (buffer : Upload.Buffer)
        (svc : Upload.Backend) (log : list Upload.NetCall) :
  noDot ext ->
  supported (Upload.toLowerCase ext) = false ->
  truthy sid = true ->
  Upload.extensionOf (stem ++ str "." ++ ext) = Upload.toLowerCase ext
  /\ Upload.extensionOf ext = Upload.toLowerCase ext
  /\ Upload.POST
       (Ok (Upload.mkFormData
              (Some (Upload.mkFile (stem ++ str "." ++ ext) size buffer))
              (Some sid)))
       svc log
     = Some (Upload.ErrorResponse 500
               (str "Unsupported file format: ." ++ Upload.toLowerCase ext),
             log).
Proof.
  intros Hno Hformat Hsid.
  pose proof (extensionOf_last stem ext Hno) as Hext.
  split; [exact Hext|]. split; [now apply extensionOf_noDot|].
  rewrite POST_ingest. unfold Upload.ingest. cbn [Upload.fd_file
    Upload.fd_sessionId Upload.f_name Upload.f_buffer].
  rewrite Hsid. cbn [negb].
  unfold Upload.andThen at 1, Upload.parseDocument. rewrite Hext.
  unfold supported in Hformat.
  repeat (apply orb_false_elim in Hformat;
          destruct Hformat as [Hformat ?]).
  rewrite Hformat.
  repeat match goal with H : string_eqb _ _ = false |- _ => rewrite H end.
  reflexivity.
Qed.

Lemma unsupported_format_is_a_server_error_witness :
  Upload.extensionOf (str "report.final" ++ str "." ++ str "ODT")
  = Upload.toLowerCase (str "ODT")
  /\ Upload.extensionOf (str "ODT") = Upload.toLowerCase (str "ODT")
  /\ Upload.POST
       (Ok (Upload.mkFormData
              (Some (Upload.mkFile (str "report.final" ++ str "." ++ str "ODT")
                                   10 (list_ascii_of_string "aaaa. bbbb")))
              (Some (str "s1"))))
       plainBackend []
     = Some (Upload.ErrorResponse 500
               (str "Unsupported file format: ."
                ++ Upload.toLowerCase (str "ODT")),
             []).
Proof.
  apply (unsupported_format_is_a_server_error
           (str "report.final") (str "ODT") (str "s1") 10 (list_ascii_of_string "aaaa. bbbb")
           plainBackend []);
    reflexivity.
Defined.

(** *** The records written *)

Lemma mkVectors_length docId fileName parentMap embeddings children :
  forall i,
    length (Upload.mkVectors docId fileName parentMap embeddings i children)
    = length children.
Proof. induction children as [|c cs IH]; intros i; simpl; auto. Qed.

Lemma mkVectors_ids docId fileName parentMap embeddings children :
  forall i,
    map Upload.v_id
        (Upload.mkVectors docId fileName parentMap embeddings i children)
    = map (fun k => docId ++ str "-c" ++ ofNat k) (seq i (length children)).
Proof.
  induction children as [|c cs IH]; intros i; simpl; [reflexivity|].
  now rewrite IH.
Qed.

Lemma mkVectors_Forall2 docId fileName parentMap embeddings children :
  forall i,
    Forall2 (fun child v =>
               Upload.v_metadata v
               = Upload.mkMetadata
                   (c_text child)
                   (match Upload.mapGet parentMap (c_parentId child) with
                    | Some parentText => parentText
                    | None => c_text child
                    end)
                   (c_parentId child) (c_childIndex child) fileName
                   (c_index child) docId)
            children
            (Upload.mkVectors docId fileName parentMap embeddings i children).
Proof.
  induction children as [|c cs IH]; intros i; simpl; constructor;
    [reflexivity | apply IH].
Qed.

Lemma record_ids_NoDup (docId : jsstring) (i n : nat) :
  NoDup (map (fun k => docId ++ str "-c" ++ ofNat k) (seq i n)).
Proof.
  revert i. induction n as [|n IH]; intros i; simpl; constructor.
  - intros Hin. apply in_map_iff in Hin. destruct Hin as (k & Hk & Hin).
    apply app_inv_head, (app_inv_head (str "-c")), ofNat_inj in Hk.
    apply in_seq in Hin. lia.
  - apply IH.
Qed.

Lemma mapGet_absent entries key :
  ~ In key (map fst entries) -> Upload.mapGet entries key = None.
Proof.
  induction entries as [|[k v] more IH]; intros Hnot; simpl in *;
    [reflexivity|].
  rewrite IH by tauto.
  destruct (string_eqb k key) eqn:E; [|reflexivity].
  apply string_eqb_eq in E. tauto.
Qed.

Lemma mapGet_present entries key value :
  NoDup (map fst entries) -> In (key, value) entries ->
  Upload.mapGet entries key = Some value.
Proof.
  induction entries as [|[k v] more IH]; intros Hnd Hin; simpl in *;
    [contradiction|].
  inversion Hnd as [|? ? Hnotin Hnd']; subst.
  destruct Hin as [[= -> ->] | Hin].
  - rewrite (mapGet_absent more key Hnotin).
    now rewrite string_eqb_refl.
  - now rewrite (IH Hnd' Hin).
Qed.

Lemma children_index_seq
      (text : jsstring)
      (parentSize parentOverlap childSize childOverlap : nat)
      (parents : list ParentChunk) (children : list ChildChunk) :
  parentChildChunk text parentSize parentOverlap childSize childOverlap
    = Some (parents, children) ->
  map c_index children = seq 0 (length children).
Proof.
  intros Hrun.
  destruct (parentChildChunk_inv _ _ _ _ _ _ _ Hrun) as (texts & _ & _ & Hkids).
  destruct (childrenOf_blocks _ _ _ _ _ Hkids) as (blocks & _ & ->).
  simpl. apply blocksFrom_index.
Qed.

Lemma POST_uploaded request svc log response log' :
  Upload.POST request svc log = Some (response, log') ->
  (exists id fileName chunkCount parentCount fileSize,
      response = Upload.Uploaded id fileName chunkCount parentCount fileSize) ->
  exists form parents children sid ebatches ubatches,
    request = Ok form
    /\ log' = log ++ ingestCalls sid ebatches ubatches
    /\ ingested svc form response parents children sid ebatches ubatches.
Proof.
  intros Hpost (id & fileName & cc & pc & fs & ->).
  rewrite POST_ingest in Hpost. destruct request as [form|e]; [|discriminate].
  destruct (ingest_runs form svc log)
    as (result & sid & ebatches & ubatches & Hrun & _ & _ & _ & Hres).
  rewrite Hrun in Hpost. destruct result as [response|e]; [|discriminate].
  injection Hpost as -> <-.
  destruct Hres as (parents & children & Hres).
  exists form, parents, children, sid, ebatches, ubatches. auto.
Qed.

(** X23.  One record for each child, under the identifier of the
    document.  When the upload route answers with success, the texts
    sent to the embedding endpoint are, in order, the texts of the
    records written; there are [chunkCount] records; the id of the
    record at position [i] is the document id followed by ["-c"] and
    [i], so that no two records share an id, and its [chunkIndex] is
    [i] as well; every record names the document and the file. *)
Theorem upload_writes_one_record_per_child
        (request : Result Upload.FormData) (svc : Upload.Backend)
        (log log' : list Upload.NetCall)
        (id fileName : jsstring) (chunkCount parentCount fileSize : nat) :
  Upload.POST request svc log
  = Some (Upload.Uploaded id fileName chunkCount parentCount fileSize, log') ->
  exists sid ebatches ubatches,
    let records := concat ubatches in
    log' = log ++ ingestCalls sid ebatches ubatches
    /\ concat ebatches
       = map (fun v => Upload.md_text (Upload.v_metadata v)) records
    /\ length records = chunkCount
    /\ map Upload.v_id records
       = map (fun i => id ++ str "-c" ++ ofNat i) (seq 0 chunkCount)
    /\ NoDup (map Upload.v_id records)
    /\ map (fun v => Upload.md_chunkIndex (Upload.v_metadata v)) records
       = seq 0 chunkCount
    /\ Forall (fun v => Upload.md_docId (Upload.v_metadata v) = id
                        /\ Upload.md_source (Upload.v_metadata v) = fileName)
              records.
Proof.
  intros Hpost.
  destruct (POST_uploaded _ _ _ _ _ Hpost)
    as (form & parents & children & sid & ebatches & ubatches & _ & Hlog
        & file & text & embeddings & _ & _ & _ & _ & Hchunks & Hecat & Hucat
        & _ & _ & Hresp); [eauto 6|].
  injection Hresp as -> -> -> -> ->.
  exists sid, ebatches, ubatches. cbv zeta. rewrite Hucat.
  pose proof (mkVectors_Forall2 (Upload.uuidv4 svc) (Upload.f_name file)
                (map (fun p => (p_id p, p_text p)) parents) embeddings
                children 0) as Hall.
  set (records := Upload.mkVectors _ _ _ _ 0 children) in *.
  split; [exact Hlog|].
  split.
  { rewrite Hecat. clear - Hall.
    induction Hall as [|c v cs vs Hv _ IH]; simpl; [reflexivity|].
    now rewrite IH, Hv. }
  split; [apply mkVectors_length|].
  split; [apply mkVectors_ids|].
  split; [unfold records; rewrite mkVectors_ids; apply record_ids_NoDup|].
  split.
  { rewrite <- (children_index_seq _ _ _ _ _ _ _ Hchunks). clear - Hall.
    induction Hall as [|c v cs vs Hv _ IH]; simpl; [reflexivity|].
    now rewrite IH, Hv. }
  clear - Hall.
  induction Hall as [|c v cs vs Hv _ IH]; constructor; [|exact IH].
  now rewrite Hv.
Qed.

Lemma upload_writes_one_record_per_child_witness :
  exists sid ebatches ubatches,
    let records := concat ubatches in
    [Upload.CallEmbeddings [str "aaaa. bbbb"];
     Upload.CallUpsert (str "s1")
       [Upload.mkVectorRecord
          (str "doc-1-c0") (Some [10%Z])
          (Upload.mkMetadata (str "aaaa. bbbb") (str "aaaa. bbbb")
                             (str "p-0") 0 (str "notes.v2.TXT") 0
                             (str "doc-1"))]]
    = [] ++ ingestCalls sid ebatches ubatches
    /\ concat ebatches
       = map (fun v => Upload.md_text (Upload.v_metadata v)) records
    /\ length records = 1
    /\ map Upload.v_id records
       = map (fun i => str "doc-1" ++ str "-c" ++ ofNat i) (seq 0 1)
    /\ NoDup (map Upload.v_id records)
    /\ map (fun v => Upload.md_chunkIndex (Upload.v_metadata v)) records
       = seq 0 1
    /\ Forall (fun v => Upload.md_docId (Upload.v_metadata v) = str "doc-1"
                        /\ Upload.md_source (Upload.v_metadata v)
                           = str "notes.v2.TXT")
              records.
Proof.
  apply (upload_writes_one_record_per_child
           (Ok notesForm) plainBackend [] _ (str "doc-1") (str "notes.v2.TXT")
           1 1 10).
  vm_compute. reflexivity.
Defined.


(** *** The records and their parents *)

Lemma Forall2_impl_In {A B} (R Q : A -> B -> Prop) (l : list A) (l' : list B) :
  Forall2 R l l' ->
  (forall a b, In a l -> R a b -> Q a b) ->
  Forall2 Q l l'.
Proof.
  intros Hall. induction Hall as [|a b l l' Hab _ IH]; intros Himp;
    constructor.
  - apply Himp; [now left | exact Hab].
  - apply IH. intros a' b' Hin. apply Himp. now right.
Qed.

Lemma Forall2_Forall_r {A B} (R : A -> B -> Prop) (P : B -> Prop)
      (l : list A) (l' : list B) :
  Forall2 R l l' ->
  (forall a b, In a l -> R a b -> P b) ->
  Forall P l'.
Proof.
  intros Hall. induction Hall as [|a b l l' Hab _ IH]; intros Himp;
    constructor.
  - apply (Himp a); [now left | exact Hab].
  - apply IH. intros a' b' Hin. apply Himp. now right.
Qed.

Lemma parent_id_truthy texts i p :
  In p (mkParents i texts) -> truthy (p_id p) = true.
Proof.
  intros Hin. destruct (mkParents_In texts i p Hin) as (k & -> & _).
  reflexivity.
Qed.

(** The records made of the children of a text: each carries the text
    of the parent that its child names, and nothing in it is empty or
    beyond the sizes of the route. *)
Lemma records_carry_parent
      (text docId fileName : jsstring) (embeddings : list Vector)
      (parents : list ParentChunk) (children : list ChildChunk) :
  parentChildChunk text 2000 200 400 50 = Some (parents, children) ->
  let records :=
    Upload.mkVectors docId fileName
                     (map (fun p => (p_id p, p_text p)) parents)
                     embeddings 0 children in
  Forall2 (carriesParent parents) children records
  /\ Forall wellFormedRecord records.
Proof.
  intros Hchunks records.
  destruct (parentChildChunk_inv _ _ _ _ _ _ _ Hchunks)
    as (texts & Htexts & Hparents & Hkids).
  assert (Hnd : NoDup (map fst (map (fun p => (p_id p, p_text p)) parents))).
  { rewrite map_map. simpl. rewrite Hparents, mkParents_id.
    apply parent_ids_NoDup. }
  destruct (parentChildChunk_returns text 2000 200 400 50)
    as (parents' & children' & Hchunks' & Hpshort & Hcshort);
    [apply Nat.lt_0_succ | apply Nat.lt_0_succ |].
  rewrite Hchunks in Hchunks'. injection Hchunks' as <- <-.
  assert (Hpne : nonEmptyAll (map p_text parents)).
  { rewrite Hparents, mkParents_texts.
    apply (splitAndMerge_nonEmpty _ _ _ _ Htexts). }
  assert (Hcne : nonEmptyAll (map c_text children)).
  { apply (childrenOf_nonEmpty _ _ _ _ _ Hkids). constructor. }
  assert (Hcarry : Forall2 (carriesParent parents) children records).
  { apply (Forall2_impl_In _ _ _ _
             (mkVectors_Forall2 docId fileName _ embeddings children 0)).
    intros child v Hin Hv. unfold carriesParent. cbv zeta. rewrite Hv.
    cbn [Upload.md_text Upload.md_parentId Upload.md_childIndex
         Upload.md_chunkIndex Upload.md_parentText].
    repeat (split; [reflexivity|]).
    destruct (child_resolves_to_one_parent _ _ _ _ _ _ _ Hchunks child Hin)
      as (p & Hp & Hid & _).
    exists p. split; [exact Hp|]. split; [exact Hid|].
    rewrite (mapGet_present _ (c_parentId child) (p_text p) Hnd);
      [reflexivity|].
    rewrite <- Hid. apply (in_map (fun p => (p_id p, p_text p))). exact Hp. }
  split; [exact Hcarry|].
  apply (Forall2_Forall_r _ _ _ _ Hcarry).
  intros child v Hin (Htext & Hpid & _ & _ & p & Hp & Hid & Hptext).
  unfold wellFormedRecord. cbv zeta.
  rewrite Htext, Hpid, Hptext, <- Hid.
  unfold nonEmptyAll, shortAll in *. rewrite Forall_forall in *.
  split; [apply Hcne; now apply in_map|].
  split; [apply (parent_id_truthy texts 0); now rewrite <- Hparents|].
  split; [apply Hpne; now apply in_map|].
  split; [apply Hcshort; now apply in_map|].
  apply Hpshort. now apply in_map.
Qed.

(** X24.  Every record carries the text of its parent.  When the
    upload route answers with success, the text of the file was split
    into [parentCount] parents and their children, and the records
    written are those of the children, in order: each has the text, the
    parent id and the indices of its child, and as [parentText] the
    text of the parent that this id names (the fallback to the text of
    the child is never taken).  In every record the text, the parent id
    and the parent text are not empty; the text has at most 451
    characters and the parent text at most 2201. *)
Theorem written_records_carry_their_parent
        (request : Result Upload.FormData) (svc : Upload.Backend)
        (log calls : list Upload.NetCall)
        (id fileName : jsstring) (chunkCount parentCount fileSize : nat) :
  Upload.POST request svc log
  = Some (Upload.Uploaded id fileName chunkCount parentCount fileSize,
          log ++ calls) ->
  exists form file text parents children,
    request = Ok form
    /\ Upload.fd_file form = Some file
    /\ (forall l, Upload.parseDocument (Upload.f_buffer file)
                                       (Upload.f_name file) svc l
                  = Some (Ok text, l))
    /\ parentChildChunk text 2000 200 400 50 = Some (parents, children)
    /\ parentCount = length parents
    /\ Forall2 (carriesParent parents) children (writtenIn calls)
    /\ Forall wellFormedRecord (writtenIn calls).
Proof.
  intros Hpost.
  destruct (POST_uploaded _ _ _ _ _ Hpost)
    as (form & parents & children & sid & ebatches & ubatches & Hreq & Hlog
        & file & text & embeddings & Hfile & _ & Hparse & _ & Hchunks & _
        & Hucat & _ & _ & Hresp); [eauto 6|].
  apply app_inv_head in Hlog. subst calls.
  injection Hresp as -> -> -> -> ->.
  exists form, file, text, parents, children.
  split; [exact Hreq|]. split; [exact Hfile|]. split; [exact Hparse|].
  split; [exact Hchunks|]. split; [reflexivity|].
  assert (Hwritten : writtenIn (ingestCalls sid ebatches ubatches)
                     = concat ubatches).
  { unfold writtenIn, ingestCalls. rewrite flat_map_app.
    replace (flat_map _ (map Upload.CallEmbeddings ebatches))
      with (@nil Upload.VectorRecord)
      by (clear; induction ebatches; simpl; auto).
    simpl. clear. induction ubatches as [|b bs IH]; simpl; [reflexivity|].
    now rewrite IH. }
  rewrite Hwritten, Hucat.
  apply (records_carry_parent text _ _ embeddings parents children Hchunks).
Qed.

Lemma written_records_carry_their_parent_witness :
  exists form file text parents children,
    Ok notesForm = Ok form
    /\ Upload.fd_file form = Some file
    /\ (forall l, Upload.parseDocument (Upload.f_buffer file)
                                       (Upload.f_name file) plainBackend l
                  = Some (Ok text, l))
    /\ parentChildChunk text 2000 200 400 50 = Some (parents, children)
    /\ 1 = length parents
    /\ Forall2 (carriesParent parents) children (writtenIn notesCalls)
    /\ Forall wellFormedRecord (writtenIn notesCalls).
Proof.
  apply (written_records_carry_their_parent
           (Ok notesForm) plainBackend [] notesCalls
           (str "doc-1") (str "notes.v2.TXT") 1 1 10).
  vm_compute. reflexivity.
Defined.

Open Scope Z_scope.

(** X25.  The context of an uploaded document is made of whole parents.
    Let a search return matches on records that a successful upload has
    written, with any scores and in any order, the same record or the
    same parent any number of times.  Then the parent texts collected
    for the grounding context are those of the first match of each
    parent id, in the order of the matches, and each of them is the
    text of one of the parents that [parentChildChunk] makes, with the
    sizes of the route, of the text parsed from the file of the
    request. *)
Theorem context_is_made_of_whole_parents
        (request : Result Upload.FormData) (svc : Upload.Backend)
        (log calls : list Upload.NetCall)
        (id fileName : jsstring) (chunkCount parentCount fileSize : nat)
        (found : list (Upload.VectorRecord * Z)) :
  Upload.POST request svc log
  = Some (Upload.Uploaded id fileName chunkCount parentCount fileSize,
          log ++ calls) ->
  Forall (fun m => In (fst m) (writtenIn calls)) found ->
  exists form file text parents children,
    request = Ok form
    /\ Upload.fd_file form = Some file
    /\ (forall l, Upload.parseDocument (Upload.f_buffer file)
                                       (Upload.f_name file) svc l
                  = Some (Ok text, l))
    /\ parentChildChunk text 2000 200 400 50 = Some (parents, children)
    /\ parentCount = length parents
    /\ collectParentTexts (matchesOn found) [] []
       = map pTextOf (firstPerParent [] (matchesOn found))
    /\ Forall (fun piece => exists p, In p parents /\ p_text p = piece)
              (collectParentTexts (matchesOn found) [] []).
Proof.
  intros Hpost Hfound.
  destruct (POST_uploaded _ _ _ _ _ Hpost)
    as (form & parents & children & sid & ebatches & ubatches & Hreq & Hlog
        & file & text & embeddings & Hfile & _ & Hparse & _ & Hchunks & _
        & Hucat & _ & _ & Hresp); [eauto 6|].
  apply app_inv_head in Hlog. subst calls.
  injection Hresp as -> -> -> -> ->.
  assert (Hwritten : writtenIn (ingestCalls sid ebatches ubatches)
                     = concat ubatches).
  { unfold writtenIn, ingestCalls. rewrite flat_map_app.
    replace (flat_map _ (map Upload.CallEmbeddings ebatches))
      with (@nil Upload.VectorRecord)
      by (clear; induction ebatches; simpl; auto).
    simpl. clear. induction ubatches as [|b bs IH]; simpl; [reflexivity|].
    now rewrite IH. }
  rewrite Hwritten, Hucat in Hfound.
  destruct (records_carry_parent text (Upload.uuidv4 svc) (Upload.f_name file)
              embeddings parents children Hchunks) as (Hcarry & Hwell).
  cbv zeta in Hcarry, Hwell.
  set (records := Upload.mkVectors _ _ _ _ 0 children) in *.
  exists form, file, text, parents, children.
  split; [exact Hreq|]. split; [exact Hfile|]. split; [exact Hparse|].
  split; [exact Hchunks|]. split; [reflexivity|].
  assert (Hspec : collectParentTexts (matchesOn found) [] []
                  = map pTextOf (firstPerParent [] (matchesOn found))).
  { apply (collectParentTexts_spec (matchesOn found)) with (earlier := []).
    - unfold matchesOn. apply Forall_map.
      apply (Forall_impl _ (P := fun m => In (fst m) records));
        [|exact Hfound].
      intros [v score] Hin. simpl in Hin.
      rewrite Forall_forall in Hwell.
      destruct (Hwell v Hin) as (_ & Hpid & Hptext & _).
      split; [exact Hpid | exact Hptext].
    - reflexivity. }
  split; [exact Hspec|].
  rewrite Hspec. apply Forall_map. rewrite Forall_forall.
  intros r Hr. apply firstPerParent_subset in Hr.
  unfold matchesOn in Hr. apply in_map_iff in Hr.
  destruct Hr as ([v score] & <- & Hin). simpl.
  rewrite Forall_forall in Hfound. specialize (Hfound _ Hin). simpl in Hfound.
  clear - Hcarry Hfound.
  induction Hcarry as [|child v' cs vs Hv _ IH]; [contradiction|].
  destruct Hfound as [<- | Hfound]; [|now apply IH].
  destruct Hv as (_ & _ & _ & _ & p & Hp & _ & Hptext). exists p. auto.
Qed.

Lemma context_is_made_of_whole_parents_witness :
  exists form file text parents children,
    Ok notesForm = Ok form
    /\ Upload.fd_file form = Some file
    /\ (forall l, Upload.parseDocument (Upload.f_buffer file)
                                       (Upload.f_name file) plainBackend l
                  = Some (Ok text, l))
    /\ parentChildChunk text 2000 200 400 50 = Some (parents, children)
    /\ (1 = length parents)%nat
    /\ collectParentTexts (matchesOn [(notesRecord, 9); (notesRecord, 7)])
                          [] []
       = map pTextOf
             (firstPerParent [] (matchesOn [(notesRecord, 9);
                                            (notesRecord, 7)]))
    /\ Forall (fun piece => exists p, In p parents /\ p_text p = piece)
              (collectParentTexts
                 (matchesOn [(notesRecord, 9); (notesRecord, 7)]) [] []).
Proof.
  apply (context_is_made_of_whole_parents
           (Ok notesForm) plainBackend [] notesCalls
           (str "doc-1") (str "notes.v2.TXT") 1 1 10
           [(notesRecord, 9); (notesRecord, 7)]).
  - vm_compute. reflexivity.
  - repeat constructor.
Defined.

Open Scope nat_scope.

(* ================================================================== *)
(** * Properties of the upload view *)
(* ================================================================== *)

Open Scope nat_scope.

Lemma accepted_supported (f : Upload.File) :
  UploadView.accepted f = supported (Upload.extensionOf (Upload.f_name f)).
Proof.
  unfold UploadView.accepted, supported, Upload.extensionOf. cbv zeta.
  set (ext := Upload.toLowerCase _). cbn [existsb].
  assert (Hsym : forall a b : jsstring, string_eqb a b = string_eqb b a).
  { intros a b. destruct (string_eqb a b) eqn:E1, (string_eqb b a) eqn:E2;
      try reflexivity.
    - apply string_eqb_eq in E1. subst.
      now rewrite string_eqb_refl in E2.
    - apply string_eqb_eq in E2. subst.
      now rewrite string_eqb_refl in E1. }
  rewrite !(Hsym ext).
  destruct (string_eqb (str "pdf") ext), (string_eqb (str "epub") ext),
    (string_eqb (str "docx") ext), (string_eqb (str "txt") ext),
    (string_eqb (str "md") ext); reflexivity.
Qed.

Lemma POST_extends request svc log :
  exists response calls,
    Upload.POST request svc log = Some (response, log ++ calls).
Proof.
  rewrite POST_ingest. destruct request as [form|e].
  - destruct (ingest_runs form svc log)
      as (result & sid & ebatches & ubatches & -> & _).
    destruct result as [response|e]; eauto.
  - exists (Upload.ErrorResponse 500 (Upload.messageOf e)), [].
    now rewrite app_nil_r.
Qed.

(** The loop over the files: it ends; it reports every file, or it
    stops at the first file that is refused, after the calls of the
    files before it. *)
Lemma uploadEach_spec sessionId svc :
  forall arr uploaded log,
    exists outcome calls,
      UploadView.uploadEach arr sessionId uploaded svc log
      = Some (outcome, log ++ calls)
      /\ match outcome with
         | UploadView.NoFile => False
         | UploadView.Reported docs =>
             exists added,
               docs = uploaded ++ added /\ Forall2 reports arr added
         | UploadView.Refused error =>
             exists done failed rest docs callsDone callsFailed status message,
               arr = done ++ failed :: rest
               /\ calls = callsDone ++ callsFailed
               /\ UploadView.uploadEach done sessionId uploaded svc log
                  = Some (UploadView.Reported docs, log ++ callsDone)
               /\ Upload.POST (formOf failed sessionId) svc (log ++ callsDone)
                  = Some (Upload.ErrorResponse status message,
                          log ++ callsDone ++ callsFailed)
               /\ error = Upload.f_name failed ++ str ": "
                          ++ orElse message (str "Upload failed")
         end.
Proof.
  induction arr as [|file more IH]; intros uploaded log.
  - exists (UploadView.Reported uploaded), []. simpl. rewrite app_nil_r.
    split; [reflexivity|]. exists []. rewrite app_nil_r.
    split; [reflexivity | constructor].
  - cbn [UploadView.uploadEach].
    destruct (POST_extends (formOf file sessionId) svc log)
      as (response & calls1 & Hpost).
    unfold formOf in Hpost. rewrite Hpost.
    destruct response as [status message | id fileName chunkCount pc fileSize].
    + eexists; exists calls1. split; [reflexivity|].
      exists [], file, more, uploaded, [], calls1, status, message.
      simpl. rewrite !app_nil_r.
      repeat (split; [reflexivity|]).
      split; [exact Hpost | reflexivity].
    + destruct (IH (uploaded
                    ++ [UploadView.mkDocumentInfo id fileName chunkCount
                                                  fileSize true])
                   (log ++ calls1)) as (outcome & calls2 & Hrun & Hout).
      exists outcome, (calls1 ++ calls2). rewrite app_assoc.
      split; [exact Hrun|].
      destruct outcome as [|docs|error]; [contradiction| |].
      * destruct Hout as (added & -> & Hall).
        eexists. rewrite <- app_assoc. split; [reflexivity|].
        constructor; [|exact Hall].
        rewrite POST_ingest in Hpost.
        destruct (ingest_runs (Upload.mkFormData (Some file) (Some sessionId))
                    svc log)
          as (result & sid & eb & ub & Hing & _ & _ & _ & Hres).
        rewrite Hing in Hpost. destruct result as [response|e];
          [|discriminate].
        injection Hpost as -> _.
        destruct Hres as (parents & children & file' & text & embeddings
                          & [= <-] & _ & _ & _ & _ & _ & _ & _ & _ & [= _ -> _ _ ->]).
        repeat split.
      * destruct Hout as (done & failed & rest & docs & callsDone & callsFailed
                          & status & message & -> & -> & Hdone & Hfail & ->).
        exists (file :: done), failed, rest, docs, (calls1 ++ callsDone),
          callsFailed, status, message.
        split; [reflexivity|]. split; [now rewrite app_assoc|].
        split.
        { cbn [UploadView.uploadEach]. rewrite Hpost.
          now rewrite app_assoc. }
        split; [|reflexivity].
        rewrite !app_assoc in *. exact Hfail.
Qed.

(** X26.  The view reports all the files or none.  [processFiles]
    keeps the files whose format [parseDocument] reads, so that none of
    them is refused for its format; it ends, whatever the collaborators
    do.  When it reports, it reports one document for each file kept,
    in order, with the name and the size of the file, selected.  When a
    file is refused, the files after it are not sent and no document is
    reported, not even those of the files before it, although these
    have been ingested as they would have been alone: their calls have
    been made and their records are written. *)
Theorem files_are_reported_all_or_none
        (files : list Upload.File) (sessionId : jsstring)
        (svc : Upload.Backend) (log : list Upload.NetCall) :
  let kept := filter UploadView.accepted files in
  Forall (fun f => supported (Upload.extensionOf (Upload.f_name f)) = true) kept
  /\ exists outcome calls,
       UploadView.processFiles files sessionId svc log
       = Some (outcome, log ++ calls)
       /\ match outcome with
          | UploadView.NoFile => kept = [] /\ calls = []
          | UploadView.Reported docs => Forall2 reports kept docs
          | UploadView.Refused error =>
              exists done failed rest docs callsDone callsFailed status message,
                kept = done ++ failed :: rest
                /\ calls = callsDone ++ callsFailed
                /\ UploadView.processFiles done sessionId svc log
                   = Some (if length done =? 0 then UploadView.NoFile
                           else UploadView.Reported docs,
                           log ++ callsDone)
                /\ Forall2 reports done docs
                /\ Upload.POST (formOf failed sessionId) svc (log ++ callsDone)
                   = Some (Upload.ErrorResponse status message,
                           log ++ callsDone ++ callsFailed)
                /\ error = Upload.f_name failed ++ str ": "
                           ++ orElse message (str "Upload failed")
          end.
Proof.
  intros kept. split.
  { apply Forall_forall. intros f Hf. apply filter_In in Hf.
    destruct Hf as [_ Hf]. now rewrite <- accepted_supported. }
  unfold UploadView.processFiles. fold kept.
  destruct kept as [|f kept'] eqn:Hkept.
  { exists UploadView.NoFile, []. simpl. rewrite app_nil_r. auto. }
  cbn [length Nat.eqb].
  destruct (uploadEach_spec sessionId svc (f :: kept') [] log)
    as (outcome & calls & Hrun & Hout).
  exists outcome, calls. split; [exact Hrun|].
  destruct outcome as [|docs|error]; [contradiction| |].
  - destruct Hout as (added & -> & Hall). exact Hall.
  - destruct Hout as (done & failed & rest & docs & callsDone & callsFailed
                      & status & message & Harr & -> & Hdone & Hfail & ->).
    exists done, failed, rest, docs, callsDone, callsFailed, status, message.
    split; [exact Harr|]. split; [reflexivity|].
    assert (Hall : Forall (fun f => UploadView.accepted f = true) done).
    { assert (Hk : Forall (fun f => UploadView.accepted f = true)
                          (f :: kept')).
      { rewrite <- Hkept. apply Forall_forall. intros x Hx.
        now apply filter_In in Hx. }
      rewrite Harr in Hk. now apply Forall_app in Hk. }
    assert (Hfilter : filter UploadView.accepted done = done).
    { clear - Hall. induction Hall as [|x l Hx _ IH]; simpl; [reflexivity|].
      now rewrite Hx, IH. }
    destruct (uploadEach_spec sessionId svc done [] log)
      as (outcome' & calls' & Hrun' & Hout').
    rewrite Hdone in Hrun'. injection Hrun' as <- _.
    destruct Hout' as (added & [= ->] & Hreports).
    split.
    { rewrite Hfilter. destruct done as [|d done']; simpl.
      - simpl in Hdone. injection Hdone as _ Hlog.
        rewrite <- (app_nil_r log) in Hlog at 1.
        apply app_inv_head in Hlog. subst callsDone.
        now rewrite app_nil_r.
      - exact Hdone. }
    split; [exact Hreports|]. split; [exact Hfail | reflexivity].
Qed.

Example first_file_written_and_not_reported :
  UploadView.processFiles [skippedFile; Upload.mkFile (str "notes.v2.TXT") 10
                                         (list_ascii_of_string "aaaa. bbbb"); blankFile]
                          (str "s1") plainBackend []
  = Some (UploadView.Refused
            (str "blank.md: Could not extract text from file"),
          notesCalls).
Proof. vm_compute. reflexivity. Qed.

(* ================================================================== *)
(** * Texts of white space only (C10) *)
(* ================================================================== *)

Open Scope nat_scope.















